(** * sync-map-generic: the read/dirty concurrent map, sequential semantics

    A shallow embedding of [entry], [VMap] and [KVMap] and the properties
    of their single-threaded runs.  Every operation is executed without
    interference from other goroutines: the mutex [mu] is then always free
    when an operation asks for it and is left out of the state, and an
    atomic compare-and-swap that follows a load of the same cell succeeds.
    The retry loops of [entry] are embedded a second time, in [racing],
    with other goroutines storing into the entry between the atomic
    operations of a method. *)

From stdpp Require Import base option list gmap.

(** ** Pointers and cells *)

(** The address of a value of type [T] held by the caller. *)
Definition addr := nat.

(** A [*T] as the map sees it: the nil pointer, the package-level sentinel
    [expunged], or the address of a caller's value.  The sentinel is taken
    to differ from every caller address. *)
Inductive ptr : Type :=
| pnil
| expunged
| ref (a : addr).

#[global] Instance ptr_eq_dec : EqDecision ptr.
Proof. solve_decision. Defined.

#[global] Instance ptr_inhabited : Inhabited ptr := populate pnil.

(** The identity of an [entry] (a [*entry[T]]). *)
Definition loc := nat.

(** The interface values that [tryLoadOrStore] hands back in its result
    [actual any]: the nil interface, a [*T] converted to [any], or a
    pointee [T] converted to [any].  The constructors tell how the value
    was made, not whether it is nil: see [any_is_nil]. *)
Inductive any (T : Type) : Type :=
| any_nil
| any_ptr (p : ptr)
| any_val (t : T).
Arguments any_nil {T}.
Arguments any_ptr {T} p.
Arguments any_val {T} t.

(** [x == nil] for an interface value [x].  A [*T] converted to [any] is
    not nil, not even the nil pointer.  A pointee converted to [any] is nil
    exactly when [T] is itself an interface type and the pointee is its nil
    value; [nil_value] tells the nil values of [T] and is constantly false
    for a [T] that is not an interface type. *)
Definition any_is_nil {T} (nil_value : T → bool) (x : any T) : bool :=
  match x with
  | any_nil => true
  | any_ptr _ => false
  | any_val t => nil_value t
  end.

(** ** Runs that may fail *)

Inductive outcome (S A : Type) : Type :=
| Ok (a : A) (s : S)
| Panic   (* assignment to an entry of a nil map *)
| Spin.   (* a retry loop used up its attempts *)
Arguments Ok {S A} a s.
Arguments Panic {S A}.
Arguments Spin {S A}.

Definition M (S A : Type) : Type := S → outcome S A.

#[global] Instance M_ret {S} : MRet (M S) := λ A a s, Ok a s.
#[global] Instance M_bind {S} : MBind (M S) := λ A B k c s,
  match c s with
  | Ok a s' => k a s'
  | Panic => Panic
  | Spin => Spin
  end.

Definition spin {S A} : M S A := λ _, Spin.

(** Number of attempts granted to each compare-and-swap retry loop.  The
    closed forms below hold for any positive number of attempts. *)
Definition attempts : nat := 2.

(** ** entry *)

Module entry.
Section entry.
Context {T : Type} (deref : addr → T).

Abbreviation cells := (gmap loc ptr).

(** The methods of the field [p atomic.Pointer[T]]. *)
Definition p_Load (e : loc) : M cells ptr := λ h, Ok (h !!! e) h.
Definition p_Store (e : loc) (i : ptr) : M cells unit := λ h, Ok tt (<[e:=i]> h).
Definition p_Swap (e : loc) (i : ptr) : M cells ptr := λ h, Ok (h !!! e) (<[e:=i]> h).
Definition p_CompareAndSwap (e : loc) (old new : ptr) : M cells bool := λ h,
  if decide (h !!! e = old) then Ok true (<[e:=new]> h) else Ok false h.

(** [&entry[T]{}]: a cell that no map refers to yet, holding nil. *)
Definition alloc : M cells loc := λ h,
  let e := fresh (dom h) in Ok e (<[e:=pnil]> h).

Definition newEntry (i : ptr) : M cells loc :=
  e ← alloc;
  _ ← p_Store e i;
  mret e.

Definition load (e : loc) : M cells (ptr * bool) :=
  p ← p_Load e;
  if decide (p = pnil ∨ p = expunged) then mret (pnil, false)
  else mret (p, true).

Fixpoint tryCompareAndSwap_loop (n : nat) (e : loc) (old nc p : ptr) : M cells bool :=
  match n with
  | 0 => spin
  | S n =>
      b ← p_CompareAndSwap e p nc;
      if b : bool then mret true
      else
        p ← p_Load e;
        if decide (p = pnil ∨ p = expunged ∨ p ≠ old) then mret false
        else tryCompareAndSwap_loop n e old nc p
  end.

Definition tryCompareAndSwap (e : loc) (old new : ptr) : M cells bool :=
  p ← p_Load e;
  if decide (p = pnil ∨ p = expunged ∨ p ≠ old) then mret false
  else tryCompareAndSwap_loop attempts e old new p.

Definition unexpungeLocked (e : loc) : M cells bool :=
  p_CompareAndSwap e expunged pnil.

Definition swapLocked (e : loc) (i : ptr) : M cells ptr :=
  p_Swap e i.

Fixpoint tryLoadOrStore_loop (n : nat) (e : loc) (i ic : ptr) : M cells (any T * bool * bool) :=
  match n with
  | 0 => spin
  | S n =>
      b ← p_CompareAndSwap e pnil ic;
      if b : bool then mret (any_ptr i, false, true)
      else
        p ← p_Load e;
        match p with
        | expunged => mret (any_nil, false, false)
        | ref a => mret (any_val (deref a), true, true)
        | pnil => tryLoadOrStore_loop n e i ic
        end
  end.

Definition tryLoadOrStore (e : loc) (i : ptr) : M cells (any T * bool * bool) :=
  p ← p_Load e;
  match p with
  | expunged => mret (any_nil, false, false)
  | ref a => mret (any_val (deref a), true, true)
  | pnil => tryLoadOrStore_loop attempts e i i
  end.

Fixpoint delete_loop (n : nat) (e : loc) : M cells (ptr * bool) :=
  match n with
  | 0 => spin
  | S n =>
      p ← p_Load e;
      if decide (p = pnil ∨ p = expunged) then mret (pnil, false)
      else
        b ← p_CompareAndSwap e p pnil;
        if b : bool then mret (p, true) else delete_loop n e
  end.

Definition delete (e : loc) : M cells (ptr * bool) := delete_loop attempts e.

Fixpoint trySwap_loop (n : nat) (e : loc) (i : ptr) : M cells (ptr * bool) :=
  match n with
  | 0 => spin
  | S n =>
      p ← p_Load e;
      if decide (p = expunged) then mret (pnil, false)
      else
        b ← p_CompareAndSwap e p i;
        if b : bool then mret (p, true) else trySwap_loop n e i
  end.

Definition trySwap (e : loc) (i : ptr) : M cells (ptr * bool) := trySwap_loop attempts e i.

Fixpoint tryExpungeLocked_loop (n : nat) (e : loc) (p : ptr) : M cells bool :=
  if decide (p = pnil) then
    match n with
    | 0 => spin
    | S n =>
        b ← p_CompareAndSwap e pnil expunged;
        if b : bool then mret true
        else
          p ← p_Load e;
          tryExpungeLocked_loop n e p
    end
  else mret (bool_decide (p = expunged)).

Definition tryExpungeLocked (e : loc) : M cells bool :=
  p ← p_Load e;
  tryExpungeLocked_loop attempts e p.

End entry.
End entry.

(** ** entry, while other goroutines store into it *)

(** The methods of one [entry] again, run by one goroutine while others
    store into the same field [p]: before each atomic operation of the
    method another goroutine may have stored a pointer.  A loop that is
    granted [n] iterations and needs more ends in [Spin]. *)

Module racing.
Section racing.
Context {T : Type} (deref : addr → T).

(** [cell] is what the field [p] holds; [others] lists, for each atomic
    operation to come, the pointer that another goroutine stores just
    before it, if any; [stores] lists the stores that the method made,
    each with the pointer it replaced. *)
Record world : Type := mkWorld {
  cell : ptr;
  others : list (option ptr);
  stores : list (ptr * ptr)
}.

(** The world once the other goroutines have made their next move. *)
Definition moved (w : world) : world :=
  match others w with
  | Some q :: rest => mkWorld q rest (stores w)
  | None :: rest => mkWorld (cell w) rest (stores w)
  | [] => w
  end.

(** The number of stores that the other goroutines still make. *)
Definition busy (w : world) : nat := length (filter is_Some (others w)).

Definition p_Load : M world ptr := λ w, Ok (cell (moved w)) (moved w).

Definition p_Swap (i : ptr) : M world ptr := λ w,
  let w := moved w in
  Ok (cell w) (mkWorld i (others w) (stores w ++ [(cell w, i)])).

Definition p_CompareAndSwap (old new : ptr) : M world bool := λ w,
  let w := moved w in
  if decide (cell w = old)
  then Ok true (mkWorld new (others w) (stores w ++ [(old, new)]))
  else Ok false w.

(** The other goroutines store no sentinel: they run the methods that are
    called without the lock. *)
Definition polite (w : world) : Prop := Forall (λ o, o ≠ Some expunged) (others w).

Fixpoint tryCompareAndSwap_loop (n : nat) (old nc p : ptr) : M world bool :=
  match n with
  | 0 => spin
  | S n =>
      b ← p_CompareAndSwap p nc;
      if b : bool then mret true
      else
        p ← p_Load;
        if decide (p = pnil ∨ p = expunged ∨ p ≠ old) then mret false
        else tryCompareAndSwap_loop n old nc p
  end.

Definition tryCompareAndSwap (n : nat) (old new : ptr) : M world bool :=
  p ← p_Load;
  if decide (p = pnil ∨ p = expunged ∨ p ≠ old) then mret false
  else tryCompareAndSwap_loop n old new p.

Definition unexpungeLocked : M world bool := p_CompareAndSwap expunged pnil.

Definition swapLocked (i : ptr) : M world ptr := p_Swap i.

Fixpoint tryLoadOrStore_loop (n : nat) (i ic : ptr) : M world (any T * bool * bool) :=
  match n with
  | 0 => spin
  | S n =>
      b ← p_CompareAndSwap pnil ic;
      if b : bool then mret (any_ptr i, false, true)
      else
        p ← p_Load;
        match p with
        | expunged => mret (any_nil, false, false)
        | ref a => mret (any_val (deref a), true, true)
        | pnil => tryLoadOrStore_loop n i ic
        end
  end.

Definition tryLoadOrStore (n : nat) (i : ptr) : M world (any T * bool * bool) :=
  p ← p_Load;
  match p with
  | expunged => mret (any_nil, false, false)
  | ref a => mret (any_val (deref a), true, true)
  | pnil => tryLoadOrStore_loop n i i
  end.

Fixpoint delete (n : nat) : M world (ptr * bool) :=
  match n with
  | 0 => spin
  | S n =>
      p ← p_Load;
      if decide (p = pnil ∨ p = expunged) then mret (pnil, false)
      else
        b ← p_CompareAndSwap p pnil;
        if b : bool then mret (p, true) else delete n
  end.

Fixpoint trySwap (n : nat) (i : ptr) : M world (ptr * bool) :=
  match n with
  | 0 => spin
  | S n =>
      p ← p_Load;
      if decide (p = expunged) then mret (pnil, false)
      else
        b ← p_CompareAndSwap p i;
        if b : bool then mret (p, true) else trySwap n i
  end.

Fixpoint tryExpungeLocked_loop (n : nat) (p : ptr) : M world bool :=
  if decide (p = pnil) then
    match n with
    | 0 => spin
    | S n =>
        b ← p_CompareAndSwap pnil expunged;
        if b : bool then mret true
        else
          p ← p_Load;
          tryExpungeLocked_loop n p
    end
  else mret (bool_decide (p = expunged)).

Definition tryExpungeLocked (n : nat) : M world bool :=
  p ← p_Load;
  tryExpungeLocked_loop n p.

End racing.
End racing.

(** ** Calls and results *)

(** What a run returned, if it returned. *)
Definition returned {S A} (o : outcome S A) : option A :=
  match o with
  | Ok a _ => Some a
  | _ => None
  end.

(** The state a run ended in, if it returned. *)
Definition final {S A} (o : outcome S A) : option S :=
  match o with
  | Ok _ s => Some s
  | _ => None
  end.

(** A pointer that a caller can hold: any [*T] but the sentinel. *)
Definition handle (v : ptr) : bool := negb (bool_decide (v = expunged)).

(** The callback of [Range]: it sees the calls made before it in this
    [Range] (whatever a closure may have recorded), the key and the value,
    and says whether to go on. *)
Definition visitor (K : Type) : Type := list (K * ptr) → K → ptr → bool.

(** A call of a public method, and what it returns. *)
Inductive op (K : Type) : Type :=
| OLoad (k : K)
| OStore (k : K) (value : ptr)
| OLoadOrStore (k : K) (value : ptr)
| OLoadAndDelete (k : K)
| ODelete (k : K)
| OSwap (k : K) (value : ptr)
| OCompareAndSwap (k : K) (old new : ptr)
| OCompareAndDelete (k : K) (old : ptr)
| ORange (f : visitor K)
| OClear.
Arguments OLoad {K} k.
Arguments OStore {K} k value.
Arguments OLoadOrStore {K} k value.
Arguments OLoadAndDelete {K} k.
Arguments ODelete {K} k.
Arguments OSwap {K} k value.
Arguments OCompareAndSwap {K} k old new.
Arguments OCompareAndDelete {K} k old.
Arguments ORange {K} f.
Arguments OClear {K}.

Inductive res (K T : Type) : Type :=
| RUnit
| RPtr (v : ptr) (ok : bool)
| RAny (actual : any T) (loaded : bool)
| RBool (b : bool)
| RCalls (calls : list (K * ptr)).
Arguments RUnit {K T}.
Arguments RPtr {K T} v ok.
Arguments RAny {K T} actual loaded.
Arguments RBool {K T} b.
Arguments RCalls {K T} calls.

(** The caller passes handles only. *)
Definition valid {K} (o : op K) : bool :=
  match o with
  | OStore _ v | OLoadOrStore _ v | OSwap _ v => handle v
  | OCompareAndSwap _ old new => handle old && handle new
  | OCompareAndDelete _ old => handle old
  | _ => true
  end.

(** The keys whose lookup a call can change: the key it is given for the
    calls that write, every key for [Clear], none for [Load] and [Range]. *)
Definition writes {K} `{EqDecision K} (o : op K) (k' : K) : bool :=
  match o with
  | OLoad _ | ORange _ => false
  | OClear => true
  | OStore k _ | OLoadOrStore k _ | OLoadAndDelete k | ODelete k | OSwap k _
  | OCompareAndSwap k _ _ | OCompareAndDelete k _ => bool_decide (k = k')
  end.

(** ** VMap *)

(** The key type [any] is a parameter: the comparable dynamic values that
    callers use as keys, compared as Go compares interface values. *)

Module VMap.
Section VMap.
Context {key : Type} `{Countable key} {T : Type} (deref : addr → T).

(** [m] is a Go map that is only read: a nil map reads as the empty one. *)
Record readOnly : Type := mkReadOnly {
  m : gmap key loc;
  amended : bool
}.

(** [cells] holds the field [p] of every entry allocated so far; [read] is
    the [atomic.Pointer], [None] while it is nil; [dirty] is [None] while
    the Go map is nil.  [misses] is an [int] that [missLocked] resets as
    soon as it reaches [len(m.dirty)]: it stays within the lengths of maps
    (proved below for every reachable state) and never wraps, so it is a
    [nat] here. *)
Record VMap : Type := mkVMap {
  cells : gmap loc ptr;
  read : option readOnly;
  dirty : option (gmap key loc);
  misses : nat
}.

(** The zero value. *)
Definition zero : VMap := mkVMap ∅ None None 0.

Definition liftE {A} (c : M (gmap loc ptr) A) : M VMap A := λ s,
  match c (cells s) with
  | Ok a h => Ok a (mkVMap h (read s) (dirty s) (misses s))
  | Panic => Panic
  | Spin => Spin
  end.

(** [m.read.Store(&r)] *)
Definition read_Store (r : readOnly) : M VMap unit := λ s,
  Ok tt (mkVMap (cells s) (Some r) (dirty s) (misses s)).

(** [e, ok = m.dirty[key]] *)
Definition dirty_lookup (k : key) : M VMap (option loc) := λ s,
  Ok (d ← dirty s; d !! k) s.

(** [m.dirty[key] = e] *)
Definition dirty_assign (k : key) (e : loc) : M VMap unit := λ s,
  match dirty s with
  | Some d => Ok tt (mkVMap (cells s) (read s) (Some (<[k:=e]> d)) (misses s))
  | None => Panic
  end.

(** [delete(m.dirty, key)] *)
Definition dirty_delete (k : key) : M VMap unit := λ s,
  Ok tt (mkVMap (cells s) (read s) (delete k <$> dirty s) (misses s)).

(** [clear(m.dirty)] *)
Definition dirty_clear : M VMap unit := λ s,
  Ok tt (mkVMap (cells s) (read s) ((λ _, ∅) <$> dirty s) (misses s)).

(** [m.dirty = d] *)
Definition dirty_set (d : option (gmap key loc)) : M VMap unit := λ s,
  Ok tt (mkVMap (cells s) (read s) d (misses s)).

Definition dirty_get : M VMap (option (gmap key loc)) := λ s, Ok (dirty s) s.

(** [len(m.dirty)] *)
Definition dirty_len : M VMap nat := λ s, Ok (from_option size 0 (dirty s)) s.

Definition misses_set (n : nat) : M VMap unit := λ s,
  Ok tt (mkVMap (cells s) (read s) (dirty s) n).

Definition misses_get : M VMap nat := λ s, Ok (misses s) s.

(** A Go map value as the field [m] of a [readOnly]. *)
Definition as_map (d : option (gmap key loc)) : gmap key loc := default ∅ d.

Definition loadReadOnly : M VMap readOnly := λ s,
  match read s with
  | Some p => Ok p s
  | None => Ok (mkReadOnly ∅ false) s
  end.

Definition missLocked : M VMap unit :=
  n ← misses_get;
  _ ← misses_set (S n);
  n ← misses_get;
  len ← dirty_len;
  if decide (n < len) then mret tt
  else
    d ← dirty_get;
    _ ← read_Store (mkReadOnly (as_map d) false);
    _ ← dirty_set None;
    misses_set 0.

(** [for k, e := range ...] over the pairs in the order they are met. *)
Fixpoint for_range (body : key → loc → M VMap unit) (kes : list (key * loc)) : M VMap unit :=
  match kes with
  | [] => mret tt
  | (k, e) :: rest => _ ← body k e; for_range body rest
  end.

Definition dirtyLocked : M VMap unit :=
  d ← dirty_get;
  if d is Some _ then mret tt
  else
    rd ← loadReadOnly;
    _ ← dirty_set (Some ∅);
    for_range (λ k e,
      b ← liftE (entry.tryExpungeLocked e);
      if b : bool then mret tt else dirty_assign k e) (map_to_list (m rd)).

Definition Load (k : key) : M VMap (ptr * bool) :=
  rd ← loadReadOnly;
  let eo := m rd !! k in
  eo ← (if negb (bool_decide (is_Some eo)) && amended rd then
          rd ← loadReadOnly;
          let eo := m rd !! k in
          if negb (bool_decide (is_Some eo)) && amended rd then
            eo ← dirty_lookup k;
            _ ← missLocked;
            mret eo
          else mret eo
        else mret eo);
  match eo with
  | None => mret (pnil, false)
  | Some e => liftE (entry.load e)
  end.

(** The slow path shared by [Swap] and [LoadOrStore] for a key that is in
    neither map: [if !read.amended { m.dirtyLocked(); m.read.Store(...) }]. *)
Definition amend (rd : readOnly) : M VMap unit :=
  if amended rd then mret tt
  else
    _ ← dirtyLocked;
    read_Store (mkReadOnly (m rd) true).

Definition Swap (k : key) (value : ptr) : M VMap (ptr * bool) :=
  rd ← loadReadOnly;
  fast ← match m rd !! k with
         | Some e =>
             '(v, ok) ← liftE (entry.trySwap e value);
             if ok : bool then
               if decide (v = pnil) then mret (Some (pnil, false))
               else mret (Some (v, true))
             else mret None
         | None => mret None
         end;
  match fast with
  | Some r => mret r
  | None =>
      rd ← loadReadOnly;
      match m rd !! k with
      | Some e =>
          b ← liftE (entry.unexpungeLocked e);
          _ ← (if b : bool then dirty_assign k e else mret tt);
          v ← liftE (entry.swapLocked e value);
          if decide (v ≠ pnil) then mret (v, true) else mret (pnil, false)
      | None =>
          eo ← dirty_lookup k;
          match eo with
          | Some e =>
              v ← liftE (entry.swapLocked e value);
              if decide (v ≠ pnil) then mret (v, true) else mret (pnil, false)
          | None =>
              _ ← amend rd;
              e ← liftE (entry.newEntry value);
              _ ← dirty_assign k e;
              mret (pnil, false)
          end
      end
  end.

Definition Store (k : key) (value : ptr) : M VMap unit :=
  _ ← Swap k value; mret tt.

Definition Clear : M VMap unit :=
  rd ← loadReadOnly;
  if bool_decide (size (m rd) = 0) && negb (amended rd) then mret tt
  else
    rd ← loadReadOnly;
    _ ← (if bool_decide (0 < size (m rd)) || amended rd
         then read_Store (mkReadOnly ∅ false) else mret tt);
    _ ← dirty_clear;
    misses_set 0.

(** The result [actual] is declared [*T] and receives what
    [tryLoadOrStore] returned, an [any]; the model keeps it as an [any]. *)
Definition LoadOrStore (k : key) (value : ptr) : M VMap (any T * bool) :=
  rd ← loadReadOnly;
  fast ← match m rd !! k with
         | Some e =>
             '(actual, loaded, ok) ← liftE (entry.tryLoadOrStore deref e value);
             if ok : bool then mret (Some (actual, loaded)) else mret None
         | None => mret None
         end;
  match fast with
  | Some r => mret r
  | None =>
      rd ← loadReadOnly;
      match m rd !! k with
      | Some e =>
          b ← liftE (entry.unexpungeLocked e);
          _ ← (if b : bool then dirty_assign k e else mret tt);
          '(actual, loaded, _) ← liftE (entry.tryLoadOrStore deref e value);
          mret (actual, loaded)
      | None =>
          eo ← dirty_lookup k;
          match eo with
          | Some e =>
              '(actual, loaded, _) ← liftE (entry.tryLoadOrStore deref e value);
              _ ← missLocked;
              mret (actual, loaded)
          | None =>
              _ ← amend rd;
              e ← liftE (entry.newEntry value);
              _ ← dirty_assign k e;
              mret (any_ptr value, false)
          end
      end
  end.

Definition LoadAndDelete (k : key) : M VMap (ptr * bool) :=
  rd ← loadReadOnly;
  let eo := m rd !! k in
  eo ← (if negb (bool_decide (is_Some eo)) && amended rd then
          rd ← loadReadOnly;
          let eo := m rd !! k in
          if negb (bool_decide (is_Some eo)) && amended rd then
            eo ← dirty_lookup k;
            _ ← dirty_delete k;
            _ ← missLocked;
            mret eo
          else mret eo
        else mret eo);
  match eo with
  | Some e => liftE (entry.delete e)
  | None => mret (pnil, false)
  end.

Definition Delete (k : key) : M VMap unit :=
  _ ← LoadAndDelete k; mret tt.

Definition CompareAndSwap (k : key) (old new : ptr) : M VMap bool :=
  rd ← loadReadOnly;
  match m rd !! k with
  | Some e => liftE (entry.tryCompareAndSwap e old new)
  | None =>
      if negb (amended rd) then mret false
      else
        rd ← loadReadOnly;
        match m rd !! k with
        | Some e => liftE (entry.tryCompareAndSwap e old new)
        | None =>
            eo ← dirty_lookup k;
            match eo with
            | Some e =>
                swapped ← liftE (entry.tryCompareAndSwap e old new);
                _ ← missLocked;
                mret swapped
            | None => mret false
            end
        end
  end.

(** [for ok { ... }] on the cell found. *)
Fixpoint CompareAndDelete_loop (n : nat) (e : loc) (old : ptr) : M (gmap loc ptr) bool :=
  match n with
  | 0 => spin
  | S n =>
      p ← entry.p_Load e;
      if decide (p = pnil ∨ p = expunged ∨ p ≠ old) then mret false
      else
        b ← entry.p_CompareAndSwap e p pnil;
        if b : bool then mret true else CompareAndDelete_loop n e old
  end.

Definition CompareAndDelete (k : key) (old : ptr) : M VMap bool :=
  rd ← loadReadOnly;
  let eo := m rd !! k in
  eo ← (if negb (bool_decide (is_Some eo)) && amended rd then
          rd ← loadReadOnly;
          let eo := m rd !! k in
          if negb (bool_decide (is_Some eo)) && amended rd then
            eo ← dirty_lookup k;
            _ ← missLocked;
            mret eo
          else mret eo
        else mret eo);
  match eo with
  | Some e => liftE (CompareAndDelete_loop attempts e old)
  | None => mret false
  end.

(** The loop of [Range] over the pairs in the order they are met; the result
    lists the calls made to [f], in order. *)
Fixpoint Range_loop (f : visitor key) (seen : list (key * ptr)) (kes : list (key * loc))
    : M VMap (list (key * ptr)) :=
  match kes with
  | [] => mret seen
  | (k, e) :: rest =>
      '(v, ok) ← liftE (entry.load e);
      if ok : bool then
        if f seen k v then Range_loop f (seen ++ [(k, v)]) rest
        else mret (seen ++ [(k, v)])
      else Range_loop f seen rest
  end.

(** The part of [Range] before the loop: the snapshot to iterate. *)
Definition Range_read : M VMap readOnly :=
  rd ← loadReadOnly;
  if amended rd then
    rd ← loadReadOnly;
    if amended rd then
      d ← dirty_get;
      let rd := mkReadOnly (as_map d) false in
      _ ← read_Store rd;
      _ ← dirty_set None;
      _ ← misses_set 0;
      mret rd
    else mret rd
  else mret rd.

(** [order] is the order in which [range read.m] meets the pairs of the
    map, which Go leaves open. *)
Definition Range_in (order : gmap key loc → list (key * loc)) (f : visitor key)
    : M VMap (list (key * ptr)) :=
  rd ← Range_read;
  Range_loop f [] (order (m rd)).

Definition Range (f : visitor key) : M VMap (list (key * ptr)) :=
  Range_in map_to_list f.

(** [Range] with a callback that itself calls methods of the map, as [f]
    may: the loop runs over the snapshot read before it. *)
Fixpoint Range_loop_calling (f : key → ptr → M VMap bool) (seen : list (key * ptr))
    (kes : list (key * loc)) : M VMap (list (key * ptr)) :=
  match kes with
  | [] => mret seen
  | (k, e) :: rest =>
      '(v, ok) ← liftE (entry.load e);
      if ok : bool then
        b ← f k v;
        if b : bool then Range_loop_calling f (seen ++ [(k, v)]) rest
        else mret (seen ++ [(k, v)])
      else Range_loop_calling f seen rest
  end.

Definition Range_calling (f : key → ptr → M VMap bool) : M VMap (list (key * ptr)) :=
  rd ← Range_read;
  Range_loop_calling f [] (map_to_list (m rd)).

(** *** Runs of calls *)

Definition exec (o : op key) : M VMap (res key T) :=
  match o with
  | OLoad k => '(v, ok) ← Load k; mret (RPtr v ok)
  | OStore k v => _ ← Store k v; mret RUnit
  | OLoadOrStore k v => '(a, loaded) ← LoadOrStore k v; mret (RAny a loaded)
  | OLoadAndDelete k => '(v, ok) ← LoadAndDelete k; mret (RPtr v ok)
  | ODelete k => _ ← Delete k; mret RUnit
  | OSwap k v => '(p, loaded) ← Swap k v; mret (RPtr p loaded)
  | OCompareAndSwap k old new => b ← CompareAndSwap k old new; mret (RBool b)
  | OCompareAndDelete k old => b ← CompareAndDelete k old; mret (RBool b)
  | ORange f => calls ← Range f; mret (RCalls calls)
  | OClear => _ ← Clear; mret RUnit
  end.

Fixpoint run (os : list (op key)) : M VMap (list (res key T)) :=
  match os with
  | [] => mret []
  | o :: os => r ← exec o; rs ← run os; mret (r :: rs)
  end.

(** The states that calls with handles lead to from the zero value. *)
Inductive reachable : VMap → Prop :=
| reachable_zero : reachable zero
| reachable_step s o r s' :
    reachable s → valid o = true → exec o s = Ok r s' → reachable s'.

(** *** Views of a state *)

(** What [loadReadOnly] returns. *)
Definition snapshot (s : VMap) : readOnly := default (mkReadOnly ∅ false) (read s).

(** What [m.dirty[key]] returns. *)
Definition overlay (s : VMap) (k : key) : option loc := d ← dirty s; d !! k.

(** What [load] returns on a cell that holds [p]. *)
Definition loaded (p : ptr) : ptr * bool :=
  match p with
  | ref a => (ref a, true)
  | _ => (pnil, false)
  end.

(** What [Swap] returns when it replaced [p]. *)
Definition swapped (p : ptr) : ptr * bool :=
  if decide (p = pnil) then (pnil, false) else (p, true).

(** The state with the cell [e] set to [v]. *)
Definition set_cell (e : loc) (v : ptr) (s : VMap) : VMap :=
  mkVMap (<[e:=v]> (cells s)) (read s) (dirty s) (misses s).

(** The state after [delete] on the cell [e]. *)
Definition del_cell (e : loc) (s : VMap) : VMap :=
  match cells s !!! e with
  | ref _ => set_cell e pnil s
  | _ => s
  end.

(** The state after [delete(m.dirty, key)]. *)
Definition drop (k : key) (s : VMap) : VMap :=
  mkVMap (cells s) (read s) (delete k <$> dirty s) (misses s).

(** The state after [m.dirty[key] = e]. *)
Definition register (k : key) (e : loc) (s : VMap) : VMap :=
  mkVMap (cells s) (read s) (<[k:=e]> <$> dirty s) (misses s).

(** The cell holds the handle [old]: a compare-and-swap from [old] wins. *)
Definition holds (old : ptr) (p : ptr) : Prop :=
  p = old ∧ old ≠ pnil ∧ old ≠ expunged.

#[global] Instance holds_dec old p : Decision (holds old p).
Proof. unfold holds. apply _. Defined.

(** The state with the dirty map as the new snapshot. *)
Definition promoted (s : VMap) : VMap :=
  mkVMap (cells s) (Some (mkReadOnly (as_map (dirty s)) false)) None 0.

(** The state after one more miss. *)
Definition missed (s : VMap) : VMap :=
  if decide (S (misses s) < from_option size 0 (dirty s))
  then mkVMap (cells s) (read s) (dirty s) (S (misses s))
  else promoted s.

(** The cell that a lookup of [k] ends at: the snapshot's, or the dirty
    map's when the snapshot has none and is amended. *)
Definition cell_of (s : VMap) (k : key) : option loc :=
  match m (snapshot s) !! k with
  | Some e => Some e
  | None => if amended (snapshot s) then overlay s k else None
  end.

(** What a lookup of [k] finds: what [load] returns on the cell it ends at. *)
Definition contents (s : VMap) (k : key) : ptr * bool :=
  from_option (λ e, loaded (cells s !!! e)) (pnil, false) (cell_of s k).

(** The pairs out of [kes] whose cell holds a value: those that [Range]
    passes to its callback. *)
Definition live (s : VMap) (kes : list (key * loc)) : list (key * addr) :=
  omap (λ ke, match cells s !!! ke.2 with ref a => Some (ke.1, a) | _ => None end) kes.

(** Two states with the same snapshot pointer, dirty map and miss count. *)
Definition same_books (s1 s2 : VMap) : Prop :=
  read s1 = read s2 ∧ dirty s1 = dirty s2 ∧ misses s1 = misses s2.

(** The miss count is within the length of the dirty map. *)
Definition bounded (s : VMap) : Prop := misses s ≤ from_option size 0 (dirty s).

(** The miss count is below the length of the dirty map while the snapshot
    is amended, and 0 while it is not. *)
Definition tight (s : VMap) : Prop :=
  if amended (snapshot s) then misses s < from_option size 0 (dirty s) else misses s = 0.

(** The state after [n] more misses that do not promote the dirty map. *)
Definition more_misses (n : nat) (s : VMap) : VMap :=
  mkVMap (cells s) (read s) (dirty s) (n + misses s).



(** The state invariant. *)
Record wf (s : VMap) : Prop := mk_wf {
  wf_amended : amended (snapshot s) = true → is_Some (dirty s);
  wf_expunged : ∀ k e, m (snapshot s) !! k = Some e → cells s !!! e = expunged →
    amended (snapshot s) = true ∧ overlay s k = None;
  wf_dirty : ∀ k e, overlay s k = Some e → cells s !!! e ≠ expunged;
  wf_copy : ∀ k e, is_Some (dirty s) → m (snapshot s) !! k = Some e →
    cells s !!! e ≠ expunged → overlay s k = Some e;
  wf_clean : amended (snapshot s) = false → ∀ k, overlay s k = None;
  wf_alloc : ∀ k e, m (snapshot s) !! k = Some e ∨ overlay s k = Some e →
    e ∈ dom (cells s);
  wf_inj_read : ∀ k1 k2 e, m (snapshot s) !! k1 = Some e →
    m (snapshot s) !! k2 = Some e → k1 = k2;
  wf_inj_dirty : ∀ k1 k2 e, overlay s k1 = Some e → overlay s k2 = Some e → k1 = k2
}.

End VMap.
End VMap.

(** ** KVMap *)

(** The same methods over [map[K]*entry[V]], for a key type [K]. *)

Module KVMap.
Section KVMap.
Context {K : Type} `{Countable K} {T : Type} (deref : addr → T).

(** [m] is a Go map that is only read: a nil map reads as the empty one. *)
Record kvreadOnly : Type := mkKvReadOnly {
  m : gmap K loc;
  amended : bool
}.

(** [cells] holds the field [p] of every entry allocated so far; [read] is
    the [atomic.Pointer], [None] while it is nil; [dirty] is [None] while
    the Go map is nil.  [misses] is an [int] as in [VMap]. *)
Record KVMap : Type := mkKVMap {
  cells : gmap loc ptr;
  read : option kvreadOnly;
  dirty : option (gmap K loc);
  misses : nat
}.

(** The zero value. *)
Definition zero : KVMap := mkKVMap ∅ None None 0.

Definition liftE {A} (c : M (gmap loc ptr) A) : M KVMap A := λ s,
  match c (cells s) with
  | Ok a h => Ok a (mkKVMap h (read s) (dirty s) (misses s))
  | Panic => Panic
  | Spin => Spin
  end.

(** [m.read.Store(&r)] *)
Definition read_Store (r : kvreadOnly) : M KVMap unit := λ s,
  Ok tt (mkKVMap (cells s) (Some r) (dirty s) (misses s)).

(** [e, ok = m.dirty[key]] *)
Definition dirty_lookup (k : K) : M KVMap (option loc) := λ s,
  Ok (d ← dirty s; d !! k) s.

(** [m.dirty[key] = e] *)
Definition dirty_assign (k : K) (e : loc) : M KVMap unit := λ s,
  match dirty s with
  | Some d => Ok tt (mkKVMap (cells s) (read s) (Some (<[k:=e]> d)) (misses s))
  | None => Panic
  end.

(** [delete(m.dirty, key)] *)
Definition dirty_delete (k : K) : M KVMap unit := λ s,
  Ok tt (mkKVMap (cells s) (read s) (delete k <$> dirty s) (misses s)).

(** [clear(m.dirty)] *)
Definition dirty_clear : M KVMap unit := λ s,
  Ok tt (mkKVMap (cells s) (read s) ((λ _, ∅) <$> dirty s) (misses s)).

(** [m.dirty = d] *)
Definition dirty_set (d : option (gmap K loc)) : M KVMap unit := λ s,
  Ok tt (mkKVMap (cells s) (read s) d (misses s)).

Definition dirty_get : M KVMap (option (gmap K loc)) := λ s, Ok (dirty s) s.

(** [len(m.dirty)] *)
Definition dirty_len : M KVMap nat := λ s, Ok (from_option size 0 (dirty s)) s.

Definition misses_set (n : nat) : M KVMap unit := λ s,
  Ok tt (mkKVMap (cells s) (read s) (dirty s) n).

Definition misses_get : M KVMap nat := λ s, Ok (misses s) s.

(** A Go map value as the field [m] of a [kvreadOnly]. *)
Definition as_map (d : option (gmap K loc)) : gmap K loc := default ∅ d.

Definition loadReadOnly : M KVMap kvreadOnly := λ s,
  match read s with
  | Some p => Ok p s
  | None => Ok (mkKvReadOnly ∅ false) s
  end.

Definition missLocked : M KVMap unit :=
  n ← misses_get;
  _ ← misses_set (S n);
  n ← misses_get;
  len ← dirty_len;
  if decide (n < len) then mret tt
  else
    d ← dirty_get;
    _ ← read_Store (mkKvReadOnly (as_map d) false);
    _ ← dirty_set None;
    misses_set 0.

(** [for k, e := range ...] over the pairs in the order they are met. *)
Fixpoint for_range (body : K → loc → M KVMap unit) (kes : list (K * loc)) : M KVMap unit :=
  match kes with
  | [] => mret tt
  | (k, e) :: rest => _ ← body k e; for_range body rest
  end.

Definition dirtyLocked : M KVMap unit :=
  d ← dirty_get;
  if d is Some _ then mret tt
  else
    rd ← loadReadOnly;
    _ ← dirty_set (Some ∅);
    for_range (λ k e,
      b ← liftE (entry.tryExpungeLocked e);
      if b : bool then mret tt else dirty_assign k e) (map_to_list (m rd)).

Definition Load (k : K) : M KVMap (ptr * bool) :=
  rd ← loadReadOnly;
  let eo := m rd !! k in
  eo ← (if negb (bool_decide (is_Some eo)) && amended rd then
          rd ← loadReadOnly;
          let eo := m rd !! k in
          if negb (bool_decide (is_Some eo)) && amended rd then
            eo ← dirty_lookup k;
            _ ← missLocked;
            mret eo
          else mret eo
        else mret eo);
  match eo with
  | None => mret (pnil, false)
  | Some e => liftE (entry.load e)
  end.

(** The slow path shared by [Swap] and [LoadOrStore] for a key that is in
    neither map: [if !read.amended { m.dirtyLocked(); m.read.Store(...) }]. *)
Definition amend (rd : kvreadOnly) : M KVMap unit :=
  if amended rd then mret tt
  else
    _ ← dirtyLocked;
    read_Store (mkKvReadOnly (m rd) true).

Definition Swap (k : K) (value : ptr) : M KVMap (ptr * bool) :=
  rd ← loadReadOnly;
  fast ← match m rd !! k with
         | Some e =>
             '(v, ok) ← liftE (entry.trySwap e value);
             if ok : bool then
               if decide (v = pnil) then mret (Some (pnil, false))
               else mret (Some (v, true))
             else mret None
         | None => mret None
         end;
  match fast with
  | Some r => mret r
  | None =>
      rd ← loadReadOnly;
      match m rd !! k with
      | Some e =>
          b ← liftE (entry.unexpungeLocked e);
          _ ← (if b : bool then dirty_assign k e else mret tt);
          v ← liftE (entry.swapLocked e value);
          if decide (v ≠ pnil) then mret (v, true) else mret (pnil, false)
      | None =>
          eo ← dirty_lookup k;
          match eo with
          | Some e =>
              v ← liftE (entry.swapLocked e value);
              if decide (v ≠ pnil) then mret (v, true) else mret (pnil, false)
          | None =>
              _ ← amend rd;
              e ← liftE (entry.newEntry value);
              _ ← dirty_assign k e;
              mret (pnil, false)
          end
      end
  end.

Definition Store (k : K) (value : ptr) : M KVMap unit :=
  _ ← Swap k value; mret tt.

Definition Clear : M KVMap unit :=
  rd ← loadReadOnly;
  if bool_decide (size (m rd) = 0) && negb (amended rd) then mret tt
  else
    rd ← loadReadOnly;
    _ ← (if bool_decide (0 < size (m rd)) || amended rd
         then read_Store (mkKvReadOnly ∅ false) else mret tt);
    _ ← dirty_clear;
    misses_set 0.

(** The result [actual] is declared [*T] and receives what
    [tryLoadOrStore] returned, an [any]; the model keeps it as an [any]. *)
Definition LoadOrStore (k : K) (value : ptr) : M KVMap (any T * bool) :=
  rd ← loadReadOnly;
  fast ← match m rd !! k with
         | Some e =>
             '(actual, loaded, ok) ← liftE (entry.tryLoadOrStore deref e value);
             if ok : bool then mret (Some (actual, loaded)) else mret None
         | None => mret None
         end;
  match fast with
  | Some r => mret r
  | None =>
      rd ← loadReadOnly;
      match m rd !! k with
      | Some e =>
          b ← liftE (entry.unexpungeLocked e);
          _ ← (if b : bool then dirty_assign k e else mret tt);
          '(actual, loaded, _) ← liftE (entry.tryLoadOrStore deref e value);
          mret (actual, loaded)
      | None =>
          eo ← dirty_lookup k;
          match eo with
          | Some e =>
              '(actual, loaded, _) ← liftE (entry.tryLoadOrStore deref e value);
              _ ← missLocked;
              mret (actual, loaded)
          | None =>
              _ ← amend rd;
              e ← liftE (entry.newEntry value);
              _ ← dirty_assign k e;
              mret (any_ptr value, false)
          end
      end
  end.

Definition LoadAndDelete (k : K) : M KVMap (ptr * bool) :=
  rd ← loadReadOnly;
  let eo := m rd !! k in
  eo ← (if negb (bool_decide (is_Some eo)) && amended rd then
          rd ← loadReadOnly;
          let eo := m rd !! k in
          if negb (bool_decide (is_Some eo)) && amended rd then
            eo ← dirty_lookup k;
            _ ← dirty_delete k;
            _ ← missLocked;
            mret eo
          else mret eo
        else mret eo);
  match eo with
  | Some e => liftE (entry.delete e)
  | None => mret (pnil, false)
  end.

Definition Delete (k : K) : M KVMap unit :=
  _ ← LoadAndDelete k; mret tt.

Definition CompareAndSwap (k : K) (old new : ptr) : M KVMap bool :=
  rd ← loadReadOnly;
  match m rd !! k with
  | Some e => liftE (entry.tryCompareAndSwap e old new)
  | None =>
      if negb (amended rd) then mret false
      else
        rd ← loadReadOnly;
        match m rd !! k with
        | Some e => liftE (entry.tryCompareAndSwap e old new)
        | None =>
            eo ← dirty_lookup k;
            match eo with
            | Some e =>
                swapped ← liftE (entry.tryCompareAndSwap e old new);
                _ ← missLocked;
                mret swapped
            | None => mret false
            end
        end
  end.

(** [for ok { ... }] on the cell found. *)
Fixpoint CompareAndDelete_loop (n : nat) (e : loc) (old : ptr) : M (gmap loc ptr) bool :=
  match n with
  | 0 => spin
  | S n =>
      p ← entry.p_Load e;
      if decide (p = pnil ∨ p = expunged ∨ p ≠ old) then mret false
      else
        b ← entry.p_CompareAndSwap e p pnil;
        if b : bool then mret true else CompareAndDelete_loop n e old
  end.

Definition CompareAndDelete (k : K) (old : ptr) : M KVMap bool :=
  rd ← loadReadOnly;
  let eo := m rd !! k in
  eo ← (if negb (bool_decide (is_Some eo)) && amended rd then
          rd ← loadReadOnly;
          let eo := m rd !! k in
          if negb (bool_decide (is_Some eo)) && amended rd then
            eo ← dirty_lookup k;
            _ ← missLocked;
            mret eo
          else mret eo
        else mret eo);
  match eo with
  | Some e => liftE (CompareAndDelete_loop attempts e old)
  | None => mret false
  end.

(** The loop of [Range] over the pairs in the order they are met; the result
    lists the calls made to [f], in order. *)
Fixpoint Range_loop (f : visitor K) (seen : list (K * ptr)) (kes : list (K * loc))
    : M KVMap (list (K * ptr)) :=
  match kes with
  | [] => mret seen
  | (k, e) :: rest =>
      '(v, ok) ← liftE (entry.load e);
      if ok : bool then
        if f seen k v then Range_loop f (seen ++ [(k, v)]) rest
        else mret (seen ++ [(k, v)])
      else Range_loop f seen rest
  end.

(** The part of [Range] before the loop: the snapshot to iterate. *)
Definition Range_read : M KVMap kvreadOnly :=
  rd ← loadReadOnly;
  if amended rd then
    rd ← loadReadOnly;
    if amended rd then
      d ← dirty_get;
      let rd := mkKvReadOnly (as_map d) false in
      _ ← read_Store rd;
      _ ← dirty_set None;
      _ ← misses_set 0;
      mret rd
    else mret rd
  else mret rd.

(** [order] is the order in which [range read.m] meets the pairs of the
    map, which Go leaves open. *)
Definition Range_in (order : gmap K loc → list (K * loc)) (f : visitor K)
    : M KVMap (list (K * ptr)) :=
  rd ← Range_read;
  Range_loop f [] (order (m rd)).

Definition Range (f : visitor K) : M KVMap (list (K * ptr)) :=
  Range_in map_to_list f.

(** *** Runs of calls *)

Definition exec (o : op K) : M KVMap (res K T) :=
  match o with
  | OLoad k => '(v, ok) ← Load k; mret (RPtr v ok)
  | OStore k v => _ ← Store k v; mret RUnit
  | OLoadOrStore k v => '(a, loaded) ← LoadOrStore k v; mret (RAny a loaded)
  | OLoadAndDelete k => '(v, ok) ← LoadAndDelete k; mret (RPtr v ok)
  | ODelete k => _ ← Delete k; mret RUnit
  | OSwap k v => '(p, loaded) ← Swap k v; mret (RPtr p loaded)
  | OCompareAndSwap k old new => b ← CompareAndSwap k old new; mret (RBool b)
  | OCompareAndDelete k old => b ← CompareAndDelete k old; mret (RBool b)
  | ORange f => calls ← Range f; mret (RCalls calls)
  | OClear => _ ← Clear; mret RUnit
  end.

Fixpoint run (os : list (op K)) : M KVMap (list (res K T)) :=
  match os with
  | [] => mret []
  | o :: os => r ← exec o; rs ← run os; mret (r :: rs)
  end.

End KVMap.
End KVMap.

(** ** KVMap against VMap *)

(** Keys that are all drawn from one comparable type [K] compare, as [any]
    values, exactly as they do in [K]: on such keys the key space of a
    [VMap] is [K], and a [KVMap[K, V]] state reads as a [VMap[V]] state. *)

Section conv.
Context {K : Type} `{Countable K}.

Definition conv_ro (r : KVMap.kvreadOnly (K:=K)) : VMap.readOnly (key:=K) :=
  VMap.mkReadOnly (KVMap.m r) (KVMap.amended r).

Definition conv (s : KVMap.KVMap (K:=K)) : VMap.VMap (key:=K) :=
  VMap.mkVMap (KVMap.cells s) (conv_ro <$> KVMap.read s) (KVMap.dirty s) (KVMap.misses s).

(** Two runs, one on each container, from states that read the same: they
    fail alike, or return results related by [R] in states that read the same. *)
Definition sim {A B} (R : A → B → Prop)
    (c1 : M (KVMap.KVMap (K:=K)) A) (c2 : M (VMap.VMap (key:=K)) B) : Prop :=
  ∀ s, match c1 s, c2 (conv s) with
       | Ok a s1, Ok b s2 => R a b ∧ s2 = conv s1
       | Panic, Panic => True
       | Spin, Spin => True
       | _, _ => False
       end.

End conv.

(** ** A plain map *)

(** What the two containers stand for: a Go [map[K]*T] used by one goroutine
    at a time.  A nil pointer is never kept: storing nil removes the key.
    [LoadOrStore] answers a key that is present with the value pointed to,
    boxed, as [tryLoadOrStore] does.  [Range] may meet the pairs in any
    order. *)

Section plain.
Context {K : Type} `{Countable K} {T : Type} (deref : addr → T).

Definition plain_get (mp : gmap K addr) (k : K) : ptr * bool :=
  match mp !! k with
  | Some a => (ref a, true)
  | None => (pnil, false)
  end.

Definition plain_put (k : K) (v : ptr) (mp : gmap K addr) : gmap K addr :=
  match v with
  | ref a => <[k:=a]> mp
  | _ => delete k mp
  end.

(** The calls that a [Range] over the pairs [l] makes to [f]. *)
Fixpoint plain_visit (f : visitor K) (seen : list (K * ptr)) (l : list (K * addr))
    : list (K * ptr) :=
  match l with
  | [] => seen
  | (k, a) :: l =>
      if f seen k (ref a) then plain_visit f (seen ++ [(k, ref a)]) l
      else seen ++ [(k, ref a)]
  end.

(** The call [o] on the map [mp] may return [r] and leave [mp']. *)
Definition plain_call (o : op K) (mp : gmap K addr) (r : res K T) (mp' : gmap K addr) : Prop :=
  match o with
  | OLoad k => r = RPtr (plain_get mp k).1 (plain_get mp k).2 ∧ mp' = mp
  | OStore k v => r = RUnit ∧ mp' = plain_put k v mp
  | OLoadOrStore k v =>
      match mp !! k with
      | Some a => r = RAny (any_val (deref a)) true ∧ mp' = mp
      | None => r = RAny (any_ptr v) false ∧ mp' = plain_put k v mp
      end
  | OLoadAndDelete k => r = RPtr (plain_get mp k).1 (plain_get mp k).2 ∧ mp' = delete k mp
  | ODelete k => r = RUnit ∧ mp' = delete k mp
  | OSwap k v => r = RPtr (plain_get mp k).1 (plain_get mp k).2 ∧ mp' = plain_put k v mp
  | OCompareAndSwap k old new =>
      if decide (plain_get mp k = (old, true))
      then r = RBool true ∧ mp' = plain_put k new mp
      else r = RBool false ∧ mp' = mp
  | OCompareAndDelete k old =>
      if decide (plain_get mp k = (old, true))
      then r = RBool true ∧ mp' = delete k mp
      else r = RBool false ∧ mp' = mp
  | ORange f => mp' = mp ∧ ∃ l, l ≡ₚ map_to_list mp ∧ r = RCalls (plain_visit f [] l)
  | OClear => r = RUnit ∧ mp' = ∅
  end.

(** The calls [os] from the map [mp] may return [rs] and leave [mp']. *)
Fixpoint plain_run (os : list (op K)) (mp : gmap K addr) (rs : list (res K T))
    (mp' : gmap K addr) : Prop :=
  match os, rs with
  | [], [] => mp' = mp
  | o :: os, r :: rs => ∃ mp1, plain_call o mp r mp1 ∧ plain_run os mp1 rs mp'
  | _, _ => False
  end.

End plain.

(** ** Sample runs *)

(** A caller's memory: the value at address [a] is [100 + a]. *)
Definition deref0 : addr → nat := λ a, 100 + a.

(** A caller's memory for a [VMap[any]]: the pointees are interface
    values, [None] the nil interface; the value at address 10 is nil, the
    value at any other address [a] holds [a]. *)
Definition deref_any : addr → option nat := λ a, if decide (a = 10) then None else Some a.

(** The nil value of that interface type. *)
Definition nil_any : option nat → bool := λ t, bool_decide (t = None).

(** The state of a [VMap] with [nat] keys after the calls [os]. *)
Definition after (os : list (op nat)) : VMap.VMap (key:=nat) :=
  match VMap.run deref0 os VMap.zero with
  | Ok _ s => s
  | _ => VMap.zero
  end.

(** Key 1 is live in the snapshot. *)
Definition calls_live : list (op nat) := [OStore 1 (ref 10); OLoad 1].

(** Key 1 is in the dirty map only. *)
Definition calls_dirty : list (op nat) := [OStore 1 (ref 10)].

(** Key 1 was deleted and its cell expunged by the rebuild that the store
    of key 2 caused. *)
Definition calls_expunged : list (op nat) :=
  [OStore 1 (ref 10); OLoad 1; ODelete 1; OStore 2 (ref 20)].

(** One goroutine on an entry that holds [ref 1] while others store
    [ref 2] and then [ref 1] again. *)
Definition world_busy : racing.world :=
  racing.mkWorld (ref 1) [Some (ref 2); None; Some (ref 1)] [].

(** * Properties *)

(** ** The entry methods in closed form *)

Ltac unfold_M :=
  unfold mbind, mret, M_bind, M_ret, spin, entry.p_Load, entry.p_Store, entry.p_Swap,
    entry.p_CompareAndSwap in *.

Section entry_facts.
Implicit Types (h : gmap loc ptr) (e : loc) (p i old new : ptr).

Lemma load_eq e h :
  entry.load e h =
  Ok (match h !!! e with ref a => (ref a, true) | _ => (pnil, false) end) h.
Proof.
  unfold entry.load; unfold_M.
  destruct (h !!! e) eqn:E; case_decide; naive_solver.
Qed.

Lemma tryCompareAndSwap_loop_eq n e old nc h :
  entry.tryCompareAndSwap_loop (S n) e old nc (h !!! e) h = Ok true (<[e:=nc]> h).
Proof. simpl; unfold_M. by rewrite decide_True. Qed.

Lemma tryCompareAndSwap_eq e old new h :
  entry.tryCompareAndSwap e old new h =
  if decide (h !!! e = old ∧ old ≠ pnil ∧ old ≠ expunged)
  then Ok true (<[e:=new]> h) else Ok false h.
Proof.
  unfold entry.tryCompareAndSwap, attempts.
  unfold mbind at 1; unfold M_bind at 1; unfold entry.p_Load at 1.
  case_decide as Hc.
  - rewrite decide_False; [done|]. intros (<- & ? & ?). naive_solver.
  - rewrite tryCompareAndSwap_loop_eq.
    rewrite decide_True; [done|].
    destruct (decide (h !!! e = old)); naive_solver.
Qed.

Lemma unexpungeLocked_eq e h :
  entry.unexpungeLocked e h =
  if decide (h !!! e = expunged) then Ok true (<[e:=pnil]> h) else Ok false h.
Proof. done. Qed.

Lemma swapLocked_eq e i h :
  entry.swapLocked e i h = Ok (h !!! e) (<[e:=i]> h).
Proof. done. Qed.

Lemma delete_loop_eq n e h :
  entry.delete_loop (S n) e h =
  match h !!! e with
  | ref a => Ok (ref a, true) (<[e:=pnil]> h)
  | _ => Ok (pnil, false) h
  end.
Proof.
  simpl; unfold_M.
  destruct (h !!! e) eqn:E; case_decide; try naive_solver.
  by rewrite decide_True.
Qed.

Lemma delete_eq e h :
  entry.delete e h =
  match h !!! e with
  | ref a => Ok (ref a, true) (<[e:=pnil]> h)
  | _ => Ok (pnil, false) h
  end.
Proof. apply delete_loop_eq. Qed.

Lemma trySwap_loop_eq n e i h :
  entry.trySwap_loop (S n) e i h =
  if decide (h !!! e = expunged) then Ok (pnil, false) h
  else Ok (h !!! e, true) (<[e:=i]> h).
Proof.
  simpl; unfold_M. case_decide; [done|]. by rewrite decide_True.
Qed.

Lemma trySwap_eq e i h :
  entry.trySwap e i h =
  if decide (h !!! e = expunged) then Ok (pnil, false) h
  else Ok (h !!! e, true) (<[e:=i]> h).
Proof. apply trySwap_loop_eq. Qed.

Lemma tryExpungeLocked_loop_eq n e h :
  entry.tryExpungeLocked_loop (S n) e (h !!! e) h =
  match h !!! e with
  | pnil => Ok true (<[e:=expunged]> h)
  | expunged => Ok true h
  | ref _ => Ok false h
  end.
Proof.
  simpl; unfold_M.
  destruct (h !!! e) eqn:E; simpl; try done.
  by rewrite decide_True.
Qed.

Lemma tryExpungeLocked_eq e h :
  entry.tryExpungeLocked e h =
  match h !!! e with
  | pnil => Ok true (<[e:=expunged]> h)
  | expunged => Ok true h
  | ref _ => Ok false h
  end.
Proof. apply tryExpungeLocked_loop_eq. Qed.

Lemma newEntry_eq i h :
  entry.newEntry i h = Ok (fresh (dom h)) (<[fresh (dom h):=i]> h).
Proof.
  unfold entry.newEntry, entry.alloc; unfold_M. by rewrite insert_insert_eq.
Qed.

End entry_facts.

Section entry_facts_any.
Context {T : Type} (deref : addr → T).
Implicit Types (h : gmap loc ptr) (e : loc) (p i old new : ptr).

Lemma tryLoadOrStore_loop_eq n e i ic h :
  h !!! e = pnil →
  entry.tryLoadOrStore_loop deref (S n) e i ic h = Ok (any_ptr i, false, true) (<[e:=ic]> h).
Proof. intros E. simpl; unfold_M. by rewrite decide_True. Qed.

Lemma tryLoadOrStore_eq e i h :
  entry.tryLoadOrStore deref e i h =
  match h !!! e with
  | pnil => Ok (any_ptr i, false, true) (<[e:=i]> h)
  | expunged => Ok (any_nil, false, false) h
  | ref a => Ok (any_val (deref a), true, true) h
  end.
Proof.
  unfold entry.tryLoadOrStore, attempts.
  unfold mbind at 1; unfold M_bind at 1; unfold entry.p_Load at 1.
  destruct (h !!! e) eqn:E; try done.
  by apply tryLoadOrStore_loop_eq.
Qed.

End entry_facts_any.

(** ** The VMap methods in closed form *)

Lemma CompareAndDelete_loop_eq n e old (h : gmap loc ptr) :
  VMap.CompareAndDelete_loop (S n) e old h =
  if decide (VMap.holds old (h !!! e)) then Ok true (<[e:=pnil]> h) else Ok false h.
Proof.
  unfold VMap.holds. simpl; unfold_M. case_decide as Hc.
  - rewrite decide_False; [done|]. naive_solver.
  - rewrite decide_True by done. rewrite decide_True; [done|].
    destruct (decide (h !!! e = old)); naive_solver.
Qed.

Arguments VMap.CompareAndDelete_loop : simpl never.
Arguments entry.load : simpl never.
Arguments entry.delete : simpl never.
Arguments entry.trySwap : simpl never.
Arguments entry.tryCompareAndSwap : simpl never.
Arguments entry.tryLoadOrStore : simpl never.
Arguments entry.tryExpungeLocked : simpl never.
Arguments entry.unexpungeLocked : simpl never.
Arguments entry.swapLocked : simpl never.
Arguments entry.newEntry : simpl never.
Arguments VMap.missLocked : simpl never.
Arguments VMap.dirtyLocked : simpl never.
Arguments VMap.amend : simpl never.

Ltac unfold_V :=
  unfold VMap.liftE, VMap.read_Store, VMap.dirty_lookup, VMap.dirty_assign,
    VMap.dirty_delete, VMap.dirty_clear, VMap.dirty_set, VMap.dirty_get,
    VMap.dirty_len, VMap.misses_set, VMap.misses_get, VMap.loadReadOnly in *;
  unfold_M.

Section VMap_facts.
Import VMap.
Context {key : Type} `{Countable key}.
Implicit Types (s : VMap (key:=key)) (k : key) (e : loc) (v old new : ptr).

Lemma missLocked_eq s : missLocked s = Ok tt (missed s).
Proof.
  destruct s as [h r d ms]. unfold missLocked, missed, promoted; unfold_V; cbn.
  by case_decide.
Qed.

Lemma cells_missed s : cells (missed s) = cells s.
Proof. unfold missed, promoted. by case_decide. Qed.

Lemma eta s : mkVMap (cells s) (read s) (dirty s) (misses s) = s.
Proof. by destruct s. Qed.

Lemma liftE_load e s : liftE (entry.load e) s = Ok (loaded (cells s !!! e)) s.
Proof. destruct s. unfold liftE. by rewrite load_eq. Qed.

Lemma Load_eq k s :
  Load k s =
  match m (snapshot s) !! k with
  | Some e => Ok (loaded (cells s !!! e)) s
  | None =>
      if amended (snapshot s)
      then Ok (from_option (λ e, loaded (cells s !!! e)) (pnil, false) (overlay s k)) (missed s)
      else Ok (pnil, false) s
  end.
Proof.
  destruct s as [h [[rm am]|] d ms]; unfold Load, snapshot, overlay; unfold_V; cbn;
    [|by rewrite lookup_empty].
  destruct (rm !! k) as [e|] eqn:E; cbn.
  - by rewrite load_eq.
  - destruct am; cbn; [|done]. rewrite E; cbn. rewrite missLocked_eq.
    destruct (option_bind _ _ _ d) as [e|]; cbn; [|done].
    by rewrite load_eq, eta, cells_missed.
Qed.

Lemma LoadAndDelete_eq k s :
  LoadAndDelete k s =
  match m (snapshot s) !! k with
  | Some e => Ok (loaded (cells s !!! e)) (del_cell e s)
  | None =>
      if amended (snapshot s)
      then match overlay s k with
           | Some e => Ok (loaded (cells s !!! e)) (del_cell e (missed (drop k s)))
           | None => Ok (pnil, false) (missed (drop k s))
           end
      else Ok (pnil, false) s
  end.
Proof.
  destruct s as [h [[rm am]|] d ms]; unfold LoadAndDelete, snapshot, overlay; unfold_V; cbn;
    [|by rewrite lookup_empty].
  destruct (rm !! k) as [e|] eqn:E; cbn.
  - rewrite delete_eq. unfold del_cell, set_cell; cbn. by destruct (h !!! e).
  - destruct am; cbn; [|done]. rewrite E; cbn. rewrite missLocked_eq.
    fold (drop k (mkVMap h (Some (mkReadOnly rm true)) d ms)).
    destruct (option_bind _ _ _ d) as [e|]; cbn; [|done].
    rewrite delete_eq. unfold del_cell, set_cell.
    set (s1 := missed _). assert (cells s1 = h) as Hc by apply cells_missed.
    rewrite Hc. clearbody s1. destruct s1; cbn in *; subst. by destruct (_ !!! e).
Qed.

Lemma CompareAndSwap_eq k old new s :
  CompareAndSwap k old new s =
  match m (snapshot s) !! k with
  | Some e =>
      if decide (holds old (cells s !!! e)) then Ok true (set_cell e new s) else Ok false s
  | None =>
      if amended (snapshot s)
      then match overlay s k with
           | Some e =>
               if decide (holds old (cells s !!! e))
               then Ok true (missed (set_cell e new s)) else Ok false (missed s)
           | None => Ok false s
           end
      else Ok false s
  end.
Proof.
  destruct s as [h [[rm am]|] d ms]; unfold CompareAndSwap, snapshot, overlay; unfold_V; cbn;
    [|by rewrite lookup_empty].
  destruct (rm !! k) as [e|] eqn:E; cbn.
  - rewrite tryCompareAndSwap_eq. unfold holds. by case_decide.
  - destruct am; cbn; [|done]. rewrite E; cbn.
    destruct (option_bind _ _ _ d) as [e|]; cbn; [|done].
    rewrite tryCompareAndSwap_eq. unfold holds. case_decide; by rewrite missLocked_eq.
Qed.

Lemma CompareAndDelete_eq k old s :
  CompareAndDelete k old s =
  match m (snapshot s) !! k with
  | Some e =>
      if decide (holds old (cells s !!! e)) then Ok true (set_cell e pnil s) else Ok false s
  | None =>
      if amended (snapshot s)
      then match overlay s k with
           | Some e =>
               if decide (holds old (cells s !!! e))
               then Ok true (set_cell e pnil (missed s)) else Ok false (missed s)
           | None => Ok false (missed s)
           end
      else Ok false s
  end.
Proof.
  destruct s as [h [[rm am]|] d ms]; unfold CompareAndDelete, snapshot, overlay, attempts;
    unfold_V; cbn; [|by rewrite lookup_empty].
  destruct (rm !! k) as [e|] eqn:E; cbn.
  - rewrite CompareAndDelete_loop_eq. by case_decide.
  - destruct am; cbn; [|done]. rewrite E; cbn. rewrite missLocked_eq.
    destruct (option_bind _ _ _ d) as [e|]; cbn; [|done].
    rewrite CompareAndDelete_loop_eq. unfold set_cell.
    set (s1 := missed _). assert (cells s1 = h) as Hc by apply cells_missed.
    rewrite Hc. clearbody s1. destruct s1; cbn in *; subst. by case_decide.
Qed.

Lemma Clear_eq s :
  Clear s =
  if bool_decide (size (m (snapshot s)) = 0) && negb (amended (snapshot s)) then Ok tt s
  else Ok tt (mkVMap (cells s) (Some (mkReadOnly ∅ false)) ((λ _, ∅) <$> dirty s) 0).
Proof.
  destruct s as [h [[rm am]|] d ms]; unfold Clear, snapshot; unfold_V; cbn.
  - destruct am; repeat (case_bool_decide; cbn); try done; lia.
  - rewrite map_size_empty. done.
Qed.

Lemma Range_read_eq s :
  Range_read s =
  if amended (snapshot s) then Ok (mkReadOnly (as_map (dirty s)) false) (promoted s)
  else Ok (snapshot s) s.
Proof.
  destruct s as [h [[rm am]|] d ms]; unfold Range_read, snapshot, promoted; unfold_V; cbn; [|done].
  by destruct am.
Qed.

Lemma for_range_expunge (l : list (key * loc)) : ∀ (h0 : gmap loc ptr) (d0 : gmap key loc) r ms,
  NoDup l.*1 →
  ∃ h' d',
    for_range (λ k e, b ← liftE (entry.tryExpungeLocked e);
                      if b : bool then mret tt else dirty_assign k e) l
      (mkVMap h0 r (Some d0) ms) = Ok tt (mkVMap h' r (Some d') ms) ∧
    (∀ e, h' !!! e = if decide (e ∈ l.*2 ∧ h0 !!! e = pnil) then expunged else h0 !!! e) ∧
    (∀ k, d' !! k = match (list_to_map l : gmap key loc) !! k with
                    | Some e => if decide (h' !!! e = expunged) then d0 !! k else Some e
                    | None => d0 !! k
                    end) ∧
    dom h0 ⊆ dom h'.
Proof.
  induction l as [|[k e] l IH]; intros h0 d0 r ms Hnd.
  - exists h0, d0. split; [done|]. split; [|split; [|done]].
    + intros e. rewrite decide_False; [done|]. intros [? _]. set_solver.
    + intros k. cbn. by rewrite lookup_empty.
  - apply NoDup_cons in Hnd as [Hk Hnd].
    assert ((list_to_map l : gmap key loc) !! k = None) as Hlk
      by by apply not_elem_of_list_to_map_1.
    cbn [for_range]. unfold_V. cbn. rewrite tryExpungeLocked_eq.
    destruct (h0 !!! e) eqn:E; cbn.
    + destruct (IH (<[e:=expunged]> h0) d0 r ms Hnd) as (h' & d' & -> & Hh & Hd & Hdom).
      exists h', d'. split; [done|]. split; [|split].
      * intros e'. rewrite Hh. destruct (decide (e' = e)) as [->|Hne].
        -- rewrite lookup_total_insert_eq. rewrite decide_False by naive_solver.
           rewrite decide_True; [done|]. split; [|done]. set_solver.
        -- rewrite lookup_total_insert_ne by done.
           repeat case_decide; try done; set_solver.
      * intros k'. rewrite Hd. cbn. destruct (decide (k' = k)) as [->|Hne].
        -- rewrite lookup_insert_eq, Hlk. rewrite decide_True; [done|].
           rewrite Hh, lookup_total_insert_eq. by case_decide.
        -- by rewrite lookup_insert_ne.
      * etrans; [|done]. set_solver.
    + destruct (IH h0 d0 r ms Hnd) as (h' & d' & -> & Hh & Hd & Hdom).
      exists h', d'. split; [done|]. split; [|split; [|done]].
      * intros e'. rewrite Hh. destruct (decide (e' = e)) as [->|Hne].
        -- rewrite E. repeat case_decide; naive_solver.
        -- repeat case_decide; try done; set_solver.
      * intros k'. rewrite Hd. cbn. destruct (decide (k' = k)) as [->|Hne].
        -- rewrite lookup_insert_eq, Hlk. rewrite decide_True; [done|].
           rewrite Hh, E. by case_decide.
        -- by rewrite lookup_insert_ne.
    + destruct (IH h0 (<[k:=e]> d0) r ms Hnd) as (h' & d' & -> & Hh & Hd & Hdom).
      exists h', d'. split; [done|]. split; [|split; [|done]].
      * intros e'. rewrite Hh. destruct (decide (e' = e)) as [->|Hne].
        -- rewrite E. repeat case_decide; naive_solver.
        -- repeat case_decide; try done; set_solver.
      * intros k'. rewrite Hd. cbn. destruct (decide (k' = k)) as [->|Hne].
        -- rewrite lookup_insert_eq, Hlk, lookup_insert_eq. rewrite decide_False; [done|].
           rewrite Hh, E. case_decide; naive_solver.
        -- by rewrite !lookup_insert_ne.
Qed.

Lemma dirtyLocked_Some s d : dirty s = Some d → dirtyLocked s = Ok tt s.
Proof. destruct s as [h r d0 ms]; cbn. intros ->. done. Qed.

Lemma dirtyLocked_None s :
  dirty s = None →
  ∃ h' d',
    dirtyLocked s = Ok tt (mkVMap h' (read s) (Some d') (misses s)) ∧
    (∀ e, h' !!! e =
          if decide (e ∈ (map_img (m (snapshot s)) : gset loc) ∧ cells s !!! e = pnil)
          then expunged else cells s !!! e) ∧
    (∀ k, d' !! k = match m (snapshot s) !! k with
                    | Some e => if decide (h' !!! e = expunged) then None else Some e
                    | None => None
                    end) ∧
    dom (cells s) ⊆ dom h'.
Proof.
  destruct s as [h r d ms]; cbn. intros ->.
  set (rm := m (snapshot (mkVMap h r None ms))).
  destruct (for_range_expunge (map_to_list rm) h ∅ r ms) as (h' & d' & Hrun & Hh & Hd & Hdom).
  { apply NoDup_fst_map_to_list. }
  exists h', d'. split; [|split; [|split; [|done]]].
  - unfold dirtyLocked. unfold_V. cbn. destruct r as [[rm' am]|]; cbn; apply Hrun.
  - intros e. rewrite Hh.
    assert (e ∈ (map_to_list rm).*2 ↔ e ∈ (map_img rm : gset loc)) as Hiff.
    { rewrite elem_of_map_img, list_elem_of_fmap. split.
      - intros ([k e'] & -> & Hin). exists k. by apply elem_of_map_to_list.
      - intros (k & Hk). exists (k, e). split; [done|]. by apply elem_of_map_to_list. }
    repeat case_decide; naive_solver.
  - intros k. rewrite Hd, list_to_map_to_list, lookup_empty. done.
Qed.

Lemma amend_eq s :
  amend (snapshot s) s =
  if amended (snapshot s) then Ok tt s
  else match dirtyLocked s with
       | Ok _ s1 =>
           Ok tt (mkVMap (cells s1) (Some (mkReadOnly (m (snapshot s)) true)) (dirty s1) (misses s1))
       | Panic => Panic
       | Spin => Spin
       end.
Proof.
  unfold amend. destruct (amended (snapshot s)); [done|].
  unfold_V. by destruct (dirtyLocked s).
Qed.

(** [Swap] case by case; the last case is the locked path for a key in
    neither map, after [amend]. *)
Lemma Swap_eq k v s :
  Swap k v s =
  match m (snapshot s) !! k with
  | Some e =>
      if decide (cells s !!! e = expunged)
      then (if dirty s is Some _ then Ok (pnil, false) (set_cell e v (register k e s)) else Panic)
      else Ok (swapped (cells s !!! e)) (set_cell e v s)
  | None =>
      match overlay s k with
      | Some e => Ok (swapped (cells s !!! e)) (set_cell e v s)
      | None =>
          match amend (snapshot s) s with
          | Ok _ s1 =>
              let e := fresh (dom (cells s1)) in
              if dirty s1 is Some _ then Ok (pnil, false) (register k e (set_cell e v s1)) else Panic
          | Panic => Panic
          | Spin => Spin
          end
      end
  end.
Proof.
  unfold Swap.
  unfold mbind at 1; unfold M_bind at 1.
  replace (loadReadOnly s) with (Ok (snapshot s) s) by by destruct s as [? [] ? ?].
  destruct (m (snapshot s) !! k) as [e|] eqn:E.
  - destruct s as [h r d ms]. unfold snapshot, swapped, set_cell, register in *. unfold_V. cbn in *.
    rewrite trySwap_eq. case_decide as Hc; cbn.
    + destruct r as [[rm am]|]; cbn in *; [|by rewrite lookup_empty in E].
      rewrite E. cbn. rewrite unexpungeLocked_eq, decide_True by done. cbn.
      destruct d; cbn; [|done]. rewrite swapLocked_eq, lookup_total_insert_eq, insert_insert_eq. cbn.
      rewrite decide_False by naive_solver. done.
    + by case_decide.
  - unfold mbind at 1; unfold M_bind at 1. unfold mret at 1; unfold M_ret at 1.
    unfold mbind at 1; unfold M_bind at 1.
    replace (loadReadOnly s) with (Ok (snapshot s) s) by by destruct s as [? [] ? ?].
    rewrite E.
    unfold mbind at 1; unfold M_bind at 1. unfold dirty_lookup at 1. fold (overlay s k).
    destruct (overlay s k) as [e|] eqn:O.
    + destruct s as [h r d ms]. unfold swapped, set_cell. unfold_V. cbn.
      rewrite swapLocked_eq. cbn. repeat case_decide; naive_solver.
    + unfold mbind at 1; unfold M_bind at 1.
      destruct (amend (snapshot s) s) as [[] s1| |]; [|done..].
      destruct s1 as [h1 r1 d1 ms1]. unfold register, set_cell. unfold_V. cbn.
      rewrite newEntry_eq. cbn. by destruct d1.
Qed.

(** ** The invariant *)

Lemma wf_zero : wf (zero (key:=key)).
Proof. split; cbn; intros; try done; try naive_solver. Qed.

Lemma wf_misses s ms : wf s → wf (mkVMap (cells s) (read s) (dirty s) ms).
Proof. intros [W1 W2 W3 W4 W5 W6 W7 W8]; by split. Qed.

Lemma wf_set_cell e v s :
  wf s → cells s !!! e ≠ expunged → v ≠ expunged → wf (set_cell e v s).
Proof.
  intros [W1 W2 W3 W4 W5 W6 W7 W8] Hc Hv.
  split; unfold set_cell, snapshot, overlay in *; cbn in *; try done.
  - intros k e' Hk. destruct (decide (e' = e)) as [->|Hne].
    + by rewrite lookup_total_insert_eq.
    + rewrite lookup_total_insert_ne by done. eauto.
  - intros k e' Hk. destruct (decide (e' = e)) as [->|Hne].
    + by rewrite lookup_total_insert_eq.
    + rewrite lookup_total_insert_ne by done. eauto.
  - intros k e' Hd Hk. destruct (decide (e' = e)) as [->|Hne].
    + intros _. eauto.
    + rewrite lookup_total_insert_ne by done. eauto.
  - intros k e' Hk. rewrite dom_insert_L. apply elem_of_union_r. eauto.
Qed.

Lemma wf_promoted s : wf s → amended (snapshot s) = true → wf (promoted s).
Proof.
  intros [W1 W2 W3 W4 W5 W6 W7 W8] Ha. destruct (W1 Ha) as [d Hd].
  split; unfold promoted, snapshot, overlay, as_map in *; cbn in *; rewrite ?Hd in *; cbn in *;
    try done; naive_solver.
Qed.

Lemma wf_missed s : wf s → amended (snapshot s) = true → wf (missed s).
Proof.
  intros Hwf Ha. unfold missed. case_decide.
  - by apply wf_misses.
  - by apply wf_promoted.
Qed.

Lemma wf_drop k s : wf s → m (snapshot s) !! k = None → wf (drop k s).
Proof.
  intros [W1 W2 W3 W4 W5 W6 W7 W8] Hk.
  split; unfold drop, snapshot, overlay in *; cbn in *; try done.
  - intros Ha. destruct (W1 Ha) as [d ->]. by eexists.
  - intros k' e Hk' He. destruct (W2 _ _ Hk' He) as [? Ho]. split; [done|].
    destruct (dirty s) as [d|]; cbn in *; [|done].
    destruct (decide (k' = k)) as [->|]; [by rewrite lookup_delete_eq|].
    by rewrite lookup_delete_ne.
  - intros k' e Hk'. apply (W3 k').
    destruct (dirty s) as [d|]; cbn in *; [|done].
    apply lookup_delete_Some in Hk'. naive_solver.
  - intros k' e Hd Hk' He. destruct (dirty s) as [d|] eqn:Ed; cbn in *; [|by destruct Hd].
    assert (k' ≠ k) by congruence. rewrite lookup_delete_ne by done.
    apply (W4 k' e); eauto.
  - intros Ha k'. specialize (W5 Ha k'). destruct (dirty s) as [d|]; cbn in *; [|done].
    apply lookup_delete_None. eauto.
  - intros k' e [Hk'|Hk']; [eauto|]. apply (W6 k'). right.
    destruct (dirty s) as [d|]; cbn in *; [|done].
    apply lookup_delete_Some in Hk'. naive_solver.
  - intros k1 k2 e H1 H2. apply (W8 k1 k2 e);
      destruct (dirty s) as [d|]; cbn in *; try done.
    + apply lookup_delete_Some in H1. naive_solver.
    + apply lookup_delete_Some in H2. naive_solver.
Qed.

Lemma wf_unexpunge k e v s :
  wf s → m (snapshot s) !! k = Some e → cells s !!! e = expunged → v ≠ expunged →
  wf (set_cell e v (register k e s)).
Proof.
  intros [W1 W2 W3 W4 W5 W6 W7 W8] Hk He Hv.
  destruct (W2 _ _ Hk He) as [Ha Ho]. destruct (W1 Ha) as [d Hd].
  assert (∀ k', d !! k' ≠ Some e) as Hfresh.
  { intros k' Hk'. eapply (W3 k' e); [|done]. unfold overlay. by rewrite Hd. }
  split; unfold set_cell, register, snapshot, overlay in *; cbn in *; rewrite ?Hd in *;
    cbn in *; try done.
  - intros k' e' Hk' He'. split; [done|].
    destruct (decide (e' = e)) as [->|Hne]; [by rewrite lookup_total_insert_eq in He'|].
    rewrite lookup_total_insert_ne in He' by done.
    destruct (decide (k' = k)) as [->|]; [congruence|].
    rewrite lookup_insert_ne by done. by eapply W2.
  - intros k' e' Hk'. destruct (decide (e' = e)) as [->|Hne].
    + by rewrite lookup_total_insert_eq.
    + rewrite lookup_total_insert_ne by done.
      apply lookup_insert_Some in Hk' as [[_ ?]|[_ Hk']]; [congruence|]. by eapply W3.
  - intros k' e' _ Hk' He'. destruct (decide (k' = k)) as [->|Hnk].
    + rewrite lookup_insert_eq. congruence.
    + rewrite lookup_insert_ne by done.
      destruct (decide (e' = e)) as [->|Hne]; [by specialize (W7 _ _ _ Hk Hk')|].
      rewrite lookup_total_insert_ne in He' by done. eauto.
  - congruence.
  - intros k' e' Hk'. rewrite dom_insert_L. apply elem_of_union_r.
    destruct Hk' as [Hk'|Hk']; [eauto|].
    apply lookup_insert_Some in Hk' as [[_ <-]|[_ Hk']]; eauto.
  - intros k1 k2 e' H1 H2.
    apply lookup_insert_Some in H1 as [[<- <-]|[? H1]];
      apply lookup_insert_Some in H2 as [[<- ?]|[? H2]]; subst; try done.
    + by destruct (Hfresh k2).
    + by destruct (Hfresh k1).
    + eauto.
Qed.

Lemma wf_new k v s :
  wf s → amended (snapshot s) = true → m (snapshot s) !! k = None → overlay s k = None →
  v ≠ expunged →
  wf (register k (fresh (dom (cells s))) (set_cell (fresh (dom (cells s))) v s)).
Proof.
  intros [W1 W2 W3 W4 W5 W6 W7 W8] Ha Hk Ho Hv.
  destruct (W1 Ha) as [d Hd].
  set (e := fresh (dom (cells s))).
  assert (e ∉ dom (cells s)) as Hfresh by apply is_fresh.
  assert (∀ k' e', m (snapshot s) !! k' = Some e' ∨ d !! k' = Some e' → e' ≠ e) as Hne.
  { intros k' e' Hk' ->. apply Hfresh, (W6 k'). unfold overlay. by rewrite Hd. }
  split; unfold set_cell, register, snapshot, overlay in *; cbn in *; rewrite ?Hd in *;
    cbn in *; try done.
  - intros k' e' Hk' He'. split; [done|].
    rewrite lookup_total_insert_ne in He' by (symmetry; eauto).
    rewrite lookup_insert_ne by congruence. by eapply W2.
  - intros k' e' Hk'. apply lookup_insert_Some in Hk' as [[_ <-]|[_ Hk']].
    + by rewrite lookup_total_insert_eq.
    + rewrite lookup_total_insert_ne by (symmetry; eauto). by eapply W3.
  - intros k' e' _ Hk' He'.
    rewrite lookup_total_insert_ne in He' by (symmetry; eauto).
    rewrite lookup_insert_ne by congruence. eauto.
  - congruence.
  - intros k' e' Hk'. rewrite dom_insert_L.
    destruct Hk' as [Hk'|Hk']; [apply elem_of_union_r; eauto|].
    apply lookup_insert_Some in Hk' as [[_ <-]|[_ Hk']]; [set_solver|].
    apply elem_of_union_r; eauto.
  - intros k1 k2 e' H1 H2.
    apply lookup_insert_Some in H1 as [[<- <-]|[? H1]];
      apply lookup_insert_Some in H2 as [[<- ?]|[? H2]]; subst; try done.
    + by destruct (Hne k2 e (or_intror H2)).
    + by destruct (Hne k1 e (or_intror H1)).
    + eauto.
Qed.

Lemma wf_clear s :
  wf s →
  wf (mkVMap (cells s) (Some (mkReadOnly (∅ : gmap key loc) false)) ((λ _, ∅) <$> dirty s) 0).
Proof.
  intros _. split; unfold snapshot, overlay; cbn; try done;
    intros; destruct (dirty s); naive_solver.
Qed.

Lemma wf_amend s :
  wf s →
  ∃ s1, amend (snapshot s) s = Ok tt s1 ∧ wf s1 ∧ amended (snapshot s1) = true ∧
        m (snapshot s1) = m (snapshot s) ∧
        (∀ k, m (snapshot s) !! k = None → overlay s k = None → overlay s1 k = None).
Proof.
  intros Hwf. rewrite amend_eq.
  destruct (amended (snapshot s)) eqn:Ha; [by exists s|].
  destruct (dirty s) as [d|] eqn:Hd.
  - rewrite (dirtyLocked_Some _ _ Hd). eexists; split; [done|].
    destruct Hwf as [W1 W2 W3 W4 W5 W6 W7 W8].
    assert (∀ k, d !! k = None) as Hemp.
    { intros k. specialize (W5 Ha k). unfold overlay in W5. by rewrite Hd in W5. }
    assert (∀ k, m (snapshot s) !! k = None) as Hrm.
    { intros k. destruct (m (snapshot s) !! k) as [e|] eqn:Hk; [|done].
      destruct (decide (cells s !!! e = expunged)) as [He|He].
      - destruct (W2 _ _ Hk He). congruence.
      - assert (overlay s k = Some e) as Ho by (apply W4; eauto).
        unfold overlay in Ho. rewrite Hd in Ho. cbn in Ho. by rewrite Hemp in Ho. }
    split; [|split; [done|split; [done|]]].
    + split; unfold snapshot, overlay in *; cbn in *; rewrite ?Hd in *; cbn in *; try done;
        intros; rewrite ?Hrm, ?Hemp in *; naive_solver.
    + intros k _ _. unfold overlay. cbn. rewrite Hd. cbn. apply Hemp.
  - destruct (dirtyLocked_None s Hd) as (h' & d' & -> & Hh & Hd' & Hdom).
    eexists; split; [done|].
    destruct Hwf as [W1 W2 W3 W4 W5 W6 W7 W8].
    split; [|split; [done|split; [done|]]].
    + split; unfold snapshot, overlay in *; cbn in *; try done.
      * intros k e Hk He. split; [done|]. rewrite Hd', Hk. by rewrite decide_True.
      * intros k e. rewrite Hd'. destruct (m _ !! k) as [e'|]; [|done].
        case_decide; [done|]. congruence.
      * intros k e _ Hk He. rewrite Hd', Hk. by rewrite decide_False.
      * intros k e [Hk|Hk].
        -- apply Hdom, (W6 k). eauto.
        -- rewrite Hd' in Hk. destruct (m _ !! k) as [e'|] eqn:Hk'; [|done].
           case_decide; [done|]. simplify_eq. apply Hdom, (W6 k). eauto.
      * intros k1 k2 e. rewrite !Hd'.
        destruct (m _ !! k1) as [e1|] eqn:H1; [|done].
        destruct (m _ !! k2) as [e2|] eqn:H2; [|by case_decide].
        repeat case_decide; try done. intros ? ?; simplify_eq. eauto.
    + intros k Hk _. unfold overlay; cbn. by rewrite Hd', Hk.
Qed.

Lemma wf_del_cell e s : wf s → wf (del_cell e s).
Proof.
  intros Hwf. unfold del_cell. destruct (cells s !!! e) eqn:E; try done.
  apply wf_set_cell; [done| |done]. by rewrite E.
Qed.

Lemma wf_overlay_amended s k e : wf s → overlay s k = Some e → amended (snapshot s) = true.
Proof.
  intros Hwf Ho. destruct (amended (snapshot s)) eqn:Ha; [done|].
  by rewrite (wf_clean _ Hwf Ha k) in Ho.
Qed.

Lemma Range_loop_state (f : visitor key) kes : ∀ seen s,
  ∃ calls, Range_loop f seen kes s = Ok calls s.
Proof.
  induction kes as [|[k e] kes IH]; intros seen s; cbn [Range_loop]; [by eexists|].
  unfold mbind at 1; unfold M_bind at 1. rewrite liftE_load.
  destruct (loaded _) as [v []]; [|apply IH].
  destruct (f seen k v); [apply IH|by eexists].
Qed.

Lemma Load_wf k s : wf s → ∃ r s', Load k s = Ok r s' ∧ wf s'.
Proof.
  intros Hwf. rewrite Load_eq. destruct (m _ !! k); [by eauto|].
  destruct (amended _) eqn:Ha; [|by eauto]. eauto using wf_missed.
Qed.

Lemma LoadAndDelete_wf k s : wf s → ∃ r s', LoadAndDelete k s = Ok r s' ∧ wf s'.
Proof.
  intros Hwf. rewrite LoadAndDelete_eq. destruct (m _ !! k) eqn:Hk; [by eauto using wf_del_cell|].
  destruct (amended _) eqn:Ha; [|by eauto].
  assert (wf (missed (drop k s))) by (apply wf_missed; [by apply wf_drop|done]).
  destruct (overlay s k); eauto using wf_del_cell.
Qed.

Lemma Swap_wf k v s : wf s → v ≠ expunged → ∃ r s', Swap k v s = Ok r s' ∧ wf s'.
Proof.
  intros Hwf Hv. rewrite Swap_eq. destruct (m _ !! k) as [e|] eqn:Hk.
  - case_decide as He; [|by eauto using wf_set_cell].
    destruct (wf_expunged _ Hwf _ _ Hk He) as [Ha _].
    destruct (wf_amended _ Hwf Ha) as [d ->]. eauto using wf_unexpunge.
  - destruct (overlay s k) as [e|] eqn:Ho.
    + do 2 eexists; split; [done|]. apply wf_set_cell; [done| |done]. by eapply wf_dirty.
    + destruct (wf_amend s Hwf) as (s1 & -> & Hwf1 & Ha1 & Hm1 & Ho1).
      destruct (wf_amended _ Hwf1 Ha1) as [d ->]. cbn.
      do 2 eexists; split; [done|]. apply wf_new; try done; [congruence|by apply Ho1].
Qed.

Lemma CompareAndSwap_wf k old new s :
  wf s → new ≠ expunged → ∃ r s', CompareAndSwap k old new s = Ok r s' ∧ wf s'.
Proof.
  intros Hwf Hv. rewrite CompareAndSwap_eq.
  assert (∀ e, holds old (cells s !!! e) → wf (set_cell e new s)) as Hset.
  { intros e (He & ? & ?). apply wf_set_cell; [done| |done]. congruence. }
  destruct (m _ !! k) as [e|] eqn:Hk.
  - case_decide; eauto.
  - destruct (amended _) eqn:Ha; [|by eauto].
    destruct (overlay s k) as [e|] eqn:Ho; [|by eauto].
    case_decide; [|by eauto using wf_missed].
    do 2 eexists; split; [done|]. apply wf_missed; [by apply Hset|done].
Qed.

Lemma CompareAndDelete_wf k old s :
  wf s → ∃ r s', CompareAndDelete k old s = Ok r s' ∧ wf s'.
Proof.
  intros Hwf. rewrite CompareAndDelete_eq.
  assert (∀ e s0, cells s0 = cells s → wf s0 → holds old (cells s !!! e) →
                  wf (set_cell e pnil s0)) as Hset.
  { intros e s0 Hc ? (He & ? & ?). apply wf_set_cell; [done| |done]. congruence. }
  destruct (m _ !! k) as [e|] eqn:Hk.
  - case_decide; eauto.
  - destruct (amended _) eqn:Ha; [|by eauto].
    destruct (overlay s k) as [e|] eqn:Ho; [|by eauto using wf_missed].
    case_decide; [|by eauto using wf_missed].
    do 2 eexists; split; [done|]. apply Hset; [apply cells_missed|by apply wf_missed|done].
Qed.

Lemma Clear_wf s : wf s → ∃ r s', Clear s = Ok r s' ∧ wf s'.
Proof. intros Hwf. rewrite Clear_eq. case_match; eauto using wf_clear. Qed.

Lemma Range_wf (f : visitor key) s : wf s → ∃ r s', Range f s = Ok r s' ∧ wf s'.
Proof.
  intros Hwf. unfold Range, Range_in.
  unfold mbind at 1; unfold M_bind at 1. rewrite Range_read_eq.
  destruct (amended _) eqn:Ha.
  - destruct (Range_loop_state f (map_to_list (as_map (dirty s))) [] (promoted s)) as [c Hc].
    cbn. rewrite Hc. eauto using wf_promoted.
  - destruct (Range_loop_state f (map_to_list (m (snapshot s))) [] s) as [c Hc].
    rewrite Hc. eauto.
Qed.

Lemma handle_ne v : handle v = true ↔ v ≠ expunged.
Proof. unfold handle. rewrite negb_true_iff, bool_decide_eq_false. done. Qed.

(** ** What Load observes *)

Lemma Load_returned k s :
  returned (Load k s) =
  Some (from_option (λ e, loaded (cells s !!! e)) (pnil, false) (cell_of s k)).
Proof.
  rewrite Load_eq. unfold cell_of. destruct (m _ !! k); [done|]. by destruct (amended _).
Qed.

Lemma cell_of_promoted s k :
  wf s → amended (snapshot s) = true →
  from_option (λ e, loaded (cells s !!! e)) (pnil, false) (cell_of (promoted s) k) =
  from_option (λ e, loaded (cells s !!! e)) (pnil, false) (cell_of s k).
Proof.
  intros Hwf Ha. destruct (wf_amended _ Hwf Ha) as [d Hd].
  unfold cell_of. rewrite Ha. unfold promoted, snapshot at 1 2, overlay at 1; cbn.
  rewrite Hd; cbn.
  destruct (m (snapshot s) !! k) as [e|] eqn:Hk.
  - destruct (decide (cells s !!! e = expunged)) as [He|He].
    + destruct (wf_expunged _ Hwf _ _ Hk He) as [_ Ho].
      unfold overlay in Ho. rewrite Hd in Ho; cbn in Ho. rewrite Ho. cbn. by rewrite He.
    + assert (overlay s k = Some e) as Ho by (apply (wf_copy _ Hwf); eauto).
      unfold overlay in Ho. rewrite Hd in Ho; cbn in Ho. by rewrite Ho.
  - unfold overlay. rewrite Hd; cbn. by destruct (d !! k).
Qed.

Lemma Load_missed k s :
  wf s → amended (snapshot s) = true →
  returned (Load k (missed s)) = returned (Load k s).
Proof.
  intros Hwf Ha. rewrite !Load_returned. unfold missed. case_decide; [done|].
  by rewrite <- (cell_of_promoted s k Hwf Ha).
Qed.

Lemma cell_of_missed_overlay s k e :
  m (snapshot s) !! k = None → amended (snapshot s) = true → overlay s k = Some e →
  cell_of (missed s) k = Some e.
Proof.
  intros Hk Ha Ho. unfold missed. case_decide.
  - unfold cell_of. cbn. fold (snapshot s). by rewrite Hk, Ha.
  - unfold cell_of, promoted, snapshot, as_map; cbn. unfold overlay in Ho.
    destruct (dirty s) as [d|]; cbn in *; [|done]. by rewrite Ho.
Qed.

End VMap_facts.

Section VMap_facts_any.
Import VMap.
Context {key : Type} `{Countable key} {T : Type} (deref : addr → T).
Implicit Types (s : VMap (key:=key)) (k : key) (e : loc) (v old new : ptr).

Lemma LoadOrStore_eq k v s :
  LoadOrStore deref k v s =
  match m (snapshot s) !! k with
  | Some e =>
      match cells s !!! e with
      | pnil => Ok (any_ptr v, false) (set_cell e v s)
      | ref a => Ok (any_val (deref a), true) s
      | expunged =>
          if dirty s is Some _ then Ok (any_ptr v, false) (set_cell e v (register k e s)) else Panic
      end
  | None =>
      match overlay s k with
      | Some e =>
          match cells s !!! e with
          | pnil => Ok (any_ptr v, false) (missed (set_cell e v s))
          | ref a => Ok (any_val (deref a), true) (missed s)
          | expunged => Ok (any_nil, false) (missed s)
          end
      | None =>
          match amend (snapshot s) s with
          | Ok _ s1 =>
              let e := fresh (dom (cells s1)) in
              if dirty s1 is Some _ then Ok (any_ptr v, false) (register k e (set_cell e v s1)) else Panic
          | Panic => Panic
          | Spin => Spin
          end
      end
  end.
Proof.
  unfold LoadOrStore.
  unfold mbind at 1; unfold M_bind at 1.
  replace (loadReadOnly s) with (Ok (snapshot s) s) by by destruct s as [? [] ? ?].
  destruct (m (snapshot s) !! k) as [e|] eqn:E.
  - destruct s as [h r d ms]. unfold snapshot, set_cell, register in *. unfold_V. cbn in *.
    rewrite tryLoadOrStore_eq. destruct (h !!! e) eqn:Hc; cbn; [done| |done].
    destruct r as [[rm am]|]; cbn in *; [|by rewrite lookup_empty in E].
    rewrite E. cbn. rewrite unexpungeLocked_eq, decide_True by done. cbn.
    destruct d; cbn; [|done]. rewrite tryLoadOrStore_eq, lookup_total_insert_eq, insert_insert_eq.
    done.
  - unfold mbind at 1; unfold M_bind at 1. unfold mret at 1; unfold M_ret at 1.
    unfold mbind at 1; unfold M_bind at 1.
    replace (loadReadOnly s) with (Ok (snapshot s) s) by by destruct s as [? [] ? ?].
    rewrite E.
    unfold mbind at 1; unfold M_bind at 1. unfold dirty_lookup at 1. fold (overlay s k).
    destruct (overlay s k) as [e|] eqn:O.
    + destruct s as [h r d ms]. unfold set_cell. unfold_V. cbn.
      rewrite tryLoadOrStore_eq. destruct (h !!! e); cbn; by rewrite missLocked_eq.
    + unfold mbind at 1; unfold M_bind at 1.
      destruct (amend (snapshot s) s) as [[] s1| |]; [|done..].
      destruct s1 as [h1 r1 d1 ms1]. unfold register, set_cell. unfold_V. cbn.
      rewrite newEntry_eq. cbn. by destruct d1.
Qed.

Lemma LoadOrStore_wf k v s :
  wf s → v ≠ expunged → ∃ r s', LoadOrStore deref k v s = Ok r s' ∧ wf s'.
Proof.
  intros Hwf Hv. rewrite LoadOrStore_eq. destruct (m _ !! k) as [e|] eqn:Hk.
  - destruct (cells s !!! e) eqn:He; [|  |by eauto].
    + do 2 eexists; split; [done|]. apply wf_set_cell; [done| |done]. by rewrite He.
    + destruct (wf_expunged _ Hwf _ _ Hk He) as [Ha _].
      destruct (wf_amended _ Hwf Ha) as [d ->]. eauto using wf_unexpunge.
  - destruct (overlay s k) as [e|] eqn:Ho.
    + assert (amended (snapshot s) = true) as Ha by by eapply wf_overlay_amended.
      destruct (cells s !!! e) eqn:He; [| |by eauto using wf_missed].
      * do 2 eexists; split; [done|]. apply wf_missed; [|done].
        apply wf_set_cell; [done| |done]. by rewrite He.
      * by destruct (wf_dirty _ Hwf _ _ Ho).
    + destruct (wf_amend s Hwf) as (s1 & -> & Hwf1 & Ha1 & Hm1 & Ho1).
      destruct (wf_amended _ Hwf1 Ha1) as [d ->]. cbn.
      do 2 eexists; split; [done|]. apply wf_new; try done; [congruence|by apply Ho1].
Qed.

Lemma exec_wf (o : op key) s :
  wf s → valid o = true → ∃ r s', exec (T:=T) deref o s = Ok r s' ∧ wf s'.
Proof.
  intros Hwf Hv. destruct o; cbn in Hv; cbn [exec]; unfold Store, Delete;
    unfold mbind, M_bind, mret, M_ret.
  - destruct (Load_wf k s Hwf) as ([] & s' & -> & ?). eauto.
  - apply handle_ne in Hv. destruct (Swap_wf k value s Hwf Hv) as ([] & s' & -> & ?). eauto.
  - apply handle_ne in Hv.
    destruct (LoadOrStore_wf k value s Hwf Hv) as ([] & s' & -> & ?). eauto.
  - destruct (LoadAndDelete_wf k s Hwf) as ([] & s' & -> & ?). eauto.
  - destruct (LoadAndDelete_wf k s Hwf) as ([] & s' & -> & ?). eauto.
  - apply handle_ne in Hv. destruct (Swap_wf k value s Hwf Hv) as ([] & s' & -> & ?). eauto.
  - apply andb_true_iff in Hv as [_ Hv]. apply handle_ne in Hv.
    destruct (CompareAndSwap_wf k old new s Hwf Hv) as (? & s' & -> & ?). eauto.
  - destruct (CompareAndDelete_wf k old s Hwf) as (? & s' & -> & ?). eauto.
  - destruct (Range_wf f s Hwf) as (? & s' & -> & ?). eauto.
  - destruct (Clear_wf s Hwf) as (? & s' & -> & ?). eauto.
Qed.

Lemma reachable_wf s : reachable deref s → wf s.
Proof.
  induction 1 as [|s o r s' _ IH Hv Hex]; [apply wf_zero|].
  destruct (exec_wf o s IH Hv) as (r' & s'' & Hex' & Hwf). congruence.
Qed.

End VMap_facts_any.

(** ** What the methods promise *)

Section VMap_observations.
Import VMap.
Context {key : Type} `{Countable key}.
Implicit Types (s : VMap (key:=key)) (k : key) (e : loc) (v old new : ptr).

Lemma loaded_eq_true p q : loaded p = (q, true) ↔ p = q ∧ q ≠ pnil ∧ q ≠ expunged.
Proof. destruct p; cbn; naive_solver. Qed.

Lemma Load_found_holds k old s :
  returned (Load k s) = Some (old, true) ↔
  ∃ e, cell_of s k = Some e ∧ holds old (cells s !!! e).
Proof.
  rewrite Load_returned. unfold holds. destruct (cell_of s k) as [e|]; cbn.
  - split.
    + intros [= Hl]. apply loaded_eq_true in Hl. eauto.
    + intros (? & [= <-] & Hh). f_equal. by apply loaded_eq_true.
  - naive_solver.
Qed.

Lemma loaded_handle v :
  v ≠ expunged → ∃ ok, loaded v = (v, ok) ∧ (ok = true ↔ v ≠ pnil).
Proof. destruct v; [exists false|done|exists true]; naive_solver. Qed.

Lemma Swap_Load k v s :
  wf s → v ≠ expunged →
  ∃ r s1, Swap k v s = Ok r s1 ∧ wf s1 ∧ returned (Load k s1) = Some (loaded v).
Proof.
  intros Hwf Hv. destruct (Swap_wf k v s Hwf Hv) as (r & s1 & Hs & Hwf1).
  exists r, s1. split; [done|]. split; [done|].
  rewrite Load_returned. f_equal.
  rewrite Swap_eq in Hs. destruct (m (snapshot s) !! k) as [e|] eqn:Hk.
  - assert (cell_of s1 k = Some e ∧ cells s1 !!! e = v) as [Hc1 Hc2];
      [|rewrite Hc1; cbn; by rewrite Hc2].
    case_decide.
    + destruct (dirty s); simplify_eq. unfold cell_of; cbn. fold (snapshot s).
      by rewrite Hk, lookup_total_insert_eq.
    + simplify_eq. unfold cell_of; cbn. fold (snapshot s).
      by rewrite Hk, lookup_total_insert_eq.
  - destruct (overlay s k) as [e|] eqn:Ho.
    + simplify_eq. pose proof (wf_overlay_amended _ _ _ Hwf Ho) as Ha.
      unfold cell_of, overlay; cbn. fold (snapshot s) (overlay s k).
      by rewrite Hk, Ha, Ho; cbn; rewrite lookup_total_insert_eq.
    + destruct (wf_amend s Hwf) as (s2 & Hs2 & Hwf2 & Ha2 & Hm2 & Ho2).
      rewrite Hs2 in Hs. cbn in Hs.
      destruct (wf_amended _ Hwf2 Ha2) as [d Hd]. rewrite Hd in Hs. simplify_eq.
      unfold cell_of, overlay, register, set_cell; cbn. fold (snapshot s2).
      rewrite Hm2, Hk, Ha2, Hd; cbn. rewrite lookup_insert_eq. cbn. by rewrite lookup_total_insert_eq.
Qed.

Lemma Store_Load k v s :
  wf s → v ≠ expunged →
  ∃ s1, Store k v s = Ok tt s1 ∧ wf s1 ∧ returned (Load k s1) = Some (loaded v).
Proof.
  intros Hwf Hv. destruct (Swap_Load k v s Hwf Hv) as (r & s1 & Hs & ? & ?).
  exists s1. unfold Store, mbind, M_bind. by rewrite Hs.
Qed.

(** C2: for a handle [new], [CompareAndSwap(k, old, new)] returns true
    exactly when [Load(k)] finds the very pointer [old] installed for [k]
    (pointers are compared, never the values they point to), and then a
    following [Load(k)] returns [new]; [CompareAndDelete(k, old)] returns
    true under the same condition, and then a following [Load(k)] finds
    nothing. *)
Theorem CompareAndSwap_succeeds_iff_identical k old new s :
  handle new = true →
  (∃ b s', CompareAndSwap k old new s = Ok b s' ∧
     (b = true ↔ returned (Load k s) = Some (old, true)) ∧
     (b = true → ∃ ok, returned (Load k s') = Some (new, ok) ∧ (ok = true ↔ new ≠ pnil))) ∧
  (∃ b s', CompareAndDelete k old s = Ok b s' ∧
     (b = true ↔ returned (Load k s) = Some (old, true)) ∧
     (b = true → returned (Load k s') = Some (pnil, false))).
Proof.
  intros Hnew%handle_ne. destruct (loaded_handle new Hnew) as (ok & Hok & Hiff).
  split.
  - rewrite CompareAndSwap_eq. setoid_rewrite Load_found_holds.
    setoid_rewrite Load_returned. unfold cell_of.
    destruct (m (snapshot s) !! k) as [e|] eqn:Hk.
    + case_decide as Hh; do 2 eexists; (split; [done|]); split; try naive_solver.
      intros _. exists ok. cbn. fold (snapshot s). rewrite Hk; cbn.
      by rewrite lookup_total_insert_eq, Hok.
    + destruct (amended (snapshot s)) eqn:Ha; [|do 2 eexists; naive_solver].
      destruct (overlay s k) as [e|] eqn:Ho; [|do 2 eexists; naive_solver].
      case_decide as Hh; do 2 eexists; (split; [done|]); split; try naive_solver.
      intros _. exists ok. fold (cell_of (missed (set_cell e new s)) k).
      rewrite (cell_of_missed_overlay _ k e), cells_missed by done. cbn.
      by rewrite lookup_total_insert_eq, Hok.
  - rewrite CompareAndDelete_eq. setoid_rewrite Load_found_holds.
    setoid_rewrite Load_returned. unfold cell_of.
    destruct (m (snapshot s) !! k) as [e|] eqn:Hk.
    + case_decide as Hh; do 2 eexists; (split; [done|]); split; try naive_solver.
      intros _. cbn. fold (snapshot s). rewrite Hk; cbn.
      by rewrite lookup_total_insert_eq.
    + destruct (amended (snapshot s)) eqn:Ha; [|do 2 eexists; naive_solver].
      destruct (overlay s k) as [e|] eqn:Ho; [|do 2 eexists; naive_solver].
      case_decide as Hh; do 2 eexists; (split; [done|]); split; try naive_solver.
      intros _. change (m (snapshot (set_cell e pnil (missed s))) !! k) with
        (m (snapshot (missed s)) !! k).
      change (amended (snapshot (set_cell e pnil (missed s)))) with
        (amended (snapshot (missed s))).
      change (overlay (set_cell e pnil (missed s)) k) with (overlay (missed s) k).
      fold (cell_of (missed s) k).
      rewrite (cell_of_missed_overlay _ k e) by done. cbn.
      by rewrite lookup_total_insert_eq.
Qed.

End VMap_observations.

Section VMap_runs.
Import VMap.
Context {key : Type} `{Countable key} {T : Type} (deref : addr → T).
Implicit Types (s : VMap (key:=key)) (k : key) (e : loc) (v old new : ptr).

Lemma run_app (os1 os2 : list (op key)) s :
  run (T:=T) deref (os1 ++ os2) s =
  match run deref os1 s with
  | Ok rs1 s1 =>
      match run deref os2 s1 with
      | Ok rs2 s2 => Ok (rs1 ++ rs2) s2
      | Panic => Panic
      | Spin => Spin
      end
  | Panic => Panic
  | Spin => Spin
  end.
Proof.
  revert s. induction os1 as [|o os1 IH]; intros s; cbn.
  - unfold mret, M_ret. by destruct (run deref os2 s).
  - unfold mbind, M_bind, mret, M_ret. destruct (exec deref o s) as [r s1| |]; [|done..].
    rewrite IH. destruct (run deref os1 s1) as [rs1 s2| |]; [|done..].
    by destruct (run deref os2 s2).
Qed.

Lemma run_wf (os : list (op key)) s :
  wf s → forallb valid os = true → ∃ rs s', run (T:=T) deref os s = Ok rs s' ∧ wf s'.
Proof.
  revert s. induction os as [|o os IH]; intros s Hwf Hv; cbn in *.
  - by exists [], s.
  - apply andb_true_iff in Hv as [Hv Hvs].
    destruct (exec_wf deref o s Hwf Hv) as (r & s1 & Hex & Hwf1).
    destruct (IH s1 Hwf1 Hvs) as (rs & s2 & Hrun & Hwf2).
    exists (r :: rs), s2. unfold mbind, M_bind, mret, M_ret. by rewrite Hex, Hrun.
Qed.

Lemma reachable_run (os : list (op key)) s rs s' :
  reachable deref s → forallb valid os = true → run deref os s = Ok rs s' →
  reachable deref s'.
Proof.
  revert s rs. induction os as [|o os IH]; intros s rs Hr Hv Hrun; cbn in *.
  - unfold mret, M_ret in Hrun. by simplify_eq.
  - apply andb_true_iff in Hv as [Hv Hvs]. unfold mbind, M_bind, mret, M_ret in Hrun.
    destruct (exec deref o s) as [r s1| |] eqn:Hex; [|done..].
    destruct (run deref os s1) as [rs1 s2| |] eqn:Hrun1; [|done..]. simplify_eq.
    eapply IH; [|done..]. by eapply reachable_step.
Qed.

(** C3: in a reachable state, [Delete(k)], then any calls with handles,
    then [Store(k, v)] with a non-nil handle [v] return, and a following
    [Load(k)] returns [(v, true)]: the calls in between may rebuild the
    dirty map and expunge the cell of [k].  When the cell of [k] is
    expunged, [Store(k, v)] leaves it in the snapshot, registered in the
    dirty map under [k], and holding [v]. *)
Theorem Delete_Store_Load k a (mid : list (op key)) s :
  reachable deref s → forallb valid mid = true →
  (∃ rs s', run deref (ODelete k :: mid ++ [OStore k (ref a)]) s = Ok rs s' ∧
            returned (Load k s') = Some (ref a, true)) ∧
  (∀ e, m (snapshot s) !! k = Some e → cells s !!! e = expunged →
        ∃ s1, Store k (ref a) s = Ok tt s1 ∧ m (snapshot s1) !! k = Some e ∧
              overlay s1 k = Some e ∧ cells s1 !!! e = ref a).
Proof.
  intros Hr Hmid. pose proof (reachable_wf deref s Hr) as Hwf. split.
  - destruct (run_wf (ODelete k :: mid) s Hwf) as (rs1 & s1 & Hrun1 & Hwf1).
    { cbn. by rewrite Hmid. }
    destruct (Store_Load k (ref a) s1 Hwf1) as (s2 & Hst & Hwf2 & Hl); [done|].
    exists (rs1 ++ [RUnit]), s2. split; [|done].
    change (ODelete k :: mid ++ [OStore k (ref a)]) with ((ODelete k :: mid) ++ [OStore k (ref a)]).
    rewrite run_app, Hrun1. cbn. unfold mbind, M_bind, mret, M_ret. by rewrite Hst.
  - intros e Hk He. unfold Store, mbind, M_bind, mret, M_ret. rewrite Swap_eq, Hk.
    rewrite decide_True by done.
    destruct (wf_expunged _ Hwf _ _ Hk He) as [Ha _].
    destruct (wf_amended _ Hwf Ha) as [d Hd]. rewrite Hd.
    eexists; split; [done|]. unfold overlay, register, set_cell; cbn. fold (snapshot s).
    rewrite Hd; cbn. by rewrite lookup_insert_eq, lookup_total_insert_eq.
Qed.

(** C6: in every reachable state, whatever the cell of [k] holds and
    whichever map has it, [Store(k, nil)] returns and a following [Load(k)]
    returns the nil pointer and [false]. *)
Theorem Store_nil_Load k s :
  reachable deref s →
  ∃ s1, Store k pnil s = Ok tt s1 ∧ returned (Load k s1) = Some (pnil, false).
Proof.
  intros Hr. pose proof (reachable_wf deref s Hr) as Hwf.
  destruct (Store_Load k pnil s Hwf) as (s1 & ? & _ & ?); [done|]. by exists s1.
Qed.

(** C8: in a reachable state [CompareAndSwap] and [CompareAndDelete] always
    return, and when one returns false every key [k'] loads afterwards
    what it loaded before, also when the miss recorded by the call promoted
    the dirty map. *)
Theorem failed_compare_changes_nothing k old new s k' :
  reachable deref s →
  (∃ b s', CompareAndSwap k old new s = Ok b s' ∧
           (b = false → returned (Load k' s') = returned (Load k' s))) ∧
  (∃ b s', CompareAndDelete k old s = Ok b s' ∧
           (b = false → returned (Load k' s') = returned (Load k' s))).
Proof.
  intros Hr. pose proof (reachable_wf deref s Hr) as Hwf. split.
  - rewrite CompareAndSwap_eq. destruct (m (snapshot s) !! k) as [e|].
    + case_decide; do 2 eexists; naive_solver.
    + destruct (amended (snapshot s)) eqn:Ha; [|do 2 eexists; naive_solver].
      destruct (overlay s k) as [e|]; [|do 2 eexists; naive_solver].
      case_decide; do 2 eexists; (split; [done|]); [done|].
      intros _. by apply Load_missed.
  - rewrite CompareAndDelete_eq. destruct (m (snapshot s) !! k) as [e|].
    + case_decide; do 2 eexists; naive_solver.
    + destruct (amended (snapshot s)) eqn:Ha; [|do 2 eexists; naive_solver].
      destruct (overlay s k) as [e|].
      * case_decide; do 2 eexists; (split; [done|]); [done|].
        intros _. by apply Load_missed.
      * do 2 eexists; split; [done|]. intros _. by apply Load_missed.
Qed.

(** X20: in a reachable state, a result of [Load], [LoadAndDelete] or [Swap]
    with the flag true carries a pointer that is neither nil nor the
    sentinel. *)
Theorem found_is_not_nil k v s :
  reachable deref s →
  (∀ p, returned (Load k s) = Some (p, true) → p ≠ pnil ∧ p ≠ expunged) ∧
  (∀ p, returned (LoadAndDelete k s) = Some (p, true) → p ≠ pnil ∧ p ≠ expunged) ∧
  (∀ p, returned (Swap k v s) = Some (p, true) → p ≠ pnil ∧ p ≠ expunged).
Proof.
  intros Hr. pose proof (reachable_wf deref s Hr) as Hwf.
  assert (∀ p q, loaded p = (q, true) → q ≠ pnil ∧ q ≠ expunged) as Hl.
  { intros p q Hpq. apply loaded_eq_true in Hpq. naive_solver. }
  assert (∀ p q, p ≠ expunged → swapped p = (q, true) → q ≠ pnil ∧ q ≠ expunged) as Hsw.
  { intros p q Hp. unfold swapped. case_decide; naive_solver. }
  split; [|split].
  - intros p. rewrite Load_returned. destruct (cell_of s k); cbn; [|done].
    intros [= Hp]. eauto.
  - intros p. rewrite LoadAndDelete_eq. destruct (m (snapshot s) !! k); cbn.
    + intros [= Hp]. eauto.
    + destruct (amended (snapshot s)); [|done]. destruct (overlay s k); cbn; [|done].
      intros [= Hp]. eauto.
  - intros p. rewrite Swap_eq. destruct (m (snapshot s) !! k) as [e|] eqn:Hk.
    + case_decide as He; [by destruct (dirty s)|]. cbn. intros [= Hp]. eauto.
    + destruct (overlay s k) as [e|] eqn:Ho; cbn.
      * intros [= Hp]. eapply Hsw; [|done]. by eapply wf_dirty.
      * destruct (amend _ s) as [? s1| |]; [|done..]. cbn. by destruct (dirty s1).
Qed.

End VMap_runs.

(** ** Range *)

Section VMap_range.
Import VMap.
Context {key : Type} `{Countable key}.
Implicit Types (s : VMap (key:=key)) (k : key) (e : loc) (v old new : ptr).


(** What Load returns, read off the snapshot that Range iterates. *)
Lemma Load_via_Range_read s k :
  wf s →
  returned (Load k s) =
  Some (from_option (λ e, loaded (cells s !!! e)) (pnil, false)
          (m (snapshot (if amended (snapshot s) then promoted s else s)) !! k)).
Proof.
  intros Hwf. rewrite Load_returned. f_equal.
  destruct (amended (snapshot s)) eqn:Ha.
  - rewrite <- (cell_of_promoted s k Hwf Ha). unfold cell_of. cbn.
    by destruct (as_map (dirty s) !! k).
  - unfold cell_of. rewrite Ha. by destruct (m (snapshot s) !! k).
Qed.



End VMap_range.

Section VMap_range_any.
Import VMap.
Context {key : Type} `{Countable key} {T : Type} (deref : addr → T).
Implicit Types (s : VMap (key:=key)) (k : key) (e : loc) (v old new : ptr).


End VMap_range_any.

(** ** Miss accounting and the expunged cells *)

Section VMap_misses.
Import VMap.
Context {key : Type} `{Countable key}.
Implicit Types (s : VMap (key:=key)) (k : key) (e : loc) (v old new : ptr).

Lemma same_books_refl s : same_books s s.
Proof. done. Qed.

Lemma same_books_set_cell e v s : same_books (set_cell e v s) s.
Proof. done. Qed.

Lemma same_books_missed_set_cell e v s : same_books (missed (set_cell e v s)) (missed s).
Proof. unfold missed, promoted. cbn. by case_decide. Qed.

Lemma same_books_del_cell e s : same_books (del_cell e s) s.
Proof. unfold del_cell. by destruct (cells s !!! e). Qed.

End VMap_misses.

Section VMap_misses_any.
Import VMap.
Context {key : Type} `{Countable key} {T : Type} (deref : addr → T).
Implicit Types (s : VMap (key:=key)) (k : key) (e : loc) (v old new : ptr).

(** C4, amended: [missLocked] below the dirty map's length changes nothing
    but the miss count, which it increments; when the count reaches that
    length it makes the dirty map the snapshot with [amended] false, unsets
    the dirty map and resets the count to 0.  For a key that the amended
    snapshot lacks, [Load], [LoadAndDelete] and [CompareAndDelete] always
    account a miss, [CompareAndSwap] and [LoadOrStore] do when the dirty map
    has the key, [Swap] on a key of the dirty map leaves the books alone,
    a [CompareAndSwap] that finds the key in neither map changes nothing,
    and a [LoadOrStore] that finds it in neither map adds a fresh cell to
    the dirty map under the key and nothing else.  In any state, with the
    key missing from the dirty map, [LoadOrStore] leaves the miss count and
    the snapshot's map as they are and a set dirty map set, and puts a key
    that the snapshot lacks into the dirty map (it returns in every state
    that has the invariant), and [CompareAndSwap] leaves the books alone;
    and none of these methods changes the snapshot pointer or the miss
    count for a key that the snapshot has. *)
Theorem miss_accounting k old new v s :
  missLocked s = Ok tt (missed s) ∧
  (S (misses s) < from_option size 0 (dirty s) →
     missed s = mkVMap (cells s) (read s) (dirty s) (S (misses s))) ∧
  (¬ S (misses s) < from_option size 0 (dirty s) →
     missed s = mkVMap (cells s) (Some (mkReadOnly (as_map (dirty s)) false)) None 0) ∧
  (m (snapshot s) !! k = None → amended (snapshot s) = true →
     final (Load k s) = Some (missed s) ∧
     (∃ s', final (LoadAndDelete k s) = Some s' ∧ same_books s' (missed (drop k s))) ∧
     (∃ s', final (CompareAndDelete k old s) = Some s' ∧ same_books s' (missed s)) ∧
     (is_Some (overlay s k) →
        (∃ s', final (CompareAndSwap k old new s) = Some s' ∧ same_books s' (missed s)) ∧
        (∃ s', final (LoadOrStore deref k v s) = Some s' ∧ same_books s' (missed s)) ∧
        (∃ s', final (Swap k v s) = Some s' ∧ same_books s' s)) ∧
     (overlay s k = None → final (CompareAndSwap k old new s) = Some s) ∧
     (overlay s k = None → is_Some (dirty s) →
        final (LoadOrStore deref k v s) =
          Some (register k (fresh (dom (cells s))) (set_cell (fresh (dom (cells s))) v s)))) ∧
  (overlay s k = None →
     (∀ s', final (LoadOrStore deref k v s) = Some s' →
        misses s' = misses s ∧ m (snapshot s') = m (snapshot s) ∧
        (is_Some (dirty s) → is_Some (dirty s')) ∧
        (m (snapshot s) !! k = None → is_Some (overlay s' k) ∧ amended (snapshot s') = true)) ∧
     (wf s → is_Some (final (LoadOrStore deref k v s))) ∧
     (∃ s', final (CompareAndSwap k old new s) = Some s' ∧ same_books s' s)) ∧
  (is_Some (m (snapshot s) !! k) →
     ∀ s', final (Load k s) = Some s' ∨ final (LoadAndDelete k s) = Some s' ∨
           final (CompareAndDelete k old s) = Some s' ∨
           final (CompareAndSwap k old new s) = Some s' ∨
           final (LoadOrStore deref k v s) = Some s' ∨ final (Swap k v s) = Some s' →
           read s' = read s ∧ misses s' = misses s).
Proof.
  split; [apply missLocked_eq|]. split; [|split; [|split; [|split]]].
  - intros Hlt. unfold missed. by rewrite decide_True.
  - intros Hge. unfold missed, promoted. by rewrite decide_False.
  - intros Hk Ha. split; [|split; [|split; [|split; [|split]]]].
    + by rewrite Load_eq, Hk, Ha.
    + rewrite LoadAndDelete_eq, Hk, Ha.
      destruct (overlay s k); (eexists; split; [done|]);
        [apply same_books_del_cell|apply same_books_refl].
    + rewrite CompareAndDelete_eq, Hk, Ha. destruct (overlay s k).
      * case_decide; (eexists; split; [done|]);
          [apply same_books_set_cell|apply same_books_refl].
      * eexists; split; [done|]. apply same_books_refl.
    + intros [e Ho]. split; [|split].
      * rewrite CompareAndSwap_eq, Hk, Ha, Ho.
        case_decide; (eexists; split; [done|]);
          [apply same_books_missed_set_cell|apply same_books_refl].
      * rewrite LoadOrStore_eq, Hk, Ho.
        destruct (cells s !!! e); (eexists; split; [done|]);
          [apply same_books_missed_set_cell|apply same_books_refl..].
      * rewrite Swap_eq, Hk, Ho. eexists; split; [done|]. apply same_books_set_cell.
    + intros Ho. by rewrite CompareAndSwap_eq, Hk, Ha, Ho.
    + intros Ho [d Hd]. rewrite LoadOrStore_eq, Hk, Ho, amend_eq, Ha. cbn. by rewrite Hd.
  - intros Ho. split; [|split].
    + intros s'. rewrite LoadOrStore_eq, Ho.
      destruct (m (snapshot s) !! k) as [e|] eqn:Hk.
      * destruct (cells s !!! e); [| |by intros [= <-]].
        -- intros [= <-]. done.
        -- destruct (dirty s) as [d|] eqn:Hd; [|done]. intros [= <-].
           unfold register, set_cell; cbn. by rewrite Hd.
      * assert (∀ h r (d : gmap key loc) ms e,
          is_Some (overlay (register k e (set_cell e v (mkVMap h r (Some d) ms))) k)) as Hreg.
        { intros h r d ms e. unfold overlay, register, set_cell; cbn.
          rewrite lookup_insert_eq. by eexists. }
        rewrite amend_eq. destruct (amended (snapshot s)) eqn:Ha.
        { cbn. destruct s as [h r [d|] ms]; [|done]. intros [= <-].
          split; [done|]. split; [done|]. split; [by eexists|]. intros _.
          split; [apply Hreg|done]. }
        destruct (dirty s) as [d|] eqn:Hd.
        -- rewrite (dirtyLocked_Some _ _ Hd). cbn. rewrite Hd. intros [= <-].
           split; [done|]. split; [done|]. split; [by eexists|]. intros _.
           split; [apply Hreg|done].
        -- destruct (dirtyLocked_None s Hd) as (h' & d' & -> & _). cbn. intros [= <-].
           split; [done|]. split; [done|]. split; [by eexists|]. intros _.
           split; [apply Hreg|done].
    + intros Hwf. rewrite LoadOrStore_eq, Ho.
      destruct (m (snapshot s) !! k) as [e|] eqn:Hk.
      * destruct (cells s !!! e) eqn:He; [done| |done].
        destruct (wf_expunged _ Hwf _ _ Hk He) as [Ha _].
        by destruct (wf_amended _ Hwf Ha) as [d ->].
      * destruct (wf_amend s Hwf) as (s1 & -> & Hwf1 & Ha1 & _). cbn.
        by destruct (wf_amended _ Hwf1 Ha1) as [d ->].
    + rewrite CompareAndSwap_eq, Ho. destruct (m (snapshot s) !! k) as [e|].
      * case_decide; (eexists; split; [done|]);
          [apply same_books_set_cell|apply same_books_refl].
      * destruct (amended (snapshot s)); (eexists; split; [done|]); apply same_books_refl.
  - intros [e Hk] s'.
    rewrite Load_eq, LoadAndDelete_eq, CompareAndDelete_eq, CompareAndSwap_eq,
      LoadOrStore_eq, Swap_eq, Hk.
    intros [Hs|[Hs|[Hs|[Hs|[Hs|Hs]]]]].
    + by injection Hs as <-.
    + injection Hs as <-. unfold del_cell. by destruct (cells s !!! e).
    + case_decide; by injection Hs as <-.
    + case_decide; by injection Hs as <-.
    + destruct (cells s !!! e); [by injection Hs as <-| |by injection Hs as <-].
      destruct (dirty s); [|done]. by injection Hs as <-.
    + case_decide; [|by injection Hs as <-].
      destruct (dirty s); [|done]. by injection Hs as <-.
Qed.

(** C7: in every reachable state, a snapshot cell that is expunged has its
    key missing from the dirty map, which is set; [dirtyLocked] on an unset
    dirty map expunges exactly the snapshot cells that hold nil, leaves the
    other cells as they are, and copies exactly the cells that are not
    expunged; [Swap] and [LoadOrStore] with a handle on a key whose cell is
    expunged leave the cell registered in the dirty map under the key. *)
Theorem expunged_cell_is_unregistered k v s :
  reachable deref s →
  (∀ e, m (snapshot s) !! k = Some e → cells s !!! e = expunged →
        ∃ d, dirty s = Some d ∧ d !! k = None) ∧
  (dirty s = None →
     ∃ h' d', dirtyLocked s = Ok tt (mkVMap h' (read s) (Some d') (misses s)) ∧
       (∀ k' e, m (snapshot s) !! k' = Some e →
          (h' !!! e = expunged ↔ cells s !!! e = pnil ∨ cells s !!! e = expunged) ∧
          (cells s !!! e ≠ pnil → h' !!! e = cells s !!! e) ∧
          d' !! k' = (if decide (h' !!! e = expunged) then None else Some e)) ∧
       (∀ k', m (snapshot s) !! k' = None → d' !! k' = None)) ∧
  (handle v = true → ∀ e, m (snapshot s) !! k = Some e → cells s !!! e = expunged →
     (∃ r s', Swap k v s = Ok r s' ∧ overlay s' k = Some e ∧ cells s' !!! e = v) ∧
     (∃ r s', LoadOrStore deref k v s = Ok r s' ∧ overlay s' k = Some e ∧
              cells s' !!! e = v)).
Proof.
  intros Hr. pose proof (reachable_wf deref s Hr) as Hwf. split; [|split].
  - intros e Hk He. destruct (wf_expunged _ Hwf _ _ Hk He) as [Ha Ho].
    destruct (wf_amended _ Hwf Ha) as [d Hd]. exists d. split; [done|].
    unfold overlay in Ho. by rewrite Hd in Ho.
  - intros Hd. destruct (dirtyLocked_None s Hd) as (h' & d' & Hrun & Hh & Hd' & _).
    exists h', d'. split; [done|]. split.
    + intros k' e Hk'. rewrite Hd', Hk', Hh.
      assert (e ∈ (map_img (m (snapshot s)) : gset loc)) as Hin
        by (apply elem_of_map_img; eauto).
      split; [|split; [|done]].
      * case_decide; naive_solver.
      * intros Hne. rewrite decide_False; naive_solver.
    + intros k' Hk'. by rewrite Hd', Hk'.
  - intros Hv%handle_ne e Hk He.
    destruct (wf_expunged _ Hwf _ _ Hk He) as [Ha _].
    destruct (wf_amended _ Hwf Ha) as [d Hd]. split.
    + rewrite Swap_eq, Hk, decide_True, Hd by done. do 2 eexists; split; [done|].
      unfold overlay, register, set_cell; cbn. rewrite Hd; cbn.
      by rewrite lookup_insert_eq, lookup_total_insert_eq.
    + rewrite LoadOrStore_eq, Hk, He, Hd. do 2 eexists; split; [done|].
      unfold overlay, register, set_cell; cbn. rewrite Hd; cbn.
      by rewrite lookup_insert_eq, lookup_total_insert_eq.
Qed.

End VMap_misses_any.

(** C4, as stated, fails: with key 1 in the dirty map only, a
    [CompareAndSwap] on key 2 takes the slow path and looks the key up in the
    dirty map, and a [Swap] on key 1 finds its cell there; neither touches
    the miss count, the snapshot or the dirty map, while a [Load] of key 2
    in the same state records the miss and promotes the dirty map. *)
Lemma lookup_without_miss_accounting :
  VMap.m (VMap.snapshot (after calls_dirty)) !! 2 = None ∧
  VMap.amended (VMap.snapshot (after calls_dirty)) = true ∧
  VMap.dirty (after calls_dirty) = Some {[1 := 0]} ∧
  VMap.misses (after calls_dirty) = 0 ∧
  VMap.CompareAndSwap 2 (ref 5) (ref 6) (after calls_dirty) = Ok false (after calls_dirty) ∧
  VMap.Swap 1 (ref 11) (after calls_dirty) =
    Ok (ref 10, true) (VMap.set_cell 0 (ref 11) (after calls_dirty)) ∧
  final (VMap.Load 2 (after calls_dirty)) = Some (VMap.promoted (after calls_dirty)) ∧
  final (VMap.CompareAndSwap 2 (ref 5) (ref 6) (after calls_dirty)) ≠
    final (VMap.Load 2 (after calls_dirty)).
Proof. vm_compute. repeat split. discriminate. Qed.

(** C1 fails on the code: with key 1 live and holding the handle [ref 10],
    [Load(1)] returns that handle, and [LoadOrStore(1, v)] reports
    [loaded = true] and leaves the state alone but returns the value the
    handle points to, boxed in an [any], not the handle. *)
Lemma LoadOrStore_live_returns_pointee :
  returned (VMap.Load 1 (after calls_live)) = Some (ref 10, true) ∧
  VMap.LoadOrStore deref0 1 (ref 11) (after calls_live) =
    Ok (any_val (deref0 10), true) (after calls_live) ∧
  any_val (deref0 10) ≠ any_ptr (ref 10).
Proof. vm_compute. repeat split. discriminate. Qed.

(** C10 fails on the code: in a [VMap[any]] with key 1 live and holding the
    handle [ref 10], whose pointee is the nil interface, [Load(1)] returns
    that handle, which is not nil, and [LoadOrStore(1, v)] reports
    [loaded = true], leaves the state alone and returns the pointee
    converted to [any]: a nil value together with [loaded = true]. *)
Lemma LoadOrStore_loaded_nil :
  VMap.reachable deref_any (after calls_live) ∧
  returned (VMap.Load 1 (after calls_live)) = Some (ref 10, true) ∧
  VMap.LoadOrStore deref_any 1 (ref 11) (after calls_live) =
    Ok (any_val (deref_any 10), true) (after calls_live) ∧
  deref_any 10 = None ∧
  any_is_nil nil_any (any_val (deref_any 10)) = true.
Proof.
  split; [|vm_compute; by repeat split].
  apply (reachable_run deref_any calls_live VMap.zero [RUnit; RPtr (ref 10) true]);
    [apply VMap.reachable_zero|reflexivity|].
  vm_compute. reflexivity.
Qed.

(** ** KVMap and VMap run alike *)

Section refinement.
Context {K : Type} `{Countable K}.

Local Abbreviation simK := (sim (K:=K)).

Lemma sim_ret {A B} (R : A → B → Prop) a b : R a b → simK R (mret a) (mret b).
Proof. intros HR s. by cbn. Qed.

Lemma sim_bind {A B A' B'} (R : A → B → Prop) (Q : A' → B' → Prop) c1 c2 k1 k2 :
  simK R c1 c2 → (∀ a b, R a b → simK Q (k1 a) (k2 b)) → simK Q (c1 ≫= k1) (c2 ≫= k2).
Proof.
  intros Hc Hk s. unfold mbind, M_bind. specialize (Hc s).
  destruct (c1 s) as [a s1| |], (c2 (conv s)) as [b s2| |]; try done.
  destruct Hc as [HR ->]. apply (Hk _ _ HR).
Qed.

Lemma sim_liftE {A} (c : M (gmap loc ptr) A) : simK eq (KVMap.liftE c) (VMap.liftE c).
Proof.
  intros [h r d ms]. unfold KVMap.liftE, VMap.liftE; cbn. by destruct (c h).
Qed.

Lemma sim_loadReadOnly : simK (λ r1 r2, r2 = conv_ro r1) KVMap.loadReadOnly VMap.loadReadOnly.
Proof. intros [h [r|] d ms]; by cbn. Qed.

Lemma sim_read_Store r : simK eq (KVMap.read_Store r) (VMap.read_Store (conv_ro r)).
Proof. by intros [h r0 d ms]. Qed.

Lemma sim_dirty_lookup k : simK eq (KVMap.dirty_lookup k) (VMap.dirty_lookup k).
Proof. by intros [h r0 d ms]. Qed.

Lemma sim_dirty_assign k e : simK eq (KVMap.dirty_assign k e) (VMap.dirty_assign k e).
Proof. by intros [h r0 [d|] ms]. Qed.

Lemma sim_dirty_delete k : simK eq (KVMap.dirty_delete k) (VMap.dirty_delete k).
Proof. by intros [h r0 d ms]. Qed.

Lemma sim_dirty_clear : simK eq KVMap.dirty_clear VMap.dirty_clear.
Proof. by intros [h r0 d ms]. Qed.

Lemma sim_dirty_set d : simK eq (KVMap.dirty_set d) (VMap.dirty_set d).
Proof. by intros [h r0 d0 ms]. Qed.

Lemma sim_dirty_get : simK eq KVMap.dirty_get VMap.dirty_get.
Proof. by intros [h r0 d0 ms]. Qed.

Lemma sim_dirty_len : simK eq KVMap.dirty_len VMap.dirty_len.
Proof. by intros [h r0 d0 ms]. Qed.

Lemma sim_misses_set n : simK eq (KVMap.misses_set n) (VMap.misses_set n).
Proof. by intros [h r0 d0 ms]. Qed.

Lemma sim_misses_get : simK eq KVMap.misses_get VMap.misses_get.
Proof. by intros [h r0 d0 ms]. Qed.

Create HintDb sim discriminated.
#[local] Hint Resolve sim_liftE sim_loadReadOnly sim_read_Store sim_dirty_lookup sim_dirty_assign
  sim_dirty_delete sim_dirty_clear sim_dirty_set sim_dirty_get sim_dirty_len sim_misses_set
  sim_misses_get : sim.

Ltac sim_go :=
  cbn [conv_ro VMap.m VMap.amended];
  match goal with
  | |- simK _ (mret _) (mret _) => by apply sim_ret
  | |- simK _ (_ ≫= _) (_ ≫= _) =>
      first
        [ eapply sim_bind; [solve [eauto with sim]|intros ? ? ?; simplify_eq/=; sim_go]
        | eapply (sim_bind eq); [sim_go|intros ? ? ?; simplify_eq/=; sim_go] ]
  | |- simK _ (match ?x with _ => _ end) _ => destruct x; sim_go
  | |- simK _ _ _ => try solve [eauto with sim]
  end.

Lemma sim_missLocked : simK eq KVMap.missLocked VMap.missLocked.
Proof. unfold KVMap.missLocked, VMap.missLocked. sim_go. Qed.
#[local] Hint Resolve sim_missLocked : sim.

Lemma sim_for_range body1 body2 kes :
  (∀ k e, simK eq (body1 k e) (body2 k e)) →
  simK eq (KVMap.for_range body1 kes) (VMap.for_range body2 kes).
Proof.
  intros Hb. induction kes as [|[k e] kes IH]; cbn [KVMap.for_range VMap.for_range].
  - sim_go.
  - sim_go.
Qed.

Lemma sim_dirtyLocked : simK eq KVMap.dirtyLocked VMap.dirtyLocked.
Proof.
  unfold KVMap.dirtyLocked, VMap.dirtyLocked. sim_go.
  apply sim_for_range. intros k e. sim_go.
Qed.
#[local] Hint Resolve sim_dirtyLocked : sim.

Lemma sim_amend rd : simK eq (KVMap.amend rd) (VMap.amend (conv_ro rd)).
Proof. unfold KVMap.amend, VMap.amend. sim_go. Qed.
#[local] Hint Resolve sim_amend : sim.

Lemma sim_Load k : simK eq (KVMap.Load k) (VMap.Load k).
Proof. unfold KVMap.Load, VMap.Load. sim_go. Qed.

Lemma sim_Swap k v : simK eq (KVMap.Swap k v) (VMap.Swap k v).
Proof. unfold KVMap.Swap, VMap.Swap. sim_go. Qed.

Lemma sim_Clear : simK eq KVMap.Clear VMap.Clear.
Proof. unfold KVMap.Clear, VMap.Clear. sim_go. Qed.

Lemma sim_LoadAndDelete k : simK eq (KVMap.LoadAndDelete k) (VMap.LoadAndDelete k).
Proof. unfold KVMap.LoadAndDelete, VMap.LoadAndDelete. sim_go. Qed.

Lemma sim_CompareAndSwap k old new :
  simK eq (KVMap.CompareAndSwap k old new) (VMap.CompareAndSwap k old new).
Proof. unfold KVMap.CompareAndSwap, VMap.CompareAndSwap. sim_go. Qed.

Lemma sim_CompareAndDelete k old :
  simK eq (KVMap.CompareAndDelete k old) (VMap.CompareAndDelete k old).
Proof.
  unfold KVMap.CompareAndDelete, VMap.CompareAndDelete. sim_go.
Qed.

Lemma sim_Range_loop (f : visitor K) kes : ∀ seen,
  simK eq (KVMap.Range_loop f seen kes) (VMap.Range_loop f seen kes).
Proof.
  induction kes as [|[k e] kes IH]; intros seen; cbn [KVMap.Range_loop VMap.Range_loop].
  - sim_go.
  - sim_go.
Qed.

Lemma sim_Range_read : simK (λ r1 r2, r2 = conv_ro r1) KVMap.Range_read VMap.Range_read.
Proof. unfold KVMap.Range_read, VMap.Range_read. sim_go. Qed.

Lemma sim_Range f : simK eq (KVMap.Range f) (VMap.Range f).
Proof.
  unfold KVMap.Range, VMap.Range, KVMap.Range_in, VMap.Range_in.
  eapply sim_bind; [apply sim_Range_read|]. intros ? ? ->. apply sim_Range_loop.
Qed.

Section with_deref.
Context {T : Type} (deref : addr → T).

Lemma sim_LoadOrStore k v : simK eq (KVMap.LoadOrStore deref k v) (VMap.LoadOrStore deref k v).
Proof. unfold KVMap.LoadOrStore, VMap.LoadOrStore. sim_go. Qed.

Lemma sim_exec (o : op K) : simK eq (KVMap.exec deref o) (VMap.exec deref o).
Proof.
  pose proof sim_Load. pose proof sim_Swap. pose proof sim_Clear. pose proof sim_LoadAndDelete.
  pose proof sim_CompareAndSwap. pose proof sim_CompareAndDelete. pose proof sim_Range.
  pose proof sim_LoadOrStore.
  destruct o; cbn [KVMap.exec VMap.exec];
    unfold KVMap.Store, VMap.Store, KVMap.Delete, VMap.Delete; sim_go.
Qed.

Lemma sim_run (os : list (op K)) : simK eq (KVMap.run deref os) (VMap.run deref os).
Proof.
  pose proof sim_exec.
  induction os as [|o os IH]; cbn [KVMap.run VMap.run].
  - sim_go.
  - sim_go.
Qed.

(** C9: on keys drawn from one comparable type [K], a [KVMap[K, V]] and a
    [VMap[V]] return identical results at every step of every sequence of
    public calls: from their zero values, and from any two states that read
    the same, the two runs return the same list of results (or fail alike). *)
Theorem KVMap_VMap_same_results (os : list (op K)) :
  returned (VMap.run deref os VMap.zero) = returned (KVMap.run deref os KVMap.zero) ∧
  ∀ s, returned (VMap.run deref os (conv s)) = returned (KVMap.run deref os s).
Proof.
  assert (∀ s, returned (VMap.run deref os (conv s)) = returned (KVMap.run deref os s)) as Hs.
  { intros s. pose proof (sim_run os s) as Hs.
    destruct (KVMap.run deref os s), (VMap.run deref os (conv s)); try done.
    cbn. by destruct Hs as [-> _]. }
  split; [apply (Hs KVMap.zero)|done].
Qed.

End with_deref.
End refinement.

(** ** Further properties *)

Section VMap_more.
Import VMap.
Context {key : Type} `{Countable key}.
Implicit Types (s : VMap (key:=key)) (k : key) (e : loc) (v old new : ptr).

Lemma bounded_missed s : bounded (missed s).
Proof.
  unfold missed, promoted, bounded. case_decide; cbn; lia.
Qed.

Lemma bounded_register k e s : bounded s → bounded (register k e s).
Proof.
  unfold bounded, register; cbn. destruct (dirty s) as [d|]; cbn; [|done].
  intros Hb. rewrite map_size_insert. destruct (d !! k); cbn; lia.
Qed.

Lemma bounded_del_cell e s : bounded s → bounded (del_cell e s).
Proof. unfold del_cell. by destruct (cells s !!! e). Qed.

Lemma bounded_amend s s1 : bounded s → amend (snapshot s) s = Ok tt s1 → bounded s1.
Proof.
  intros Hb. rewrite amend_eq. destruct (amended (snapshot s)); [by intros [= <-]|].
  destruct (dirty s) as [d|] eqn:Hd.
  - rewrite (dirtyLocked_Some _ _ Hd). intros [= <-]. unfold bounded in *; cbn. done.
  - destruct (dirtyLocked_None s Hd) as (h' & d' & -> & _). intros [= <-].
    unfold bounded in *; cbn. rewrite Hd in Hb; cbn in Hb. lia.
Qed.

Lemma Load_bounded k s r s' : bounded s → Load k s = Ok r s' → bounded s'.
Proof.
  intros Hb. rewrite Load_eq. destruct (m _ !! k); [by intros [= _ <-]|].
  destruct (amended _); intros [= _ <-]; [apply bounded_missed|done].
Qed.

Lemma LoadAndDelete_bounded k s r s' : bounded s → LoadAndDelete k s = Ok r s' → bounded s'.
Proof.
  intros Hb. rewrite LoadAndDelete_eq. destruct (m _ !! k).
  { intros [= _ <-]. by apply bounded_del_cell. }
  destruct (amended _); [|by intros [= _ <-]].
  destruct (overlay s k); intros [= _ <-];
    [apply bounded_del_cell|]; apply bounded_missed.
Qed.

Lemma new_bounded k v s1 :
  bounded s1 →
  bounded (register k (fresh (dom (cells s1))) (set_cell (fresh (dom (cells s1))) v s1)).
Proof. intros Hb. by apply bounded_register. Qed.

Lemma Swap_bounded k v s r s' : bounded s → Swap k v s = Ok r s' → bounded s'.
Proof.
  intros Hb. rewrite Swap_eq. destruct (m _ !! k).
  { case_decide; [|by intros [= _ <-]]. destruct (dirty s) eqn:Hd; [|done].
    intros [= _ <-]. by apply (bounded_register k _ (set_cell _ v s)). }
  destruct (overlay s k); [by intros [= _ <-]|].
  destruct (amend _ s) as [[] s1| |] eqn:Ha; [|done..]. cbn.
  destruct (dirty s1) eqn:Hd; [|done]. intros [= _ <-].
  apply new_bounded. by eapply bounded_amend.
Qed.

Lemma CompareAndSwap_bounded k old new s r s' :
  bounded s → CompareAndSwap k old new s = Ok r s' → bounded s'.
Proof.
  intros Hb. rewrite CompareAndSwap_eq. destruct (m _ !! k).
  { by case_decide; intros [= _ <-]. }
  destruct (amended _); [|by intros [= _ <-]].
  destruct (overlay s k); [|by intros [= _ <-]].
  case_decide; intros [= _ <-]; apply bounded_missed.
Qed.

Lemma CompareAndDelete_bounded k old s r s' :
  bounded s → CompareAndDelete k old s = Ok r s' → bounded s'.
Proof.
  intros Hb. rewrite CompareAndDelete_eq. destruct (m _ !! k).
  { by case_decide; intros [= _ <-]. }
  destruct (amended _); [|by intros [= _ <-]].
  destruct (overlay s k); [|intros [= _ <-]; apply bounded_missed].
  case_decide; intros [= _ <-]; apply (bounded_missed s).
Qed.

Lemma Clear_bounded s r s' : bounded s → Clear s = Ok r s' → bounded s'.
Proof.
  intros Hb. rewrite Clear_eq. case_match; intros [= _ <-]; [done|].
  unfold bounded; cbn. lia.
Qed.

Lemma Range_bounded (f : visitor key) s r s' : bounded s → Range f s = Ok r s' → bounded s'.
Proof.
  intros Hb. unfold Range, Range_in. unfold mbind at 1; unfold M_bind at 1.
  rewrite Range_read_eq. destruct (amended _).
  - destruct (Range_loop_state f (map_to_list (as_map (dirty s))) [] (promoted s)) as [c Hc].
    cbn. rewrite Hc. intros [= _ <-]. unfold bounded, promoted; cbn. lia.
  - destruct (Range_loop_state f (map_to_list (m (snapshot s))) [] s) as [c Hc].
    rewrite Hc. by intros [= _ <-].
Qed.

(** After [Clear] no key is found. *)
Lemma Clear_Load s k :
  ∃ s', Clear s = Ok tt s' ∧ m (snapshot s') = ∅ ∧ amended (snapshot s') = false.
Proof.
  rewrite Clear_eq. destruct (bool_decide _ && negb _) eqn:E.
  - exists s. split; [done|]. apply andb_true_iff in E as [Hsz Ha].
    apply bool_decide_eq_true in Hsz. apply negb_true_iff in Ha.
    split; [by apply map_size_empty_iff|done].
  - eexists. split; [done|]. done.
Qed.

End VMap_more.

Section VMap_more_any.
Import VMap.
Context {key : Type} `{Countable key} {T : Type} (deref : addr → T).
Implicit Types (s : VMap (key:=key)) (k : key) (e : loc) (v old new : ptr).

Lemma LoadOrStore_bounded k v s r s' :
  bounded s → LoadOrStore deref k v s = Ok r s' → bounded s'.
Proof.
  intros Hb. rewrite LoadOrStore_eq. destruct (m _ !! k) as [e|].
  { destruct (cells s !!! e); [by intros [= _ <-]| |by intros [= _ <-]].
    destruct (dirty s) eqn:Hd; [|done].
    intros [= _ <-]. by apply (bounded_register k _ (set_cell _ v s)). }
  destruct (overlay s k) as [e|].
  { destruct (cells s !!! e); intros [= _ <-]; apply bounded_missed. }
  destruct (amend _ s) as [[] s1| |] eqn:Ha; [|done..]. cbn.
  destruct (dirty s1) eqn:Hd; [|done]. intros [= _ <-].
  apply new_bounded. by eapply bounded_amend.
Qed.

Lemma exec_bounded (o : op key) s r s' :
  bounded s → exec deref o s = Ok r s' → bounded s'.
Proof.
  intros Hb. destruct o; cbn [exec]; unfold Store, Delete, mbind, M_bind, mret, M_ret.
  - destruct (Load k s) as [[] s1| |] eqn:E; [|done..]. intros [= _ <-].
    by eapply Load_bounded.
  - destruct (Swap k value s) as [[] s1| |] eqn:E; [|done..]. intros [= _ <-].
    by eapply Swap_bounded.
  - destruct (LoadOrStore deref k value s) as [[] s1| |] eqn:E; [|done..]. intros [= _ <-].
    by eapply LoadOrStore_bounded.
  - destruct (LoadAndDelete k s) as [[] s1| |] eqn:E; [|done..]. intros [= _ <-].
    by eapply LoadAndDelete_bounded.
  - destruct (LoadAndDelete k s) as [[] s1| |] eqn:E; [|done..]. intros [= _ <-].
    by eapply LoadAndDelete_bounded.
  - destruct (Swap k value s) as [[] s1| |] eqn:E; [|done..]. intros [= _ <-].
    by eapply Swap_bounded.
  - destruct (CompareAndSwap k old new s) as [? s1| |] eqn:E; [|done..]. intros [= _ <-].
    by eapply CompareAndSwap_bounded.
  - destruct (CompareAndDelete k old s) as [? s1| |] eqn:E; [|done..]. intros [= _ <-].
    by eapply CompareAndDelete_bounded.
  - destruct (Range f s) as [? s1| |] eqn:E; [|done..]. intros [= _ <-].
    by eapply Range_bounded.
  - destruct (Clear s) as [? s1| |] eqn:E; [|done..]. intros [= _ <-].
    by eapply Clear_bounded.
Qed.

(** X1: in every reachable state the miss count is at most the length of the
    dirty map (0 while the dirty map is unset). *)
Theorem misses_bounded s :
  reachable deref s → misses s ≤ from_option size 0 (dirty s).
Proof.
  induction 1 as [|s o r s' _ IH _ Hex]; [cbn; lia|]. by eapply exec_bounded.
Qed.

(** X2: in a reachable state every public call with handles returns (no
    assignment to a nil dirty map, no retry loop out of attempts), in a
    reachable state. *)
Theorem calls_with_handles_return (o : op key) s :
  reachable deref s → valid o = true →
  ∃ r s', exec deref o s = Ok r s' ∧ reachable deref s'.
Proof.
  intros Hr Hv. destruct (exec_wf deref o s (reachable_wf deref s Hr) Hv) as (r & s' & Hex & _).
  exists r, s'. split; [done|]. by eapply reachable_step.
Qed.

(** X3: in any state [Clear] returns, and afterwards [Load] finds no key
    and [Range] calls its callback for none. *)
Theorem Clear_empties k (f : visitor key) s :
  ∃ s', Clear s = Ok tt s' ∧ returned (Load k s') = Some (pnil, false) ∧
        returned (Range f s') = Some [].
Proof.
  destruct (Clear_Load s k) as (s' & Hc & Hm & Ha). exists s'. split; [done|]. split.
  - rewrite Load_returned. unfold cell_of. by rewrite Hm, Ha, lookup_empty.
  - unfold Range, Range_in. unfold mbind at 1; unfold M_bind at 1.
    rewrite Range_read_eq, Ha, Hm, map_to_list_empty. done.
Qed.

(** X4: in a reachable state, after [Store(k, v)] with a handle [v],
    [Load(k)] returns [(v, true)], or [(nil, false)] when [v] is nil. *)
Theorem Load_after_Store k v s :
  reachable deref s → handle v = true →
  ∃ s1, Store k v s = Ok tt s1 ∧
        returned (Load k s1) = Some (if decide (v = pnil) then (pnil, false) else (v, true)).
Proof.
  intros Hr Hv%handle_ne.
  destruct (Store_Load k v s (reachable_wf deref s Hr) Hv) as (s1 & Hs & _ & Hl).
  exists s1. split; [done|]. rewrite Hl. f_equal. by destruct v.
Qed.

(** X5: in a reachable state [LoadAndDelete(k)] returns what [Load(k)]
    returns in that state, and afterwards [Load(k)] finds nothing. *)
Theorem LoadAndDelete_removes k s :
  reachable deref s →
  ∃ r s', LoadAndDelete k s = Ok r s' ∧ returned (Load k s) = Some r ∧
          returned (Load k s') = Some (pnil, false).
Proof.
  intros Hr. pose proof (reachable_wf deref s Hr) as Hwf.
  rewrite LoadAndDelete_eq, !Load_returned. unfold cell_of.
  destruct (m (snapshot s) !! k) as [e|] eqn:Hk.
  - do 2 eexists. split; [done|]. split; [done|].
    rewrite Load_returned. unfold cell_of, del_cell.
    destruct (cells s !!! e) eqn:He; cbn; fold (snapshot s); rewrite Hk; cbn;
      rewrite ?lookup_total_insert_eq, ?He; done.
  - destruct (amended (snapshot s)) eqn:Ha.
    + assert (wf (missed (drop k s))) as Hwf1 by (apply wf_missed; [by apply wf_drop|done]).
      assert (cell_of (missed (drop k s)) k = None) as Hc.
      { unfold missed. case_decide.
        - unfold cell_of, drop, overlay; cbn. fold (snapshot s). rewrite Hk, Ha.
          destruct (dirty s); cbn; [apply lookup_delete_eq|done].
        - unfold cell_of, promoted, drop, as_map; cbn.
          destruct (dirty s); cbn; [by rewrite lookup_delete_eq|by rewrite lookup_empty]. }
      destruct (overlay s k) as [e|] eqn:Ho.
      * do 2 eexists. split; [done|]. split; [done|].
        rewrite Load_returned.
        assert (cell_of (del_cell e (missed (drop k s))) k = None) as ->; [|done].
        rewrite <- Hc. unfold del_cell. by destruct (cells _ !!! e).
      * do 2 eexists. split; [done|]. split; [done|]. rewrite Load_returned. by rewrite Hc.
    + do 2 eexists. split; [done|]. split; [done|].
      rewrite Load_returned. unfold cell_of. by rewrite Hk, Ha.
Qed.

(** X6: in every reachable state an amended snapshot has a dirty map; a set
    dirty map holds every snapshot cell that is not expunged, under the
    same key; no cell of the dirty map is expunged; and a snapshot that is
    not amended has an empty or unset dirty map. *)
Theorem overlay_covers_snapshot k e s :
  reachable deref s →
  (amended (snapshot s) = true → is_Some (dirty s)) ∧
  (is_Some (dirty s) → m (snapshot s) !! k = Some e → cells s !!! e ≠ expunged →
   overlay s k = Some e) ∧
  (overlay s k = Some e → cells s !!! e ≠ expunged) ∧
  (amended (snapshot s) = false → overlay s k = None).
Proof.
  intros Hr. pose proof (reachable_wf deref s Hr) as Hwf.
  split; [apply (wf_amended _ Hwf)|]. split; [apply (wf_copy _ Hwf)|].
  split; [apply (wf_dirty _ Hwf)|]. intros Ha. by apply (wf_clean _ Hwf).
Qed.

End VMap_more_any.

(** ** What each call does to the lookups *)

Section VMap_contents.
Import VMap.
Context {key : Type} `{Countable key}.
Implicit Types (s : VMap (key:=key)) (k : key) (e : loc) (v old new : ptr).

Lemma Load_contents k s : returned (Load k s) = Some (contents s k).
Proof. apply Load_returned. Qed.

Lemma cell_of_inj s k1 k2 e :
  wf s → cell_of s k1 = Some e → cell_of s k2 = Some e → k1 = k2.
Proof.
  intros Hwf. unfold cell_of.
  destruct (m (snapshot s) !! k1) as [e1|] eqn:H1, (m (snapshot s) !! k2) as [e2|] eqn:H2.
  - intros [= ->] [= ->]. by eapply wf_inj_read.
  - intros [= ->]. destruct (amended (snapshot s)); [|done]. intros Ho.
    assert (overlay s k1 = Some e) as Ho1.
    { apply (wf_copy _ Hwf); [|done|by eapply wf_dirty].
      unfold overlay in Ho. by destruct (dirty s). }
    by eapply wf_inj_dirty.
  - destruct (amended (snapshot s)); [|done]. intros Ho [= ->].
    assert (overlay s k2 = Some e) as Ho2.
    { apply (wf_copy _ Hwf); [|done|by eapply wf_dirty].
      unfold overlay in Ho. by destruct (dirty s). }
    by eapply wf_inj_dirty.
  - destruct (amended (snapshot s)); [|done]. by eapply wf_inj_dirty.
Qed.

Lemma cell_of_set_cell e v s k : cell_of (set_cell e v s) k = cell_of s k.
Proof. done. Qed.

Lemma contents_set_cell e v s k k' :
  wf s → cell_of s k = Some e →
  contents (set_cell e v s) k' = if decide (k' = k) then loaded v else contents s k'.
Proof.
  intros Hwf Hk. unfold contents. rewrite cell_of_set_cell. case_decide as Hkk.
  - subst. rewrite Hk. cbn. by rewrite lookup_total_insert_eq.
  - destruct (cell_of s k') as [e'|] eqn:Hk'; [|done]. cbn.
    rewrite lookup_total_insert_ne; [done|]. intros ->. destruct Hkk. by eapply cell_of_inj.
Qed.

Lemma contents_del_cell e s k k' :
  wf s → cell_of s k = Some e →
  contents (del_cell e s) k' = if decide (k' = k) then (pnil, false) else contents s k'.
Proof.
  intros Hwf Hk. unfold del_cell. destruct (cells s !!! e) eqn:He.
  - case_decide; [|done]. subst. unfold contents. rewrite Hk. cbn. by rewrite He.
  - case_decide; [|done]. subst. unfold contents. rewrite Hk. cbn. by rewrite He.
  - by rewrite (contents_set_cell e pnil s k k').
Qed.

Lemma contents_promoted s k :
  wf s → amended (snapshot s) = true → contents (promoted s) k = contents s k.
Proof. intros Hwf Ha. unfold contents. cbn. by apply cell_of_promoted. Qed.

Lemma contents_missed s k :
  wf s → amended (snapshot s) = true → contents (missed s) k = contents s k.
Proof.
  intros Hwf Ha. unfold missed. case_decide; [done|]. by apply contents_promoted.
Qed.

Lemma contents_drop k s k' :
  m (snapshot s) !! k = None →
  contents (drop k s) k' = if decide (k' = k) then (pnil, false) else contents s k'.
Proof.
  intros Hk. unfold contents, cell_of, drop, overlay; cbn. fold (snapshot s).
  case_decide as Hkk.
  - subst. rewrite Hk. destruct (amended _); [|done].
    destruct (dirty s); cbn; [|done]. by rewrite lookup_delete_eq.
  - destruct (m (snapshot s) !! k'); [done|]. destruct (amended _); [|done].
    destruct (dirty s); cbn; [|done]. by rewrite lookup_delete_ne.
Qed.

Lemma contents_absent s k : cell_of s k = None → contents s k = (pnil, false).
Proof. unfold contents. by intros ->. Qed.

(** The key of an expunged snapshot cell comes back. *)
Lemma contents_unexpunge k e v s k' :
  wf s → m (snapshot s) !! k = Some e → cells s !!! e = expunged →
  contents (set_cell e v (register k e s)) k' =
  if decide (k' = k) then loaded v else contents s k'.
Proof.
  intros Hwf Hk He. unfold contents, cell_of, register, set_cell, overlay; cbn.
  fold (snapshot s). case_decide as Hkk.
  - subst. rewrite Hk. cbn. by rewrite lookup_total_insert_eq.
  - destruct (m (snapshot s) !! k') as [e'|] eqn:Hk'; cbn.
    + rewrite lookup_total_insert_ne; [done|]. intros ->. destruct Hkk.
      by eapply wf_inj_read.
    + destruct (amended (snapshot s)); [|done].
      destruct (dirty s) as [d|] eqn:Hd; cbn; [|done].
      rewrite lookup_insert_ne by done.
      destruct (d !! k') as [e'|] eqn:Hd'; cbn; [|done].
      rewrite lookup_total_insert_ne; [done|]. intros Heq.
      apply (wf_dirty _ Hwf k' e'); [|by rewrite <- Heq]. unfold overlay. by rewrite Hd.
Qed.

(** A key that neither map has gets a fresh cell. *)
Lemma contents_new k v s k' :
  wf s → amended (snapshot s) = true → m (snapshot s) !! k = None → overlay s k = None →
  contents (register k (fresh (dom (cells s))) (set_cell (fresh (dom (cells s))) v s)) k' =
  if decide (k' = k) then loaded v else contents s k'.
Proof.
  intros Hwf Ha Hk Ho. destruct (wf_amended _ Hwf Ha) as [d Hd].
  set (e := fresh (dom (cells s))).
  assert (e ∉ dom (cells s)) as Hfresh by apply is_fresh.
  unfold contents, cell_of, register, set_cell, overlay; cbn. fold (snapshot s).
  rewrite Ha, Hd. cbn. case_decide as Hkk.
  - subst. rewrite Hk, lookup_insert_eq. cbn. by rewrite lookup_total_insert_eq.
  - destruct (m (snapshot s) !! k') as [e'|] eqn:Hk'; cbn.
    + rewrite lookup_total_insert_ne; [done|]. intros <-.
      apply Hfresh, (wf_alloc _ Hwf k'). eauto.
    + rewrite lookup_insert_ne by done.
      destruct (d !! k') as [e'|] eqn:Hd'; cbn; [|done].
      rewrite lookup_total_insert_ne; [done|]. intros <-.
      apply Hfresh, (wf_alloc _ Hwf k'). right. unfold overlay. by rewrite Hd.
Qed.

(** Rebuilding the dirty map changes no lookup. *)
Lemma contents_amend s :
  wf s → ∃ s1, amend (snapshot s) s = Ok tt s1 ∧ ∀ k, contents s1 k = contents s k.
Proof.
  intros Hwf. rewrite amend_eq.
  destruct (amended (snapshot s)) eqn:Ha; [by exists s|].
  destruct (dirty s) as [d|] eqn:Hd.
  - rewrite (dirtyLocked_Some _ _ Hd). eexists; split; [done|]. intros k.
    unfold contents, cell_of; cbn. fold (snapshot s). rewrite Ha.
    destruct (m (snapshot s) !! k); [done|]. cbn. fold (overlay s k).
    by rewrite (wf_clean _ Hwf Ha).
  - destruct (dirtyLocked_None s Hd) as (h' & d' & -> & Hh & Hd' & Hdom).
    eexists; split; [done|]. intros k.
    unfold contents, cell_of, overlay; cbn. fold (snapshot s). rewrite Ha.
    destruct (m (snapshot s) !! k) as [e|] eqn:Hk; cbn.
    + rewrite Hh. case_decide as Hc; [|done]. destruct Hc as [_ ->]. done.
    + by rewrite Hd', Hk.
Qed.

Lemma contents_loaded s k : ∃ p, contents s k = loaded p.
Proof.
  unfold contents. destruct (cell_of s k); cbn; [by eexists|]. by exists pnil.
Qed.

Lemma swapped_loaded p : p ≠ expunged → swapped p = loaded p.
Proof. unfold swapped. destruct p; naive_solver. Qed.

Lemma holds_loaded old p : holds old p ↔ loaded p = (old, true).
Proof. unfold holds. rewrite loaded_eq_true. naive_solver. Qed.

Lemma Load_effect k s :
  wf s →
  ∃ s', Load k s = Ok (contents s k) s' ∧ wf s' ∧ ∀ k', contents s' k' = contents s k'.
Proof.
  intros Hwf. rewrite Load_eq. unfold contents at 1, cell_of.
  destruct (m (snapshot s) !! k) as [e|]; [by eauto|].
  destruct (amended (snapshot s)) eqn:Ha; [|by eauto].
  eexists. split; [done|]. split; [by apply wf_missed|]. intros k'. by apply contents_missed.
Qed.

Lemma Swap_effect k v s :
  wf s → v ≠ expunged →
  ∃ s', Swap k v s = Ok (contents s k) s' ∧ wf s' ∧
        ∀ k', contents s' k' = if decide (k' = k) then loaded v else contents s k'.
Proof.
  intros Hwf Hv. destruct (Swap_wf k v s Hwf Hv) as (r & s' & Hs & Hwf').
  rewrite Hs. rewrite Swap_eq in Hs.
  enough (r = contents s k ∧
          ∀ k', contents s' k' = if decide (k' = k) then loaded v else contents s k')
    as [-> ?] by eauto.
  destruct (m (snapshot s) !! k) as [e|] eqn:Hk.
  - assert (cell_of s k = Some e) as Hc by (unfold cell_of; by rewrite Hk).
    unfold contents at 1. rewrite Hc. cbn. case_decide as He.
    + destruct (dirty s) eqn:Hd; simplify_eq. split; [by rewrite He|].
      intros k'. by apply contents_unexpunge.
    + simplify_eq. split; [by apply swapped_loaded|].
      intros k'. by apply contents_set_cell.
  - destruct (overlay s k) as [e|] eqn:Ho.
    + pose proof (wf_overlay_amended _ _ _ Hwf Ho) as Ha.
      assert (cell_of s k = Some e) as Hc by (unfold cell_of; by rewrite Hk, Ha).
      unfold contents at 1. rewrite Hc. cbn. simplify_eq.
      split; [apply swapped_loaded; by eapply wf_dirty|].
      intros k'. by apply contents_set_cell.
    + destruct (wf_amend s Hwf) as (s2 & Hs2 & Hwf2 & Ha2 & Hm2 & Ho2).
      destruct (contents_amend s Hwf) as (s2' & Hs2' & Hc2).
      rewrite Hs2 in Hs2'. simplify_eq. rewrite Hs2 in Hs. cbn in Hs.
      destruct (wf_amended _ Hwf2 Ha2) as [d Hd]. rewrite Hd in Hs. simplify_eq.
      split.
      * rewrite contents_absent; [done|]. unfold cell_of. rewrite Hk, Ho.
        by destruct (amended (snapshot s)).
      * intros k'. rewrite contents_new; try done; [|congruence|by apply Ho2].
        case_decide; [done|]. apply Hc2.
Qed.

Lemma LoadAndDelete_effect k s :
  wf s →
  ∃ s', LoadAndDelete k s = Ok (contents s k) s' ∧ wf s' ∧
        ∀ k', contents s' k' = if decide (k' = k) then (pnil, false) else contents s k'.
Proof.
  intros Hwf. destruct (LoadAndDelete_wf k s Hwf) as (r & s' & Hs & Hwf').
  rewrite Hs. rewrite LoadAndDelete_eq in Hs.
  enough (r = contents s k ∧
          ∀ k', contents s' k' = if decide (k' = k) then (pnil, false) else contents s k')
    as [-> ?] by eauto.
  unfold contents at 1, cell_of. destruct (m (snapshot s) !! k) as [e|] eqn:Hk.
  - simplify_eq. split; [done|]. intros k'. apply contents_del_cell; [done|].
    unfold cell_of. by rewrite Hk.
  - destruct (amended (snapshot s)) eqn:Ha.
    + assert (wf (drop k s)) as Hwfd by by apply wf_drop.
      assert (wf (missed (drop k s))) as Hwf1 by by apply wf_missed.
      assert (∀ k', contents (missed (drop k s)) k' =
                    if decide (k' = k) then (pnil, false) else contents s k') as Hc1.
      { intros k'. rewrite contents_missed by done. by apply contents_drop. }
      destruct (overlay s k) as [e|] eqn:Ho; simplify_eq; (split; [done|]); [|done].
      assert (del_cell e (missed (drop k s)) = missed (drop k (del_cell e s))) as ->.
      { unfold del_cell. rewrite cells_missed. cbn.
        destruct (cells s !!! e); try done. unfold missed, promoted; cbn. by case_decide. }
      assert (m (snapshot (del_cell e s)) = m (snapshot s) ∧
              amended (snapshot (del_cell e s)) = amended (snapshot s)) as [Hm' Ha'].
      { unfold del_cell. by destruct (cells s !!! e). }
      assert (wf (del_cell e s)) as Hwf2 by by apply wf_del_cell.
      intros k'. rewrite contents_missed; [|apply wf_drop; [done|congruence]|].
      2:{ change (amended (snapshot (drop k (del_cell e s))))
            with (amended (snapshot (del_cell e s))). congruence. }
      rewrite contents_drop by congruence. case_decide as Hkk; [done|].
      rewrite (contents_del_cell e s k k'); [by rewrite decide_False|done|].
      unfold cell_of. by rewrite Hk, Ha.
    + simplify_eq. split; [done|]. intros k'. case_decide; [|done]. subst.
      unfold contents, cell_of. by rewrite Hk, Ha.
Qed.

Lemma CompareAndSwap_effect k old new s :
  wf s → new ≠ expunged →
  ∃ s', CompareAndSwap k old new s = Ok (bool_decide (contents s k = (old, true))) s' ∧
        wf s' ∧
        ∀ k', contents s' k' =
              if decide (k' = k ∧ contents s k = (old, true)) then loaded new
              else contents s k'.
Proof.
  intros Hwf Hv. destruct (CompareAndSwap_wf k old new s Hwf Hv) as (r & s' & Hs & Hwf').
  rewrite Hs. rewrite CompareAndSwap_eq in Hs.
  enough (r = bool_decide (contents s k = (old, true)) ∧
          ∀ k', contents s' k' =
                if decide (k' = k ∧ contents s k = (old, true)) then loaded new
                else contents s k')
    as [-> ?] by eauto.
  assert (∀ e, cell_of s k = Some e → contents s k = loaded (cells s !!! e)) as Hce.
  { intros e He. unfold contents. by rewrite He. }
  destruct (m (snapshot s) !! k) as [e|] eqn:Hk.
  - assert (cell_of s k = Some e) as Hc by (unfold cell_of; by rewrite Hk).
    rewrite (Hce e Hc). case_decide as Hh; injection Hs as <- <-.
    + apply holds_loaded in Hh. rewrite bool_decide_eq_true_2 by done. split; [done|].
      intros k'. rewrite (contents_set_cell e new s k k') by done.
      repeat case_decide; naive_solver.
    + rewrite holds_loaded in Hh. rewrite bool_decide_eq_false_2 by done. split; [done|].
      intros k'. rewrite decide_False; naive_solver.
  - destruct (amended (snapshot s)) eqn:Ha.
    + destruct (overlay s k) as [e|] eqn:Ho.
      * assert (cell_of s k = Some e) as Hc by (unfold cell_of; by rewrite Hk, Ha).
        rewrite (Hce e Hc). case_decide as Hh; injection Hs as <- <-.
        -- assert (wf (set_cell e new s)) as Hwf1.
           { apply wf_set_cell; [done| |done]. by eapply wf_dirty. }
           apply holds_loaded in Hh. rewrite bool_decide_eq_true_2 by done. split; [done|].
           intros k'. rewrite contents_missed by done.
           rewrite (contents_set_cell e new s k k') by done.
           repeat case_decide; naive_solver.
        -- rewrite holds_loaded in Hh. rewrite bool_decide_eq_false_2 by done.
           split; [done|]. intros k'. rewrite contents_missed by done.
           rewrite decide_False; naive_solver.
      * injection Hs as <- <-. rewrite (contents_absent s k) by (unfold cell_of; by rewrite Hk, Ha).
        rewrite bool_decide_eq_false_2 by done.
        split; [done|]. intros k'. rewrite decide_False; naive_solver.
    + injection Hs as <- <-. rewrite (contents_absent s k) by (unfold cell_of; by rewrite Hk, Ha).
      rewrite bool_decide_eq_false_2 by done.
      split; [done|]. intros k'. rewrite decide_False; naive_solver.
Qed.

Lemma CompareAndDelete_effect k old s :
  wf s →
  ∃ s', CompareAndDelete k old s = Ok (bool_decide (contents s k = (old, true))) s' ∧
        wf s' ∧
        ∀ k', contents s' k' =
              if decide (k' = k ∧ contents s k = (old, true)) then (pnil, false)
              else contents s k'.
Proof.
  intros Hwf. destruct (CompareAndDelete_wf k old s Hwf) as (r & s' & Hs & Hwf').
  rewrite Hs. rewrite CompareAndDelete_eq in Hs.
  enough (r = bool_decide (contents s k = (old, true)) ∧
          ∀ k', contents s' k' =
                if decide (k' = k ∧ contents s k = (old, true)) then (pnil, false)
                else contents s k')
    as [-> ?] by eauto.
  assert (∀ e, cell_of s k = Some e → contents s k = loaded (cells s !!! e)) as Hce.
  { intros e He. unfold contents. by rewrite He. }
  destruct (m (snapshot s) !! k) as [e|] eqn:Hk.
  - assert (cell_of s k = Some e) as Hc by (unfold cell_of; by rewrite Hk).
    rewrite (Hce e Hc). case_decide as Hh; injection Hs as <- <-.
    + apply holds_loaded in Hh. rewrite bool_decide_eq_true_2 by done. split; [done|].
      intros k'. rewrite (contents_set_cell e pnil s k k') by done.
      repeat case_decide; naive_solver.
    + rewrite holds_loaded in Hh. rewrite bool_decide_eq_false_2 by done. split; [done|].
      intros k'. rewrite decide_False; naive_solver.
  - destruct (amended (snapshot s)) eqn:Ha.
    + assert (wf (missed s)) as Hwfm by by apply wf_missed.
      destruct (overlay s k) as [e|] eqn:Ho.
      * assert (cell_of s k = Some e) as Hc by (unfold cell_of; by rewrite Hk, Ha).
        rewrite (Hce e Hc). case_decide as Hh; injection Hs as <- <-.
        -- apply holds_loaded in Hh. rewrite bool_decide_eq_true_2 by done. split; [done|].
           intros k'.
           rewrite (contents_set_cell e pnil (missed s) k k');
             [|done|by apply cell_of_missed_overlay].
           rewrite contents_missed by done.
           repeat case_decide; naive_solver.
        -- rewrite holds_loaded in Hh. rewrite bool_decide_eq_false_2 by done.
           split; [done|]. intros k'. rewrite contents_missed by done.
           rewrite decide_False; naive_solver.
      * injection Hs as <- <-. rewrite (contents_absent s k) by (unfold cell_of; by rewrite Hk, Ha).
        rewrite bool_decide_eq_false_2 by done.
        split; [done|]. intros k'. rewrite contents_missed by done.
        rewrite decide_False; naive_solver.
    + injection Hs as <- <-. rewrite (contents_absent s k) by (unfold cell_of; by rewrite Hk, Ha).
      rewrite bool_decide_eq_false_2 by done.
      split; [done|]. intros k'. rewrite decide_False; naive_solver.
Qed.

Lemma Clear_effect s :
  wf s → ∃ s', Clear s = Ok tt s' ∧ wf s' ∧ ∀ k', contents s' k' = (pnil, false).
Proof.
  intros Hwf. destruct (Clear_wf s Hwf) as ([] & s' & Hs & Hwf').
  exists s'. split; [done|]. split; [done|]. intros k'.
  destruct (Clear_Load s k') as (s1 & Hs1 & Hm & Ha). rewrite Hs in Hs1. injection Hs1 as <-.
  apply contents_absent. unfold cell_of. by rewrite Hm, Ha, lookup_empty.
Qed.

End VMap_contents.

Section VMap_range_contents.
Import VMap.
Context {key : Type} `{Countable key}.
Implicit Types (s : VMap (key:=key)) (k : key) (e : loc) (v old new : ptr).

Lemma Range_loop_visit (f : visitor key) s kes : ∀ seen,
  Range_loop f seen kes s = Ok (plain_visit f seen (live s kes)) s.
Proof.
  induction kes as [|[k e] kes IH]; intros seen; cbn [Range_loop]; [done|].
  unfold mbind at 1; unfold M_bind at 1. rewrite liftE_load.
  unfold live in *; cbn. destruct (cells s !!! e) eqn:He; cbn; try apply IH.
  destruct (f seen k (ref a)); [apply IH|done].
Qed.

Lemma elem_of_live s kes k a :
  (k, a) ∈ live s kes ↔ ∃ e, (k, e) ∈ kes ∧ cells s !!! e = ref a.
Proof.
  unfold live. rewrite list_elem_of_omap. split.
  - intros ([k' e] & Hin & Hm). cbn in Hm. destruct (cells s !!! e) eqn:He; simplify_eq. eauto.
  - intros (e & Hin & He). exists (k, e). split; [done|]. cbn. by rewrite He.
Qed.

Lemma NoDup_live s kes : NoDup kes.*1 → NoDup (live s kes).
Proof.
  intros Hnd. apply (NoDup_fmap_1 fst). apply (sublist_NoDup _ (kes.*1)); [done|].
  clear Hnd. induction kes as [|[k e] kes IH]; [done|].
  unfold live in *; cbn. destruct (cells s !!! e); cbn;
    [by apply sublist_cons..|by apply sublist_skip].
Qed.

Lemma Range_effect (order : gmap key loc → list (key * loc)) (f : visitor key) s :
  wf s → (∀ mp, order mp ≡ₚ map_to_list mp) →
  ∃ s' l, Range_in order f s = Ok (plain_visit f [] l) s' ∧ wf s' ∧
    (∀ k', contents s' k' = contents s k') ∧ NoDup l ∧
    (∀ k a, (k, a) ∈ l ↔ contents s k = (ref a, true)).
Proof.
  intros Hwf Hord.
  set (s' := if amended (snapshot s) then promoted s else s).
  assert (Range_read s = Ok (snapshot s') s') as Hread.
  { rewrite Range_read_eq. unfold s'. by destruct (amended (snapshot s)). }
  assert (cells s' = cells s) as Hcells by (unfold s'; by destruct (amended (snapshot s))).
  exists s', (live s' (order (m (snapshot s')))).
  split; [|split; [|split; [|split]]].
  - unfold Range_in. unfold mbind at 1; unfold M_bind at 1. rewrite Hread.
    apply Range_loop_visit.
  - unfold s'. destruct (amended (snapshot s)) eqn:Ha; [by apply wf_promoted|done].
  - intros k'. unfold s'. destruct (amended (snapshot s)) eqn:Ha; [|done].
    by apply contents_promoted.
  - apply NoDup_live. rewrite Hord. apply NoDup_fst_map_to_list.
  - intros k a. rewrite elem_of_live. setoid_rewrite Hord.
    setoid_rewrite elem_of_map_to_list.
    pose proof (Load_via_Range_read s k Hwf) as Hl. rewrite Load_contents in Hl.
    injection Hl as ->. fold s'. rewrite <- Hcells.
    destruct (m (snapshot s') !! k) as [e|]; cbn.
    + split.
      * intros (e' & [= <-] & ->). done.
      * intros [= Hl%loaded_eq_true]. exists e. naive_solver.
    + split; [by intros (? & ? & _)|done].
Qed.

End VMap_range_contents.

Section VMap_contents_any.
Import VMap.
Context {key : Type} `{Countable key} {T : Type} (deref : addr → T).
Implicit Types (s : VMap (key:=key)) (k : key) (e : loc) (v old new : ptr).

Lemma LoadOrStore_effect k v s :
  wf s → v ≠ expunged →
  ∃ r s', LoadOrStore deref k v s = Ok r s' ∧ wf s' ∧
    match contents s k with
    | (ref a, true) =>
        r = (any_val (deref a), true) ∧ ∀ k', contents s' k' = contents s k'
    | _ =>
        r = (any_ptr v, false) ∧
        ∀ k', contents s' k' = if decide (k' = k) then loaded v else contents s k'
    end.
Proof.
  intros Hwf Hv. destruct (LoadOrStore_wf deref k v s Hwf Hv) as (r & s' & Hs & Hwf').
  exists r, s'. split; [done|]. split; [done|]. rewrite LoadOrStore_eq in Hs.
  destruct (m (snapshot s) !! k) as [e|] eqn:Hk.
  - assert (cell_of s k = Some e) as Hc by (unfold cell_of; by rewrite Hk).
    unfold contents at 1. rewrite Hc; cbn.
    destruct (cells s !!! e) eqn:He; cbn.
    + injection Hs as <- <-. split; [done|]. intros k'. by apply contents_set_cell.
    + destruct (dirty s); [|done]. injection Hs as <- <-. split; [done|].
      intros k'. by apply contents_unexpunge.
    + by injection Hs as <- <-.
  - destruct (overlay s k) as [e|] eqn:Ho.
    + pose proof (wf_overlay_amended _ _ _ Hwf Ho) as Ha.
      assert (cell_of s k = Some e) as Hc by (unfold cell_of; by rewrite Hk, Ha).
      unfold contents at 1. rewrite Hc; cbn.
      destruct (cells s !!! e) eqn:He; cbn.
      * injection Hs as <- <-. split; [done|]. intros k'.
        rewrite contents_missed; [by apply contents_set_cell| |done].
        apply wf_set_cell; [done| |done]. by rewrite He.
      * by destruct (wf_dirty _ Hwf _ _ Ho).
      * injection Hs as <- <-. split; [done|]. intros k'. by apply contents_missed.
    + destruct (wf_amend s Hwf) as (s2 & Hs2 & Hwf2 & Ha2 & Hm2 & Ho2).
      destruct (contents_amend s Hwf) as (s2' & Hs2' & Hc2).
      rewrite Hs2 in Hs2'. injection Hs2' as <-. rewrite Hs2 in Hs. cbn in Hs.
      destruct (wf_amended _ Hwf2 Ha2) as [d Hd]. rewrite Hd in Hs. injection Hs as <- <-.
      rewrite (contents_absent s k).
      2:{ unfold cell_of. rewrite Hk, Ho. by destruct (amended (snapshot s)). }
      split; [done|]. intros k'. rewrite contents_new; try done; [|congruence|by apply Ho2].
      case_decide; [done|]. apply Hc2.
Qed.

End VMap_contents_any.

(** ** Against a plain map *)

Section plain_facts.
Context {K : Type} `{Countable K}.

Lemma plain_get_put (k : K) v mp k' :
  plain_get (plain_put k v mp) k' =
  if decide (k' = k) then VMap.loaded v else plain_get mp k'.
Proof.
  unfold plain_get, plain_put.
  destruct v; case_decide; subst;
    rewrite ?lookup_delete_eq, ?lookup_insert_eq, ?lookup_delete_ne, ?lookup_insert_ne by done;
    done.
Qed.

Lemma plain_get_delete (k : K) (mp : gmap K addr) k' :
  plain_get (delete k mp) k' = if decide (k' = k) then (pnil, false) else plain_get mp k'.
Proof.
  unfold plain_get. case_decide; subst;
    rewrite ?lookup_delete_eq, ?lookup_delete_ne by done; done.
Qed.

End plain_facts.

Section VMap_plain.
Import VMap.
Context {key : Type} `{Countable key} {T : Type} (deref : addr → T).
Implicit Types (s : VMap (key:=key)) (k : key) (e : loc) (v old new : ptr).

Lemma exec_frame (o : op key) s r s' k' :
  wf s → valid o = true → exec deref o s = Ok r s' → writes o k' = false →
  contents s' k' = contents s k'.
Proof.
  intros Hwf Hv Hex Hw. destruct o; cbn in Hv, Hw; cbn [exec] in Hex;
    unfold Store, Delete, mbind, M_bind, mret, M_ret in Hex;
    try apply bool_decide_eq_false in Hw; try done.
  - destruct (Load_effect k s Hwf) as (s1 & Hrun & _ & Hc). rewrite Hrun in Hex.
    destruct (contents s k). injection Hex as <- <-. apply Hc.
  - apply handle_ne in Hv. destruct (Swap_effect k value s Hwf Hv) as (s1 & Hrun & _ & Hc).
    rewrite Hrun in Hex. injection Hex as <- <-. rewrite Hc. by rewrite decide_False by done.
  - apply handle_ne in Hv.
    destruct (LoadOrStore_effect deref k value s Hwf Hv) as ([a l] & s1 & Hrun & _ & Hc).
    rewrite Hrun in Hex. injection Hex as <- <-.
    destruct (contents s k) as [[| |?] []]; destruct Hc as [_ Hc]; rewrite Hc; try done;
      by rewrite decide_False by done.
  - destruct (LoadAndDelete_effect k s Hwf) as (s1 & Hrun & _ & Hc). rewrite Hrun in Hex.
    destruct (contents s k). injection Hex as <- <-. rewrite Hc. by rewrite decide_False by done.
  - destruct (LoadAndDelete_effect k s Hwf) as (s1 & Hrun & _ & Hc). rewrite Hrun in Hex.
    injection Hex as <- <-. rewrite Hc. by rewrite decide_False by done.
  - apply handle_ne in Hv. destruct (Swap_effect k value s Hwf Hv) as (s1 & Hrun & _ & Hc).
    rewrite Hrun in Hex. destruct (contents s k). injection Hex as <- <-.
    rewrite Hc. by rewrite decide_False by done.
  - apply andb_true_iff in Hv as [_ Hv%handle_ne].
    destruct (CompareAndSwap_effect k old new s Hwf Hv) as (s1 & Hrun & _ & Hc).
    rewrite Hrun in Hex. injection Hex as <- <-. rewrite Hc. rewrite decide_False; naive_solver.
  - destruct (CompareAndDelete_effect k old s Hwf) as (s1 & Hrun & _ & Hc).
    rewrite Hrun in Hex. injection Hex as <- <-. rewrite Hc. rewrite decide_False; naive_solver.
  - destruct (Range_effect map_to_list f s Hwf) as (s1 & l & Hrun & _ & Hc & _); [done|].
    unfold Range in Hex. rewrite Hrun in Hex. injection Hex as <- <-. apply Hc.
Qed.

Lemma exec_plain (o : op key) s mp :
  wf s → valid o = true → (∀ k, contents s k = plain_get mp k) →
  ∃ r s' mp', exec deref o s = Ok r s' ∧ wf s' ∧ plain_call deref o mp r mp' ∧
              ∀ k, contents s' k = plain_get mp' k.
Proof.
  intros Hwf Hv Hag. destruct o; cbn in Hv; cbn [exec plain_call];
    unfold Store, Delete, mbind, M_bind, mret, M_ret.
  - destruct (Load_effect k s Hwf) as (s' & -> & Hwf' & Hc). rewrite (Hag k).
    destruct (plain_get mp k) as [v ok] eqn:Hg. exists (RPtr v ok), s', mp.
    split; [done|]. split; [done|]. split; [done|]. intros k'. by rewrite Hc.
  - apply handle_ne in Hv. destruct (Swap_effect k value s Hwf Hv) as (s' & -> & Hwf' & Hc).
    exists RUnit, s', (plain_put k value mp).
    split; [done|]. split; [done|]. split; [done|].
    intros k'. rewrite Hc, plain_get_put. by case_decide.
  - apply handle_ne in Hv.
    destruct (LoadOrStore_effect deref k value s Hwf Hv) as ([a l] & s' & -> & Hwf' & Hm).
    rewrite (Hag k) in Hm. unfold plain_get in Hm. destruct (mp !! k) as [a'|] eqn:Hmk.
    + destruct Hm as [[= -> ->] Hc]. exists (RAny (any_val (deref a')) true), s', mp.
      split; [done|]. split; [done|]. split; [done|]. intros k'. by rewrite Hc.
    + destruct Hm as [[= -> ->] Hc].
      exists (RAny (any_ptr value) false), s', (plain_put k value mp).
      split; [done|]. split; [done|]. split; [done|].
      intros k'. rewrite Hc, plain_get_put. by case_decide.
  - destruct (LoadAndDelete_effect k s Hwf) as (s' & -> & Hwf' & Hc). rewrite (Hag k).
    destruct (plain_get mp k) as [v ok] eqn:Hg. exists (RPtr v ok), s', (delete k mp).
    split; [done|]. split; [done|]. split; [done|].
    intros k'. rewrite Hc, plain_get_delete. by case_decide.
  - destruct (LoadAndDelete_effect k s Hwf) as (s' & -> & Hwf' & Hc).
    exists RUnit, s', (delete k mp).
    split; [done|]. split; [done|]. split; [done|].
    intros k'. rewrite Hc, plain_get_delete. by case_decide.
  - apply handle_ne in Hv. destruct (Swap_effect k value s Hwf Hv) as (s' & -> & Hwf' & Hc).
    rewrite (Hag k). destruct (plain_get mp k) as [v ok] eqn:Hg.
    exists (RPtr v ok), s', (plain_put k value mp).
    split; [done|]. split; [done|]. split; [done|].
    intros k'. rewrite Hc, plain_get_put. by case_decide.
  - apply andb_true_iff in Hv as [_ Hv%handle_ne].
    destruct (CompareAndSwap_effect k old new s Hwf Hv) as (s' & -> & Hwf' & Hc).
    rewrite (Hag k) in *. case_decide as Hg.
    + exists (RBool true), s', (plain_put k new mp). rewrite bool_decide_eq_true_2 by done.
      split; [done|]. split; [done|]. split; [done|].
      intros k'. rewrite Hc, plain_get_put. repeat case_decide; naive_solver.
    + exists (RBool false), s', mp. rewrite bool_decide_eq_false_2 by done.
      split; [done|]. split; [done|]. split; [done|].
      intros k'. rewrite Hc. rewrite decide_False; naive_solver.
  - destruct (CompareAndDelete_effect k old s Hwf) as (s' & -> & Hwf' & Hc).
    rewrite (Hag k) in *. case_decide as Hg.
    + exists (RBool true), s', (delete k mp). rewrite bool_decide_eq_true_2 by done.
      split; [done|]. split; [done|]. split; [done|].
      intros k'. rewrite Hc, plain_get_delete. repeat case_decide; naive_solver.
    + exists (RBool false), s', mp. rewrite bool_decide_eq_false_2 by done.
      split; [done|]. split; [done|]. split; [done|].
      intros k'. rewrite Hc. rewrite decide_False; naive_solver.
  - destruct (Range_effect map_to_list f s Hwf) as (s' & l & Hrun & Hwf' & Hc & Hnd & Hin);
      [done|].
    unfold Range. rewrite Hrun. exists (RCalls (plain_visit f [] l)), s', mp.
    split; [done|]. split; [done|]. split; [|by intros k'; rewrite Hc].
    split; [done|]. exists l. split; [|done].
    apply NoDup_Permutation; [done|apply NoDup_map_to_list|].
    intros [k a]. rewrite Hin, elem_of_map_to_list, Hag. unfold plain_get.
    destruct (mp !! k); naive_solver.
  - destruct (Clear_effect s Hwf) as (s' & -> & Hwf' & Hc). exists RUnit, s', ∅.
    split; [done|]. split; [done|]. split; [done|]. intros k'. by rewrite Hc.
Qed.

Lemma run_plain (os : list (op key)) : ∀ s mp,
  wf s → forallb valid os = true → (∀ k, contents s k = plain_get mp k) →
  ∃ rs s' mp', run deref os s = Ok rs s' ∧ wf s' ∧ plain_run deref os mp rs mp' ∧
               ∀ k, contents s' k = plain_get mp' k.
Proof.
  induction os as [|o os IH]; intros s mp Hwf Hv Hag; cbn in *.
  - by exists [], s, mp.
  - apply andb_true_iff in Hv as [Hv Hvs].
    destruct (exec_plain o s mp Hwf Hv Hag) as (r & s1 & mp1 & Hex & Hwf1 & Hcall & Hag1).
    destruct (IH s1 mp1 Hwf1 Hvs Hag1) as (rs & s2 & mp2 & Hrun & Hwf2 & Hp & Hag2).
    exists (r :: rs), s2, mp2. unfold mbind, M_bind, mret, M_ret. rewrite Hex, Hrun.
    split; [done|]. split; [done|]. split; [|done]. by exists mp1.
Qed.

End VMap_plain.

(** ** The miss count and the promotion *)

Section VMap_tight.
Import VMap.
Context {key : Type} `{Countable key}.
Implicit Types (s : VMap (key:=key)) (k : key) (e : loc) (v old new : ptr).

Lemma tight_missed s : amended (snapshot s) = true → tight (missed s).
Proof.
  intros Ha. unfold tight, missed, promoted. case_decide; cbn; [|done].
  fold (snapshot s). by rewrite Ha.
Qed.

Lemma tight_books s1 s2 : same_books s1 s2 → tight s2 → tight s1.
Proof. intros (Hr & Hd & Hm). unfold tight, snapshot. by rewrite Hr, Hd, Hm. Qed.

Lemma tight_register k e s : tight s → tight (register k e s).
Proof.
  unfold tight, register; cbn. fold (snapshot s). destruct (amended (snapshot s)); [|done].
  destruct (dirty s) as [d|]; cbn; [|done].
  intros Hb. rewrite map_size_insert. destruct (d !! k); cbn; lia.
Qed.

Lemma tight_new k e v s s1 :
  tight s → amend (snapshot s) s = Ok tt s1 → tight (register k e (set_cell e v s1)).
Proof.
  intros Ht. rewrite amend_eq. destruct (amended (snapshot s)) eqn:Ha.
  { intros [= <-]. by apply (tight_register k e (set_cell e v s)). }
  unfold tight in Ht. rewrite Ha in Ht.
  assert (∀ d : gmap key loc, 0 < size (<[k:=e]> d)) as Hnew.
  { intros d.
    assert (size (<[k:=e]> d) ≠ 0) by apply map_size_non_empty_iff, insert_non_empty. lia. }
  destruct (dirty s) as [d|] eqn:Hd.
  - rewrite (dirtyLocked_Some _ _ Hd). intros [= <-]. unfold tight; cbn.
    rewrite Hd, Ht. apply Hnew.
  - destruct (dirtyLocked_None s Hd) as (h' & d' & -> & _). intros [= <-].
    unfold tight; cbn. rewrite Ht. apply Hnew.
Qed.

Lemma Load_tight k s r s' : tight s → Load k s = Ok r s' → tight s'.
Proof.
  intros Hb. rewrite Load_eq. destruct (m _ !! k); [by intros [= _ <-]|].
  destruct (amended _) eqn:Ha; intros [= _ <-]; [by apply tight_missed|done].
Qed.

Lemma LoadAndDelete_tight k s r s' : tight s → LoadAndDelete k s = Ok r s' → tight s'.
Proof.
  intros Hb. rewrite LoadAndDelete_eq. destruct (m _ !! k).
  { intros [= _ <-]. eapply tight_books; [apply same_books_del_cell|done]. }
  destruct (amended _) eqn:Ha; [|by intros [= _ <-]].
  destruct (overlay s k); intros [= _ <-];
    [eapply tight_books; [apply same_books_del_cell|]|]; by apply (tight_missed (drop k s)).
Qed.

Lemma Swap_tight k v s r s' : tight s → Swap k v s = Ok r s' → tight s'.
Proof.
  intros Hb. rewrite Swap_eq. destruct (m _ !! k).
  { case_decide; [|by intros [= _ <-]]. destruct (dirty s) eqn:Hd; [|done].
    intros [= _ <-]. by apply (tight_register k _ (set_cell _ v s)). }
  destruct (overlay s k); [by intros [= _ <-]|].
  destruct (amend _ s) as [[] s1| |] eqn:Ha; [|done..]. cbn.
  destruct (dirty s1) eqn:Hd; [|done]. intros [= _ <-]. by eapply tight_new.
Qed.

Lemma CompareAndSwap_tight k old new s r s' :
  tight s → CompareAndSwap k old new s = Ok r s' → tight s'.
Proof.
  intros Hb. rewrite CompareAndSwap_eq. destruct (m _ !! k).
  { by case_decide; intros [= _ <-]. }
  destruct (amended _) eqn:Ha; [|by intros [= _ <-]].
  destruct (overlay s k); [|by intros [= _ <-]].
  case_decide; intros [= _ <-]; [by apply (tight_missed (set_cell _ new s))|by apply tight_missed].
Qed.

Lemma CompareAndDelete_tight k old s r s' :
  tight s → CompareAndDelete k old s = Ok r s' → tight s'.
Proof.
  intros Hb. rewrite CompareAndDelete_eq. destruct (m _ !! k).
  { by case_decide; intros [= _ <-]. }
  destruct (amended _) eqn:Ha; [|by intros [= _ <-]].
  destruct (overlay s k); [|intros [= _ <-]; by apply tight_missed].
  case_decide; intros [= _ <-]; by apply (tight_missed s).
Qed.

Lemma Clear_tight s r s' : tight s → Clear s = Ok r s' → tight s'.
Proof. intros Hb. rewrite Clear_eq. by case_match; intros [= _ <-]. Qed.

Lemma Range_tight (f : visitor key) s r s' : tight s → Range f s = Ok r s' → tight s'.
Proof.
  intros Hb. unfold Range, Range_in. unfold mbind at 1; unfold M_bind at 1.
  rewrite Range_read_eq. destruct (amended _).
  - destruct (Range_loop_state f (map_to_list (as_map (dirty s))) [] (promoted s)) as [c Hc].
    cbn. rewrite Hc. by intros [= _ <-].
  - destruct (Range_loop_state f (map_to_list (m (snapshot s))) [] s) as [c Hc].
    rewrite Hc. by intros [= _ <-].
Qed.

Lemma more_misses_0 s : more_misses 0 s = s.
Proof. by destruct s. Qed.

Lemma missed_below s :
  S (misses s) < from_option size 0 (dirty s) → missed s = more_misses 1 s.
Proof. intros Hlt. unfold missed. by rewrite decide_True. Qed.

Lemma missed_reached s :
  ¬ S (misses s) < from_option size 0 (dirty s) → missed s = promoted s.
Proof. intros Hlt. unfold missed. by rewrite decide_False. Qed.

End VMap_tight.

Section VMap_tight_any.
Import VMap.
Context {key : Type} `{Countable key} {T : Type} (deref : addr → T).
Implicit Types (s : VMap (key:=key)) (k : key) (e : loc) (v old new : ptr).

Lemma LoadOrStore_tight k v s r s' :
  wf s → tight s → LoadOrStore deref k v s = Ok r s' → tight s'.
Proof.
  intros Hwf Hb. rewrite LoadOrStore_eq. destruct (m _ !! k) as [e|].
  { destruct (cells s !!! e); [by intros [= _ <-]| |by intros [= _ <-]].
    destruct (dirty s) eqn:Hd; [|done].
    intros [= _ <-]. by apply (tight_register k _ (set_cell _ v s)). }
  destruct (overlay s k) as [e|] eqn:Ho.
  { pose proof (wf_overlay_amended _ _ _ Hwf Ho) as Ha.
    destruct (cells s !!! e); intros [= _ <-];
      [by apply (tight_missed (set_cell _ v s))|by apply tight_missed..]. }
  destruct (amend _ s) as [[] s1| |] eqn:Ha; [|done..]. cbn.
  destruct (dirty s1) eqn:Hd; [|done]. intros [= _ <-]. by eapply tight_new.
Qed.

Lemma exec_tight (o : op key) s r s' :
  wf s → tight s → exec deref o s = Ok r s' → tight s'.
Proof.
  intros Hwf Hb. destruct o; cbn [exec]; unfold Store, Delete, mbind, M_bind, mret, M_ret.
  - destruct (Load k s) as [[] s1| |] eqn:E; [|done..]. intros [= _ <-].
    by eapply Load_tight.
  - destruct (Swap k value s) as [[] s1| |] eqn:E; [|done..]. intros [= _ <-].
    by eapply Swap_tight.
  - destruct (LoadOrStore deref k value s) as [[] s1| |] eqn:E; [|done..]. intros [= _ <-].
    by eapply LoadOrStore_tight.
  - destruct (LoadAndDelete k s) as [[] s1| |] eqn:E; [|done..]. intros [= _ <-].
    by eapply LoadAndDelete_tight.
  - destruct (LoadAndDelete k s) as [[] s1| |] eqn:E; [|done..]. intros [= _ <-].
    by eapply LoadAndDelete_tight.
  - destruct (Swap k value s) as [[] s1| |] eqn:E; [|done..]. intros [= _ <-].
    by eapply Swap_tight.
  - destruct (CompareAndSwap k old new s) as [? s1| |] eqn:E; [|done..]. intros [= _ <-].
    by eapply CompareAndSwap_tight.
  - destruct (CompareAndDelete k old s) as [? s1| |] eqn:E; [|done..]. intros [= _ <-].
    by eapply CompareAndDelete_tight.
  - destruct (Range f s) as [? s1| |] eqn:E; [|done..]. intros [= _ <-].
    by eapply Range_tight.
  - destruct (Clear s) as [? s1| |] eqn:E; [|done..]. intros [= _ <-].
    by eapply Clear_tight.
Qed.

Lemma reachable_tight s : reachable deref s → tight s.
Proof.
  induction 1 as [|s o r s' Hr IH _ Hex]; [done|].
  eapply exec_tight; [by eapply reachable_wf|done..].
Qed.

Lemma final_run_cons (o : op key) os s r s1 :
  exec deref o s = Ok r s1 → final (run deref (o :: os) s) = final (run deref os s1).
Proof.
  intros Hex. cbn. unfold mbind, M_bind, mret, M_ret. rewrite Hex.
  by destruct (run deref os s1).
Qed.

Lemma Load_miss k s :
  m (snapshot s) !! k = None → amended (snapshot s) = true →
  ∃ r, exec deref (OLoad k) s = Ok r (missed s).
Proof.
  intros Hk Ha. cbn. unfold mbind, M_bind, mret, M_ret. rewrite Load_eq, Hk, Ha.
  destruct (from_option _ _ _). by eexists.
Qed.

Lemma run_misses k n : ∀ s,
  m (snapshot s) !! k = None → amended (snapshot s) = true →
  n + misses s < from_option size 0 (dirty s) →
  final (run deref (replicate n (OLoad k)) s) = Some (more_misses n s).
Proof.
  induction n as [|n IH]; intros s Hk Ha Hlt; cbn [replicate].
  - by rewrite more_misses_0.
  - destruct (Load_miss k s Hk Ha) as [r Hex]. rewrite (final_run_cons _ _ _ _ _ Hex).
    rewrite missed_below by lia. rewrite IH; [|done..|cbn; lia].
    unfold more_misses; cbn. do 2 f_equal. lia.
Qed.

Lemma run_promotes k n : ∀ s,
  m (snapshot s) !! k = None → amended (snapshot s) = true →
  S n + misses s = from_option size 0 (dirty s) →
  final (run deref (replicate (S n) (OLoad k)) s) = Some (promoted s).
Proof.
  induction n as [|n IH]; intros s Hk Ha Hlt.
  - destruct (Load_miss k s Hk Ha) as [r Hex]. cbn [replicate].
    rewrite (final_run_cons _ _ _ _ _ Hex).
    rewrite missed_reached by lia. done.
  - change (replicate (S (S n)) (OLoad k)) with (OLoad k :: replicate (S n) (OLoad k)).
    destruct (Load_miss k s Hk Ha) as [r Hex]. rewrite (final_run_cons _ _ _ _ _ Hex).
    rewrite missed_below by lia. rewrite (IH (more_misses 1 s)); [done..|cbn; lia].
Qed.

End VMap_tight_any.

(** ** The sentinel *)

Section entry_protocol.
Context {T : Type} (deref : addr → T).
Implicit Types (h : gmap loc ptr) (e : loc) (p i old new : ptr).

(** X11: on a cell that holds the sentinel, [load], [tryCompareAndSwap],
    [tryLoadOrStore], [delete] and [trySwap] report failure and leave every
    cell as it is, and [tryExpungeLocked] reports the cell expunged; only
    [unexpungeLocked] takes the sentinel out, leaving nil. *)
Theorem expunged_only_leaves_under_lock e i old new h :
  h !!! e = expunged →
  entry.load e h = Ok (pnil, false) h ∧
  entry.tryCompareAndSwap e old new h = Ok false h ∧
  entry.tryLoadOrStore deref e i h = Ok (any_nil, false, false) h ∧
  entry.delete e h = Ok (pnil, false) h ∧
  entry.trySwap e i h = Ok (pnil, false) h ∧
  entry.tryExpungeLocked e h = Ok true h ∧
  entry.unexpungeLocked e h = Ok true (<[e:=pnil]> h).
Proof.
  intros He.
  rewrite load_eq, tryCompareAndSwap_eq, tryLoadOrStore_eq, delete_eq, trySwap_eq,
    tryExpungeLocked_eq, unexpungeLocked_eq, He.
  rewrite decide_False by naive_solver. by rewrite !decide_True by done.
Qed.

(** X12: on a cell that does not hold the sentinel, every method but
    [tryExpungeLocked], given handles, returns, leaves the cell without the
    sentinel and leaves every other cell as it is; [tryExpungeLocked]
    returns true exactly when the cell holds nil, which it replaces by the
    sentinel, and otherwise changes nothing. *)
Theorem live_cell_stays_live e i old new h :
  h !!! e ≠ expunged → i ≠ expunged → new ≠ expunged →
  (∀ h', final (entry.load e h) = Some h' ∨
         final (entry.tryCompareAndSwap e old new h) = Some h' ∨
         final (entry.tryLoadOrStore deref e i h) = Some h' ∨
         final (entry.delete e h) = Some h' ∨
         final (entry.trySwap e i h) = Some h' ∨
         final (entry.swapLocked e i h) = Some h' ∨
         final (entry.unexpungeLocked e h) = Some h' →
         h' !!! e ≠ expunged ∧ ∀ e', e' ≠ e → h' !!! e' = h !!! e') ∧
  is_Some (final (entry.load e h)) ∧
  is_Some (final (entry.tryCompareAndSwap e old new h)) ∧
  is_Some (final (entry.tryLoadOrStore deref e i h)) ∧
  is_Some (final (entry.delete e h)) ∧
  is_Some (final (entry.trySwap e i h)) ∧
  entry.tryExpungeLocked e h =
    (if decide (h !!! e = pnil) then Ok true (<[e:=expunged]> h) else Ok false h).
Proof.
  intros He Hi Hnew.
  rewrite load_eq, tryCompareAndSwap_eq, tryLoadOrStore_eq, delete_eq, trySwap_eq,
    tryExpungeLocked_eq, unexpungeLocked_eq, swapLocked_eq.
  rewrite !(decide_False (P:=h !!! e = expunged)) by done.
  assert (∀ x h', h' = <[e:=x]> h → x ≠ expunged →
                  h' !!! e ≠ expunged ∧ ∀ e', e' ≠ e → h' !!! e' = h !!! e') as Hset.
  { intros x h' -> Hx. rewrite lookup_total_insert_eq. split; [done|].
    intros e' Hne. by rewrite lookup_total_insert_ne. }
  split; [|repeat split; try (by case_decide); by destruct (h !!! e)].
  intros h' Hh'.
  destruct (decide (h' = h)) as [->|Hne]; [done|].
  destruct Hh' as [Hh'|[Hh'|[Hh'|[Hh'|[Hh'|[Hh'|Hh']]]]]]; cbn in Hh'.
  - congruence.
  - case_decide; cbn in Hh'; [|congruence]. apply (Hset new); congruence.
  - destruct (h !!! e); cbn in Hh'; [|congruence..]. apply (Hset i); congruence.
  - destruct (h !!! e); cbn in Hh'; [congruence..|]. apply (Hset pnil); congruence.
  - apply (Hset i); congruence.
  - apply (Hset i); congruence.
  - congruence.
Qed.

End entry_protocol.

(** ** What the calls do, as a caller sees it *)

Section VMap_effects.
Import VMap.
Context {key : Type} `{Countable key} {T : Type} (deref : addr → T).
Implicit Types (s : VMap (key:=key)) (k : key) (e : loc) (v old new : ptr).

(** X7: in a reachable state, a call with handles changes what [Load]
    returns for no key but those it writes: [Store], [Swap], [LoadOrStore],
    [LoadAndDelete], [Delete], [CompareAndSwap] and [CompareAndDelete] leave
    every key other than their own as it was, whatever they do to the
    snapshot, the dirty map and the miss count on the way; [Load] and
    [Range] leave every key as it was. *)
Theorem calls_change_own_key_only (o : op key) s r s' k' :
  reachable deref s → valid o = true → exec deref o s = Ok r s' → writes o k' = false →
  returned (Load k' s') = returned (Load k' s).
Proof.
  intros Hr Hv Hex Hw. rewrite !Load_contents. f_equal.
  eapply exec_frame; eauto using reachable_wf.
Qed.

(** X8: in a reachable state [Swap(k, v)] with a handle [v] returns what
    [Load(k)] returns in that state, and afterwards [Load(k)] returns [v]
    (nothing when [v] is nil). *)
Theorem Swap_returns_previous k v s :
  reachable deref s → handle v = true →
  ∃ r s', Swap k v s = Ok r s' ∧ returned (Load k s) = Some r ∧
          returned (Load k s') = Some (loaded v).
Proof.
  intros Hr Hv%handle_ne. pose proof (reachable_wf deref s Hr) as Hwf.
  destruct (Swap_effect k v s Hwf Hv) as (s' & Hs & _ & Hc).
  exists (contents s k), s'. split; [done|]. rewrite !Load_contents. split; [done|].
  by rewrite Hc, decide_True.
Qed.

(** X9: in a reachable state [LoadOrStore(k, v)] with a handle [v] either
    finds [k] holding a pointer [a], returns the value [a] points to with
    [loaded] true and changes what [Load] returns for no key; or finds
    nothing for [k], returns [v] with [loaded] false, and afterwards
    [Load(k)] returns [v] (nothing when [v] is nil). *)
Theorem LoadOrStore_loads_or_stores k v s :
  reachable deref s → handle v = true →
  ∃ r s', LoadOrStore deref k v s = Ok r s' ∧
    ((∃ a, returned (Load k s) = Some (ref a, true) ∧ r = (any_val (deref a), true) ∧
           ∀ k', returned (Load k' s') = returned (Load k' s)) ∨
     (returned (Load k s) = Some (pnil, false) ∧ r = (any_ptr v, false) ∧
      returned (Load k s') = Some (loaded v))).
Proof.
  intros Hr Hv%handle_ne. pose proof (reachable_wf deref s Hr) as Hwf.
  destruct (LoadOrStore_effect deref k v s Hwf Hv) as (r & s' & Hs & _ & Hm).
  exists r, s'. split; [done|]. setoid_rewrite Load_contents.
  destruct (contents_loaded s k) as [p Hp]. rewrite Hp in *.
  destruct p as [| |a]; cbn in Hm; destruct Hm as [-> Hc].
  - right. split; [done|]. split; [done|]. by rewrite Hc, decide_True.
  - right. split; [done|]. split; [done|]. by rewrite Hc, decide_True.
  - left. exists a. split; [done|]. split; [done|]. intros k'. by rewrite Hc.
Qed.

(** X10: in a reachable state whose snapshot is amended the miss count is
    below the length of the dirty map; for a key that the snapshot lacks,
    each [Load] adds one to the count and changes nothing else as long as
    the count stays below that length, and the [Load] that makes the count
    reach it leaves the dirty map promoted: after exactly
    [len(dirty) - misses] such calls. *)
Theorem misses_promote k s :
  reachable deref s → amended (snapshot s) = true → m (snapshot s) !! k = None →
  misses s < from_option size 0 (dirty s) ∧
  (∀ n, n + misses s < from_option size 0 (dirty s) →
        final (run deref (replicate n (OLoad k)) s) = Some (more_misses n s)) ∧
  final (run deref (replicate (from_option size 0 (dirty s) - misses s) (OLoad k)) s) =
    Some (promoted s).
Proof.
  intros Hr Ha Hk. pose proof (reachable_tight deref s Hr) as Ht.
  unfold tight in Ht. rewrite Ha in Ht. split; [done|]. split.
  - intros n Hn. by apply run_misses.
  - destruct (from_option size 0 (dirty s) - misses s) as [|n] eqn:Hn; [lia|].
    apply run_promotes; [done..|lia].
Qed.

(** X13: from the zero value, any calls with handles return, and they
    return what the same calls return on a plain map that starts empty,
    in which storing nil removes the key and [Range] meets the pairs in
    some order; afterwards [Load] finds for every key what the plain map
    holds. *)
Theorem VMap_refines_plain_map (os : list (op key)) :
  forallb valid os = true →
  ∃ rs s mp, run deref os zero = Ok rs s ∧ plain_run deref os ∅ rs mp ∧
             ∀ k, returned (Load k s) = Some (plain_get mp k).
Proof.
  intros Hv. destruct (run_plain deref os zero ∅ wf_zero Hv)
    as (rs & s & mp & Hrun & _ & Hp & Hag); [done|].
  exists rs, s, mp. split; [done|]. split; [done|]. intros k. by rewrite Load_contents, Hag.
Qed.

End VMap_effects.

Section KVMap_plain.
Context {K : Type} `{Countable K} {T : Type} (deref : addr → T).

(** X14: a [KVMap], too, from its zero value returns on any calls with
    handles what a plain map that starts empty returns, and afterwards its
    [Load] finds for every key what the plain map holds. *)
Theorem KVMap_refines_plain_map (os : list (op K)) :
  forallb valid os = true →
  ∃ rs s mp, KVMap.run deref os KVMap.zero = Ok rs s ∧ plain_run deref os ∅ rs mp ∧
             ∀ k, returned (KVMap.Load k s) = Some (plain_get mp k).
Proof.
  intros Hv. destruct (run_plain deref os VMap.zero ∅ wf_zero Hv)
    as (rs & s & mp & Hrun & _ & Hp & Hag); [done|].
  pose proof (sim_run deref os KVMap.zero) as Hsim.
  change (conv KVMap.zero) with (VMap.zero (key:=K)) in Hsim. rewrite Hrun in Hsim.
  destruct (KVMap.run deref os KVMap.zero) as [rs' s'| |]; [|done..].
  destruct Hsim as [-> ->]. exists rs, s', mp. split; [done|]. split; [done|].
  intros k. pose proof (sim_Load k s') as Hl. rewrite <- Hag, <- Load_contents.
  destruct (KVMap.Load k s'), (VMap.Load k (conv s')); try done. cbn. by destruct Hl as [-> _].
Qed.

End KVMap_plain.

Section VMap_fast.
Import VMap.
Context {key : Type} `{Countable key} {T : Type} (deref : addr → T).
Implicit Types (s : VMap (key:=key)) (k : key) (e : loc) (v old new : ptr).

(** X18: for a key whose cell the snapshot has, not expunged, every method
    returns on its fast path: it leaves the snapshot, the dirty map and the
    miss count as they are and changes at most that one cell: [Load]
    changes nothing, [Swap] stores [v], [LoadOrStore] stores [v] if the
    cell holds nil, [LoadAndDelete] stores nil if the cell holds a
    pointer, [CompareAndSwap] and [CompareAndDelete] store [new] and nil
    if the cell holds [old]. *)
Theorem fast_path_changes_one_cell k v old new e s :
  m (snapshot s) !! k = Some e → cells s !!! e ≠ expunged →
  Load k s = Ok (loaded (cells s !!! e)) s ∧
  Swap k v s = Ok (swapped (cells s !!! e)) (set_cell e v s) ∧
  (∃ r, LoadOrStore deref k v s =
        Ok r (if decide (cells s !!! e = pnil) then set_cell e v s else s)) ∧
  LoadAndDelete k s = Ok (loaded (cells s !!! e)) (del_cell e s) ∧
  CompareAndSwap k old new s =
    Ok (bool_decide (holds old (cells s !!! e)))
       (if decide (holds old (cells s !!! e)) then set_cell e new s else s) ∧
  CompareAndDelete k old s =
    Ok (bool_decide (holds old (cells s !!! e)))
       (if decide (holds old (cells s !!! e)) then set_cell e pnil s else s).
Proof.
  intros Hk He.
  rewrite Load_eq, Swap_eq, LoadOrStore_eq, LoadAndDelete_eq, CompareAndSwap_eq,
    CompareAndDelete_eq, Hk.
  rewrite (decide_False (P:=cells s !!! e = expunged)) by done.
  split; [done|]. split; [done|]. split; [|split; [done|]].
  - destruct (cells s !!! e) eqn:Hc; [|done|]; by eexists.
  - split; case_decide; by rewrite ?bool_decide_eq_true_2, ?bool_decide_eq_false_2 by done.
Qed.

End VMap_fast.

(** ** Range with a callback that calls the map *)

Section VMap_range_calling.
Import VMap.
Context {key : Type} `{Countable key} {T : Type} (deref : addr → T).
Implicit Types (s : VMap (key:=key)) (k : key) (e : loc) (v old new : ptr).

Lemma Range_read_reachable s :
  reachable deref s →
  ∃ s', Range_read s = Ok (snapshot s') s' ∧ reachable deref s' ∧
        s' = (if amended (snapshot s) then promoted s else s).
Proof.
  intros Hr. set (s' := if amended (snapshot s) then promoted s else s).
  assert (Range_read s = Ok (snapshot s') s') as Hread.
  { rewrite Range_read_eq. unfold s'. by destruct (amended (snapshot s)). }
  exists s'. split; [done|]. split; [|done].
  destruct (Range_loop_state (λ _ _ _, true) (map_to_list (m (snapshot s'))) [] s') as [c Hc].
  apply (reachable_step deref s (ORange (λ _ _ _, true)) (RCalls c)); [done..|].
  cbn. unfold Range, Range_in, mbind, M_bind, mret, M_ret. by rewrite Hread, Hc.
Qed.

Lemma Range_loop_calling_spec (f : key → ptr → M VMap bool) kes :
  (∀ k a s1, reachable deref s1 →
     ∃ b s2, f k (ref a) s1 = Ok b s2 ∧ reachable deref s2) →
  ∀ seen s, reachable deref s →
  ∃ calls s', Range_loop_calling f seen kes s = Ok (seen ++ calls) s' ∧
    reachable deref s' ∧ calls.*1 `sublist_of` kes.*1 ∧
    ∀ k v, (k, v) ∈ calls → ∃ a, v = ref a.
Proof.
  intros Hf. induction kes as [|[k e] kes IH]; intros seen s Hr; cbn [Range_loop_calling].
  - exists [], s. rewrite app_nil_r. split; [done|]. split; [done|]. split; [done|].
    by intros ?? ?%elem_of_nil.
  - unfold mbind at 1; unfold M_bind at 1. rewrite liftE_load.
    destruct (loaded (cells s !!! e)) as [v ok] eqn:Hl. destruct ok.
    + assert (∃ a, v = ref a) as [a ->].
      { apply loaded_eq_true in Hl as (_ & ? & ?). destruct v; naive_solver. }
      unfold mbind at 1; unfold M_bind at 1.
      destruct (Hf k a s Hr) as (b & s1 & -> & Hr1). destruct b.
      * destruct (IH (seen ++ [(k, ref a)]) s1 Hr1) as (calls & s' & Hrun & Hr' & Hsub & Hin).
        exists ((k, ref a) :: calls), s'. rewrite <- app_assoc in Hrun.
        split; [done|]. split; [done|]. split; [by apply sublist_skip|].
        intros k' v' [[= -> ->]|Hk']%elem_of_cons; eauto.
      * exists [(k, ref a)], s1. split; [done|]. split; [done|].
        split; [apply sublist_skip, sublist_nil_l|].
        intros k' v' [= -> ->]%list_elem_of_singleton. by eexists.
    + destruct (IH seen s Hr) as (calls & s' & Hrun & Hr' & Hsub & Hin).
      exists calls, s'. split; [done|]. split; [done|]. split; [by apply sublist_cons|done].
Qed.

(** A callback that calls nothing makes [Range_calling] the [Range] of the
    callback's answers. *)
Lemma Range_loop_calling_pure (g : key → ptr → bool) kes : ∀ seen s,
  Range_loop_calling (λ k v, mret (g k v)) seen kes s = Range_loop (λ _, g) seen kes s.
Proof.
  induction kes as [|[k e] kes IH]; intros seen s; cbn [Range_loop_calling Range_loop]; [done|].
  unfold mbind at 1 3; unfold M_bind at 1 3. rewrite liftE_load.
  destruct (loaded (cells s !!! e)) as [v []]; [|apply IH].
  unfold mbind, M_bind, mret, M_ret. destruct (g k v); [apply IH|done].
Qed.

(** X19: in a reachable state [Range] returns also when its callback
    calls methods of the map (any that return in a reachable state, as the
    public methods with handles do), and ends in a reachable state; it
    visits no key twice and visits only keys of the snapshot that it
    read on entry (the dirty map promoted, when the snapshot was amended),
    so a key that the callback adds meanwhile is not visited and the
    visits are at most as many as that snapshot has keys; every value
    passed is a pointer other than nil and the sentinel.  A callback that
    calls nothing gets the calls of [Range]. *)
Theorem Range_with_calling_callback (f : key → ptr → M VMap bool) s :
  reachable deref s →
  (∀ k a s1, reachable deref s1 →
     ∃ b s2, f k (ref a) s1 = Ok b s2 ∧ reachable deref s2) →
  (∃ calls s', Range_calling f s = Ok calls s' ∧ reachable deref s' ∧
     NoDup calls.*1 ∧
     length calls ≤ size (m (snapshot (if amended (snapshot s) then promoted s else s))) ∧
     ∀ k v, (k, v) ∈ calls →
       k ∈ dom (m (snapshot (if amended (snapshot s) then promoted s else s))) ∧
       ∃ a, v = ref a) ∧
  ∀ g : key → ptr → bool, Range_calling (λ k v, mret (g k v)) s = Range (λ _, g) s.
Proof.
  intros Hr Hf. split.
  - destruct (Range_read_reachable s Hr) as (s0 & Hread & Hr0 & Hs0). rewrite <- Hs0.
    destruct (Range_loop_calling_spec f (map_to_list (m (snapshot s0))) Hf [] s0 Hr0)
      as (calls & s' & Hrun & Hr' & Hsub & Hin).
    exists calls, s'. unfold Range_calling. unfold mbind at 1; unfold M_bind at 1.
    rewrite Hread. split; [done|]. split; [done|].
    split; [|split].
    + pose proof (NoDup_fst_map_to_list (m (snapshot s0))) as Hnd.
      by eapply sublist_NoDup.
    + apply sublist_length in Hsub. rewrite !length_fmap in Hsub.
      by rewrite length_map_to_list in Hsub.
    + intros k v Hkv. split; [|by eapply Hin].
      assert (k ∈ calls.*1) as Hk by (apply list_elem_of_fmap; by exists (k, v)).
      pose proof (elem_of_sublist _ _ _ Hk Hsub) as Hk'.
      apply list_elem_of_fmap in Hk' as ([k' e] & -> & Hke%elem_of_map_to_list).
      apply elem_of_dom. by eexists.
  - intros g. unfold Range_calling, Range, Range_in.
    unfold mbind, M_bind. destruct (Range_read s) as [rd s1| |]; [|done..].
    apply Range_loop_calling_pure.
Qed.

(** A callback that makes calls with handles returns in a reachable state. *)
Lemma calling_valid_calls (script : key → ptr → list (op key)) (go_on : key → ptr → bool) :
  (∀ k a, forallb valid (script k (ref a)) = true) →
  ∀ k a s1, reachable deref s1 →
    ∃ b s2, (_ ← run deref (script k (ref a)); mret (go_on k (ref a))) s1 = Ok b s2 ∧
            reachable deref s2.
Proof.
  intros Hv k a s1 Hr1.
  destruct (run_wf deref (script k (ref a)) s1 (reachable_wf deref s1 Hr1) (Hv k a))
    as (rs & s2 & Hrun & _).
  exists (go_on k (ref a)), s2. unfold mbind, M_bind, mret, M_ret. rewrite Hrun.
  split; [done|]. by eapply reachable_run.
Qed.

End VMap_range_calling.

(** ** The entry methods under interference *)

Section racing_facts.
Import racing.
Implicit Types (w : world) (p i old new : ptr).

Lemma stores_moved w : stores (moved w) = stores w.
Proof. unfold moved. by destruct (others w) as [|[q|] rest]. Qed.

Lemma busy_moved w : busy (moved w) ≤ busy w.
Proof.
  unfold moved, busy. destruct (others w) as [|[q|] rest] eqn:E; cbn [others]; rewrite ?E.
  - done.
  - rewrite filter_cons_True by done. cbn. lia.
  - rewrite filter_cons_False; [done|]. by intros [? ?].
Qed.

Lemma busy_moved_lt w : cell (moved w) ≠ cell w → busy (moved w) < busy w.
Proof.
  unfold moved, busy. destruct (others w) as [|[q|] rest] eqn:E; cbn [others cell];
    rewrite ?E; try done.
  intros _. rewrite filter_cons_True by done. cbn. lia.
Qed.

Lemma p_Load_eq w : p_Load w = Ok (cell (moved w)) (moved w).
Proof. done. Qed.

Lemma p_CompareAndSwap_eq old new w :
  p_CompareAndSwap old new w =
  if decide (cell (moved w) = old)
  then Ok true (mkWorld new (others (moved w)) (stores w ++ [(old, new)]))
  else Ok false (moved w).
Proof. unfold p_CompareAndSwap. cbn. by rewrite stores_moved. Qed.

End racing_facts.

Ltac racing_step H :=
  unfold mbind, M_bind, mret, M_ret, spin in H;
  rewrite ?p_Load_eq, ?p_CompareAndSwap_eq in H.

Section racing_loops.
Import racing.
Implicit Types (w : world) (p i old new : ptr).

Lemma trySwap_racing n i : ∀ w p ok w',
  trySwap n i w = Ok (p, ok) w' →
  stores w' = stores w ++ (if ok then [(p, i)] else []) ∧
  (ok = true → p ≠ expunged ∧ cell w' = i) ∧
  (ok = false → cell w' = expunged).
Proof.
  induction n as [|n IH]; intros w p ok w' Hrun; [done|].
  cbn [trySwap] in Hrun. racing_step Hrun.
  case_decide as Hp.
  - injection Hrun as <- <- <-. rewrite stores_moved, app_nil_r. done.
  - racing_step Hrun. case_decide as Hc.
    + injection Hrun as <- <- <-. cbn. by rewrite !stores_moved.
    + apply IH in Hrun. by rewrite !stores_moved in Hrun.
Qed.

Lemma delete_racing n : ∀ w p ok w',
  delete n w = Ok (p, ok) w' →
  stores w' = stores w ++ (if ok then [(p, pnil)] else []) ∧
  (ok = true → p ≠ pnil ∧ p ≠ expunged ∧ cell w' = pnil) ∧
  (ok = false → p = pnil ∧ (cell w' = pnil ∨ cell w' = expunged)).
Proof.
  induction n as [|n IH]; intros w p ok w' Hrun; [done|].
  cbn [delete] in Hrun. racing_step Hrun.
  case_decide as Hp.
  - injection Hrun as <- <- <-. rewrite stores_moved, app_nil_r. done.
  - racing_step Hrun. case_decide as Hc.
    + injection Hrun as <- <- <-. cbn. rewrite !stores_moved. naive_solver.
    + apply IH in Hrun. by rewrite !stores_moved in Hrun.
Qed.

Lemma tryCompareAndSwap_loop_racing n old nc : ∀ w w' b,
  old ≠ pnil → old ≠ expunged →
  tryCompareAndSwap_loop n old nc old w = Ok b w' →
  stores w' = stores w ++ (if b then [(old, nc)] else []) ∧
  (b = true → cell w' = nc) ∧
  (b = false → cell w' ≠ old).
Proof.
  induction n as [|n IH]; intros w w' b Hn He Hrun; [done|].
  cbn [tryCompareAndSwap_loop] in Hrun. racing_step Hrun.
  case_decide as Hc.
  - injection Hrun as <- <-. done.
  - racing_step Hrun. case_decide as Hp.
    + injection Hrun as <- <-. rewrite !stores_moved, app_nil_r. naive_solver.
    + assert (cell (moved (moved w)) = old) as Hold.
      { destruct (decide (cell (moved (moved w)) = old)); naive_solver. }
      rewrite Hold in Hrun. apply IH in Hrun; [|done..]. by rewrite !stores_moved in Hrun.
Qed.

Lemma tryCompareAndSwap_racing n old new w w' b :
  tryCompareAndSwap n old new w = Ok b w' →
  stores w' = stores w ++ (if b then [(old, new)] else []) ∧
  (b = true → old ≠ pnil ∧ old ≠ expunged ∧ cell w' = new) ∧
  (b = false → cell w' = pnil ∨ cell w' = expunged ∨ cell w' ≠ old).
Proof.
  unfold tryCompareAndSwap. intros Hrun. racing_step Hrun. case_decide as Hp.
  - injection Hrun as <- <-. rewrite stores_moved, app_nil_r. done.
  - assert (cell (moved w) = old ∧ old ≠ pnil ∧ old ≠ expunged) as (Hold & Hn & He).
    { destruct (decide (cell (moved w) = old)); naive_solver. }
    rewrite Hold in Hrun. apply tryCompareAndSwap_loop_racing in Hrun; [|done..].
    rewrite stores_moved in Hrun. naive_solver.
Qed.

End racing_loops.

Section racing_facts_any.
Import racing.
Context {T : Type} (deref : addr → T).
Implicit Types (w : world) (p i old new : ptr).

Lemma tryLoadOrStore_loop_racing n i ic : ∀ w w' a l ok,
  tryLoadOrStore_loop deref n i ic w = Ok (a, l, ok) w' →
  stores w' = stores w ++ (if ok && negb l then [(pnil, ic)] else []) ∧
  (ok = false → l = false ∧ a = any_nil ∧ cell w' = expunged) ∧
  (l = true → ok = true ∧ ∃ x, cell w' = ref x ∧ a = any_val (deref x)) ∧
  (ok = true → l = false → a = any_ptr i ∧ cell w' = ic).
Proof.
  induction n as [|n IH]; intros w w' a l ok Hrun; [done|].
  cbn [tryLoadOrStore_loop] in Hrun. racing_step Hrun.
  case_decide as Hc.
  - injection Hrun as <- <- <- <-. cbn. naive_solver.
  - racing_step Hrun. destruct (cell (moved (moved w))) as [| |x] eqn:Hp.
    + apply IH in Hrun. by rewrite !stores_moved in Hrun.
    + injection Hrun as <- <- <- <-. rewrite !stores_moved, app_nil_r. naive_solver.
    + injection Hrun as <- <- <- <-. rewrite !stores_moved, app_nil_r. naive_solver.
Qed.

Lemma tryLoadOrStore_racing n i w w' a l ok :
  tryLoadOrStore deref n i w = Ok (a, l, ok) w' →
  stores w' = stores w ++ (if ok && negb l then [(pnil, i)] else []) ∧
  (ok = false → l = false ∧ a = any_nil ∧ cell w' = expunged) ∧
  (l = true → ok = true ∧ ∃ x, cell w' = ref x ∧ a = any_val (deref x)) ∧
  (ok = true → l = false → a = any_ptr i ∧ cell w' = i).
Proof.
  unfold tryLoadOrStore. intros Hrun. racing_step Hrun.
  destruct (cell (moved w)) as [| |x] eqn:Hp.
  - apply tryLoadOrStore_loop_racing in Hrun. by rewrite stores_moved in Hrun.
  - injection Hrun as <- <- <- <-. rewrite stores_moved, app_nil_r. naive_solver.
  - injection Hrun as <- <- <- <-. rewrite stores_moved, app_nil_r. naive_solver.
Qed.

End racing_facts_any.

Section racing_expunge.
Import racing.
Implicit Types (w : world) (p i old new : ptr).

Lemma tryExpungeLocked_loop_racing n : ∀ w w' b,
  tryExpungeLocked_loop n (cell w) w = Ok b w' →
  (stores w' = stores w ∨ stores w' = stores w ++ [(pnil, expunged)]) ∧
  cell w' ≠ pnil ∧ (b = true ↔ cell w' = expunged).
Proof.
  induction n as [|n IH]; intros w w' b Hrun; cbn [tryExpungeLocked_loop] in Hrun.
  - case_decide as Hp; [done|]. racing_step Hrun. injection Hrun as <- <-.
    rewrite bool_decide_eq_true. naive_solver.
  - case_decide as Hp.
    + racing_step Hrun. case_decide as Hc.
      * injection Hrun as <- <-. cbn. naive_solver.
      * racing_step Hrun. apply IH in Hrun. rewrite !stores_moved in Hrun. done.
    + racing_step Hrun. injection Hrun as <- <-. rewrite bool_decide_eq_true. naive_solver.
Qed.

Lemma tryExpungeLocked_racing n w w' b :
  tryExpungeLocked n w = Ok b w' →
  (stores w' = stores w ∨ stores w' = stores w ++ [(pnil, expunged)]) ∧
  cell w' ≠ pnil ∧ (b = true ↔ cell w' = expunged).
Proof.
  unfold tryExpungeLocked. intros Hrun. racing_step Hrun.
  apply tryExpungeLocked_loop_racing in Hrun. by rewrite stores_moved in Hrun.
Qed.

End racing_expunge.

Ltac racing_go :=
  unfold mbind, M_bind, mret, M_ret, spin;
  rewrite ?p_Load_eq, ?p_CompareAndSwap_eq.

Section racing_progress.
Import racing.
Implicit Types (w : world) (p i old new : ptr).

Lemma busy_moved_twice w :
  cell (moved (moved w)) ≠ cell (moved w) → busy (moved (moved w)) < busy w.
Proof.
  intros Hne%busy_moved_lt. pose proof (busy_moved w). lia.
Qed.

Lemma trySwap_returns n i : ∀ w, busy w < n → is_Some (final (trySwap n i w)).
Proof.
  induction n as [|n IH]; intros w Hb; [lia|].
  cbn [trySwap]. racing_go. case_decide; [done|]. racing_go. case_decide; [done|].
  apply IH. pose proof (busy_moved_twice w). naive_solver lia.
Qed.

Lemma delete_returns n : ∀ w, busy w < n → is_Some (final (delete n w)).
Proof.
  induction n as [|n IH]; intros w Hb; [lia|].
  cbn [delete]. racing_go. case_decide; [done|]. racing_go. case_decide; [done|].
  apply IH. pose proof (busy_moved_twice w). naive_solver lia.
Qed.

Lemma tryCompareAndSwap_loop_returns n old nc : ∀ w,
  cell w = old → busy w < n → is_Some (final (tryCompareAndSwap_loop n old nc old w)).
Proof.
  induction n as [|n IH]; intros w Hc Hb; [lia|].
  cbn [tryCompareAndSwap_loop]. racing_go. case_decide as Hc1; [done|]. racing_go.
  case_decide as Hp; [done|].
  assert (cell (moved (moved w)) = old) as Hold.
  { destruct (decide (cell (moved (moved w)) = old)); naive_solver. }
  rewrite Hold. apply IH; [done|].
  assert (busy (moved w) < busy w) by (apply busy_moved_lt; congruence).
  pose proof (busy_moved (moved w)). lia.
Qed.

Lemma tryCompareAndSwap_returns n old new w :
  busy w < n → is_Some (final (tryCompareAndSwap n old new w)).
Proof.
  intros Hb. unfold tryCompareAndSwap. racing_go. case_decide as Hp; [done|].
  assert (cell (moved w) = old) as Hold.
  { destruct (decide (cell (moved w) = old)); naive_solver. }
  rewrite Hold. apply tryCompareAndSwap_loop_returns; [done|].
  pose proof (busy_moved w). lia.
Qed.

Lemma tryExpungeLocked_loop_returns n : ∀ w,
  busy w < n → is_Some (final (tryExpungeLocked_loop n (cell w) w)).
Proof.
  induction n as [|n IH]; intros w Hb; [lia|].
  cbn [tryExpungeLocked_loop]. case_decide as Hp; [|done].
  racing_go. case_decide as Hc; [done|]. racing_go.
  apply IH. assert (busy (moved w) < busy w) by (apply busy_moved_lt; congruence).
  pose proof (busy_moved (moved w)). lia.
Qed.

Lemma tryExpungeLocked_returns n w :
  busy w < n → is_Some (final (tryExpungeLocked n w)).
Proof.
  intros Hb. unfold tryExpungeLocked. racing_go.
  destruct n as [|n]; [lia|]. apply tryExpungeLocked_loop_returns.
  pose proof (busy_moved w). lia.
Qed.

End racing_progress.

Section racing_progress_any.
Import racing.
Context {T : Type} (deref : addr → T).
Implicit Types (w : world) (p i old new : ptr).

Lemma tryLoadOrStore_loop_returns n i ic : ∀ w,
  cell w = pnil → busy w < n → is_Some (final (tryLoadOrStore_loop deref n i ic w)).
Proof.
  induction n as [|n IH]; intros w Hc Hb; [lia|].
  cbn [tryLoadOrStore_loop]. racing_go. case_decide as Hc1; [done|]. racing_go.
  destruct (cell (moved (moved w))) eqn:Hp; [|done..].
  apply IH; [done|].
  assert (busy (moved w) < busy w) by (apply busy_moved_lt; congruence).
  pose proof (busy_moved (moved w)). lia.
Qed.

Lemma tryLoadOrStore_returns n i w :
  busy w < n → is_Some (final (tryLoadOrStore deref n i w)).
Proof.
  intros Hb. unfold tryLoadOrStore. racing_go.
  destruct (cell (moved w)) eqn:Hp; [|done..].
  apply tryLoadOrStore_loop_returns; [done|]. pose proof (busy_moved w). lia.
Qed.

(** X15: whatever other goroutines store into the entry meanwhile, and
    however often a loop retries, a method that returns has made at most
    one store, the one its result reports: [tryCompareAndSwap] replaced
    [old] (neither nil nor the sentinel) by [new] exactly when it returns
    true; [tryLoadOrStore] replaced nil by [i] exactly when it returns
    [ok] without [loaded], answers [ok] false only on the sentinel and
    [loaded] only with the pointee of a pointer it read; [delete] and
    [trySwap] replaced the pointer they return, which is not the sentinel,
    exactly when they return true; [tryExpungeLocked] stored nothing but
    the sentinel over nil, leaves an entry that is not nil, and returns
    true exactly when the entry is left expunged. *)
Theorem racing_store_is_reported n old new i w :
  (∀ b w', tryCompareAndSwap n old new w = Ok b w' →
     stores w' = stores w ++ (if b then [(old, new)] else []) ∧
     (b = true → old ≠ pnil ∧ old ≠ expunged ∧ cell w' = new) ∧
     (b = false → cell w' = pnil ∨ cell w' = expunged ∨ cell w' ≠ old)) ∧
  (∀ a l ok w', tryLoadOrStore deref n i w = Ok (a, l, ok) w' →
     stores w' = stores w ++ (if ok && negb l then [(pnil, i)] else []) ∧
     (ok = false → l = false ∧ a = any_nil ∧ cell w' = expunged) ∧
     (l = true → ok = true ∧ ∃ x, cell w' = ref x ∧ a = any_val (deref x)) ∧
     (ok = true → l = false → a = any_ptr i ∧ cell w' = i)) ∧
  (∀ p ok w', delete n w = Ok (p, ok) w' →
     stores w' = stores w ++ (if ok then [(p, pnil)] else []) ∧
     (ok = true → p ≠ pnil ∧ p ≠ expunged ∧ cell w' = pnil) ∧
     (ok = false → p = pnil ∧ (cell w' = pnil ∨ cell w' = expunged))) ∧
  (∀ p ok w', trySwap n i w = Ok (p, ok) w' →
     stores w' = stores w ++ (if ok then [(p, i)] else []) ∧
     (ok = true → p ≠ expunged ∧ cell w' = i) ∧
     (ok = false → cell w' = expunged)) ∧
  (∀ b w', tryExpungeLocked n w = Ok b w' →
     (stores w' = stores w ∨ stores w' = stores w ++ [(pnil, expunged)]) ∧
     cell w' ≠ pnil ∧ (b = true ↔ cell w' = expunged)).
Proof.
  split; [|split; [|split; [|split]]].
  - intros b w'. apply tryCompareAndSwap_racing.
  - intros a l ok w'. apply tryLoadOrStore_racing.
  - intros p ok w'. apply delete_racing.
  - intros p ok w'. apply trySwap_racing.
  - intros b w'. apply tryExpungeLocked_racing.
Qed.

(** X16: a loop goes round again only when another goroutine stored into
    the entry since the method last read it: when the other goroutines
    make fewer than [n] stores, each method returns within [n]
    iterations. *)
Theorem racing_methods_return n old new i w :
  busy w < n →
  is_Some (final (tryCompareAndSwap n old new w)) ∧
  is_Some (final (tryLoadOrStore deref n i w)) ∧
  is_Some (final (delete n w)) ∧
  is_Some (final (trySwap n i w)) ∧
  is_Some (final (tryExpungeLocked n w)).
Proof.
  intros Hb. split; [|split; [|split; [|split]]].
  - by apply tryCompareAndSwap_returns.
  - by apply tryLoadOrStore_returns.
  - by apply delete_returns.
  - by apply trySwap_returns.
  - by apply tryExpungeLocked_returns.
Qed.

End racing_progress_any.

Section racing_alone.
Import racing.
Context {T : Type} (deref : addr → T).
Implicit Types (w : world) (p i old new : ptr) (h : gmap loc ptr) (e : loc).

Lemma moved_alone w : others w = [] → moved w = w.
Proof. unfold moved. by intros ->. Qed.

(** With no other goroutine at work, the methods return in their first
    iteration what the methods of [entry] return, and leave in the field
    what those leave in the cell. *)
Lemma racing_alone_is_entry n old new i e h w :
  others w = [] → cell w = h !!! e →
  (returned (tryCompareAndSwap (S n) old new w) = returned (entry.tryCompareAndSwap e old new h) ∧
   cell <$> final (tryCompareAndSwap (S n) old new w) =
     (.!!! e) <$> final (entry.tryCompareAndSwap e old new h)) ∧
  (returned (tryLoadOrStore deref (S n) i w) = returned (entry.tryLoadOrStore deref e i h) ∧
   cell <$> final (tryLoadOrStore deref (S n) i w) =
     (.!!! e) <$> final (entry.tryLoadOrStore deref e i h)) ∧
  (returned (delete (S n) w) = returned (entry.delete e h) ∧
   cell <$> final (delete (S n) w) = (.!!! e) <$> final (entry.delete e h)) ∧
  (returned (trySwap (S n) i w) = returned (entry.trySwap e i h) ∧
   cell <$> final (trySwap (S n) i w) = (.!!! e) <$> final (entry.trySwap e i h)) ∧
  (returned (tryExpungeLocked (S n) w) = returned (entry.tryExpungeLocked e h) ∧
   cell <$> final (tryExpungeLocked (S n) w) = (.!!! e) <$> final (entry.tryExpungeLocked e h)).
Proof.
  intros Ho Hc.
  rewrite tryCompareAndSwap_eq, tryLoadOrStore_eq, delete_eq, trySwap_eq, tryExpungeLocked_eq.
  rewrite <- Hc.
  unfold tryCompareAndSwap, tryLoadOrStore, tryExpungeLocked.
  cbn [tryCompareAndSwap_loop tryLoadOrStore_loop delete trySwap tryExpungeLocked_loop].
  racing_go. rewrite !(moved_alone w Ho).
  split; [|split; [|split; [|split]]].
  - case_decide as H1.
    + rewrite decide_False by naive_solver. cbn. split; congruence.
    + assert (cell w = old ∧ old ≠ pnil ∧ old ≠ expunged) as (Hold & ? & ?).
      { destruct (decide (cell w = old)); naive_solver. }
      rewrite decide_True by done. racing_go. rewrite (moved_alone w Ho).
      rewrite decide_True by done. cbn. by rewrite lookup_total_insert_eq.
  - destruct (cell w) eqn:Hp; cbn; [|split; congruence..].
    racing_go. rewrite (moved_alone w Ho), decide_True by done. cbn.
    by rewrite lookup_total_insert_eq.
  - destruct (cell w) eqn:Hp.
    + rewrite decide_True by naive_solver. cbn. split; congruence.
    + rewrite decide_True by naive_solver. cbn. split; congruence.
    + rewrite decide_False by naive_solver. racing_go.
      rewrite (moved_alone w Ho), decide_True by done. cbn.
      by rewrite lookup_total_insert_eq.
  - case_decide; [cbn; split; congruence|]. racing_go.
    rewrite (moved_alone w Ho), decide_True by done.
    cbn. by rewrite lookup_total_insert_eq.
  - destruct (cell w) eqn:Hp.
    + rewrite decide_True by done. racing_go.
      rewrite (moved_alone w Ho), decide_True by done. cbn.
      by rewrite lookup_total_insert_eq.
    + rewrite decide_False by done. rewrite bool_decide_eq_true_2 by done.
      cbn. split; congruence.
    + rewrite decide_False by done. rewrite bool_decide_eq_false_2 by done.
      cbn. split; congruence.
Qed.

End racing_alone.

Section racing_polite.
Import racing.
Implicit Types (w : world) (p i old new : ptr).

Lemma polite_moved w : polite w → polite (moved w).
Proof.
  unfold polite, moved. destruct (others w) as [|[q|] rest] eqn:E; cbn [others];
    rewrite ?E; try done; by intros [_ ?]%Forall_cons.
Qed.

Lemma unexpunged_moved w : polite w → cell w ≠ expunged → cell (moved w) ≠ expunged.
Proof.
  unfold polite, moved. destruct (others w) as [|[q|] rest] eqn:E; cbn [cell]; try done.
  intros [Hq _]%Forall_cons _ ->. done.
Qed.

Lemma trySwap_polite n i : ∀ w p ok w',
  polite w → cell w ≠ expunged → i ≠ expunged →
  trySwap n i w = Ok (p, ok) w' → ok = true ∧ cell w' ≠ expunged ∧ polite w'.
Proof.
  induction n as [|n IH]; intros w p ok w' Hpol Hc Hi Hrun; [done|].
  cbn [trySwap] in Hrun. racing_step Hrun.
  pose proof (polite_moved w Hpol) as Hpol1.
  pose proof (unexpunged_moved w Hpol Hc) as Hc1.
  pose proof (polite_moved _ Hpol1) as Hpol2.
  pose proof (unexpunged_moved _ Hpol1 Hc1) as Hc2.
  case_decide as Hp; [done|]. racing_step Hrun. case_decide as Hcas.
  - injection Hrun as <- <- <-. done.
  - by apply IH in Hrun.
Qed.

Lemma unexpungeLocked_polite w b w' :
  polite w → unexpungeLocked w = Ok b w' → cell w' ≠ expunged ∧ polite w'.
Proof.
  intros Hpol Hrun. unfold unexpungeLocked in Hrun. racing_step Hrun.
  pose proof (polite_moved w Hpol) as Hpol1.
  case_decide as Hc; injection Hrun as <- <-; done.
Qed.

Lemma swapLocked_polite i w v w' :
  polite w → cell w ≠ expunged →
  swapLocked i w = Ok v w' →
  v ≠ expunged ∧ cell w' = i ∧ stores w' = stores w ++ [(v, i)] ∧ polite w'.
Proof.
  intros Hpol Hc Hrun. unfold swapLocked, p_Swap in Hrun. cbn in Hrun.
  injection Hrun as <- <-. cbn. rewrite stores_moved.
  split; [by apply unexpunged_moved|]. split; [done|]. split; [done|]. by apply polite_moved.
Qed.

End racing_polite.

Section racing_polite_any.
Import racing.
Context {T : Type} (deref : addr → T).
Implicit Types (w : world) (p i old new : ptr).

Lemma tryLoadOrStore_loop_polite n i ic : ∀ w a l ok w',
  polite w → cell w ≠ expunged → ic ≠ expunged →
  tryLoadOrStore_loop deref n i ic w = Ok (a, l, ok) w' →
  ok = true ∧ cell w' ≠ expunged ∧ polite w'.
Proof.
  induction n as [|n IH]; intros w a l ok w' Hpol Hc Hi Hrun; [done|].
  cbn [tryLoadOrStore_loop] in Hrun. racing_step Hrun.
  pose proof (polite_moved w Hpol) as Hpol1.
  pose proof (unexpunged_moved w Hpol Hc) as Hc1.
  pose proof (polite_moved _ Hpol1) as Hpol2.
  pose proof (unexpunged_moved _ Hpol1 Hc1) as Hc2.
  case_decide as Hcas.
  - injection Hrun as <- <- <- <-. done.
  - racing_step Hrun. destruct (cell (moved (moved w))) as [| |x] eqn:Hp; [|done|].
    + apply IH in Hrun; [done..|by rewrite Hp|done].
    + injection Hrun as <- <- <- <-. by rewrite Hp.
Qed.

Lemma tryLoadOrStore_polite n i w a l ok w' :
  polite w → cell w ≠ expunged → i ≠ expunged →
  tryLoadOrStore deref n i w = Ok (a, l, ok) w' →
  ok = true ∧ cell w' ≠ expunged ∧ polite w'.
Proof.
  intros Hpol Hc Hi Hrun. unfold tryLoadOrStore in Hrun. racing_step Hrun.
  pose proof (polite_moved w Hpol) as Hpol1.
  pose proof (unexpunged_moved w Hpol Hc) as Hc1.
  destruct (cell (moved w)) as [| |x] eqn:Hp; [|done|].
  - apply tryLoadOrStore_loop_polite in Hrun; [done..|by rewrite Hp|done].
  - injection Hrun as <- <- <- <-. by rewrite Hp.
Qed.

(** X17: while the other goroutines store no sentinel into the entry,
    [unexpungeLocked] leaves an entry that is not expunged, and on an entry
    that is not expunged [trySwap] and [tryLoadOrStore] given a handle,
    when they return, return [ok] true and leave the entry not expunged,
    and [swapLocked] replaces and returns a pointer that is not the
    sentinel: the locked paths of [Swap] and [LoadOrStore], which call
    [swapLocked] and drop the [ok] of [tryLoadOrStore] after
    [unexpungeLocked], lose nothing. *)
Theorem unexpunged_entry_takes_stores n i w :
  polite w → i ≠ expunged →
  (∀ b w1, unexpungeLocked w = Ok b w1 →
     cell w1 ≠ expunged ∧ polite w1 ∧
     (∀ v w2, swapLocked i w1 = Ok v w2 →
        v ≠ expunged ∧ cell w2 = i ∧ stores w2 = stores w1 ++ [(v, i)]) ∧
     (∀ a l ok w2, tryLoadOrStore deref n i w1 = Ok (a, l, ok) w2 →
        ok = true ∧ cell w2 ≠ expunged)) ∧
  (cell w ≠ expunged →
     (∀ p ok w', trySwap n i w = Ok (p, ok) w' → ok = true ∧ cell w' ≠ expunged) ∧
     (∀ a l ok w', tryLoadOrStore deref n i w = Ok (a, l, ok) w' →
        ok = true ∧ cell w' ≠ expunged) ∧
     (∀ v w', swapLocked i w = Ok v w' →
        v ≠ expunged ∧ cell w' = i ∧ stores w' = stores w ++ [(v, i)])).
Proof.
  intros Hpol Hi. split.
  - intros b w1 Hun. destruct (unexpungeLocked_polite w b w1 Hpol Hun) as [Hc1 Hpol1].
    split; [done|]. split; [done|]. split.
    + intros v w2 Hsw. by destruct (swapLocked_polite i w1 v w2 Hpol1 Hc1 Hsw) as (? & ? & ? & _).
    + intros a l ok w2 Hls.
      by destruct (tryLoadOrStore_polite n i w1 a l ok w2 Hpol1 Hc1 Hi Hls) as (? & ? & _).
  - intros Hc. split; [|split].
    + intros p ok w' Hrun.
      by destruct (trySwap_polite n i w p ok w' Hpol Hc Hi Hrun) as (? & ? & _).
    + intros a l ok w' Hrun.
      by destruct (tryLoadOrStore_polite n i w a l ok w' Hpol Hc Hi Hrun) as (? & ? & _).
    + intros v w' Hsw. by destruct (swapLocked_polite i w v w' Hpol Hc Hsw) as (? & ? & ? & _).
Qed.

End racing_polite_any.

(** ** The properties on sample runs *)

Lemma reachable_after (os : list (op nat)) :
  forallb valid os = true → VMap.reachable deref0 (after os).
Proof.
  intros Hv. destruct (run_wf deref0 os VMap.zero wf_zero Hv) as (rs & s & Hrun & _).
  unfold after. rewrite Hrun.
  eapply reachable_run; [apply VMap.reachable_zero|done..].
Qed.

Lemma CompareAndSwap_succeeds_iff_identical_witness :
  handle (ref 11) = true ∧
  ((∃ b s', VMap.CompareAndSwap 1 (ref 10) (ref 11) (after calls_live) = Ok b s' ∧
     (b = true ↔ returned (VMap.Load 1 (after calls_live)) = Some (ref 10, true)) ∧
     (b = true → ∃ ok, returned (VMap.Load 1 s') = Some (ref 11, ok) ∧
                       (ok = true ↔ ref 11 ≠ pnil))) ∧
   (∃ b s', VMap.CompareAndDelete 1 (ref 10) (after calls_live) = Ok b s' ∧
     (b = true ↔ returned (VMap.Load 1 (after calls_live)) = Some (ref 10, true)) ∧
     (b = true → returned (VMap.Load 1 s') = Some (pnil, false)))).
Proof.
  split; [reflexivity|].
  apply (CompareAndSwap_succeeds_iff_identical 1 (ref 10) (ref 11) (after calls_live)).
  reflexivity.
Defined.

Lemma Delete_Store_Load_witness :
  VMap.reachable deref0 (after calls_live) ∧
  forallb valid [OStore 2 (ref 20)] = true ∧
  ∃ rs s', VMap.run deref0 (ODelete 1 :: [OStore 2 (ref 20)] ++ [OStore 1 (ref 30)])
             (after calls_live) = Ok rs s' ∧
           returned (VMap.Load 1 s') = Some (ref 30, true).
Proof.
  split; [apply reachable_after; reflexivity|]. split; [reflexivity|].
  apply (Delete_Store_Load deref0 1 30 [OStore 2 (ref 20)] (after calls_live)).
  - apply reachable_after; reflexivity.
  - reflexivity.
Defined.


Lemma Store_nil_Load_witness :
  VMap.reachable deref0 (after calls_expunged) ∧
  ∃ s1, VMap.Store 1 pnil (after calls_expunged) = Ok tt s1 ∧
        returned (VMap.Load 1 s1) = Some (pnil, false).
Proof.
  split; [apply reachable_after; reflexivity|].
  apply (Store_nil_Load deref0 1 (after calls_expunged)).
  apply reachable_after; reflexivity.
Defined.

Lemma expunged_cell_is_unregistered_witness :
  VMap.reachable deref0 (after calls_expunged) ∧
  VMap.m (VMap.snapshot (after calls_expunged)) !! 1 = Some 0 ∧
  VMap.cells (after calls_expunged) !!! 0 = expunged ∧
  ∃ d, VMap.dirty (after calls_expunged) = Some d ∧ d !! 1 = None.
Proof.
  split; [apply reachable_after; reflexivity|]. split; [reflexivity|]. split; [reflexivity|].
  destruct (expunged_cell_is_unregistered deref0 1 (ref 30) (after calls_expunged))
    as [Hinv _].
  - apply reachable_after; reflexivity.
  - apply (Hinv 0); reflexivity.
Defined.

Lemma failed_compare_changes_nothing_witness :
  VMap.reachable deref0 (after calls_expunged) ∧
  (∃ b s', VMap.CompareAndSwap 2 (ref 5) (ref 6) (after calls_expunged) = Ok b s' ∧
           (b = false →
            returned (VMap.Load 1 s') = returned (VMap.Load 1 (after calls_expunged)))) ∧
  (∃ b s', VMap.CompareAndDelete 2 (ref 5) (after calls_expunged) = Ok b s' ∧
           (b = false →
            returned (VMap.Load 1 s') = returned (VMap.Load 1 (after calls_expunged)))).
Proof.
  split; [apply reachable_after; reflexivity|].
  apply (failed_compare_changes_nothing deref0 2 (ref 5) (ref 6) (after calls_expunged) 1).
  apply reachable_after; reflexivity.
Defined.

Lemma found_is_not_nil_witness :
  VMap.reachable deref0 (after calls_live) ∧
  ∀ p, returned (VMap.Load 1 (after calls_live)) = Some (p, true) → p ≠ pnil ∧ p ≠ expunged.
Proof.
  split; [apply reachable_after; reflexivity|].
  apply (found_is_not_nil deref0 1 (ref 30) (after calls_live)).
  apply reachable_after; reflexivity.
Defined.

Lemma misses_bounded_witness :
  VMap.reachable deref0 (after calls_expunged) ∧
  VMap.misses (after calls_expunged) ≤
    from_option size 0 (VMap.dirty (after calls_expunged)).
Proof.
  split; [apply reachable_after; reflexivity|].
  apply (misses_bounded deref0 (after calls_expunged)).
  apply reachable_after; reflexivity.
Defined.

Lemma calls_with_handles_return_witness :
  VMap.reachable deref0 (after calls_expunged) ∧
  valid (OLoadOrStore 1 (ref 30)) = true ∧
  ∃ r s', VMap.exec deref0 (OLoadOrStore 1 (ref 30)) (after calls_expunged) = Ok r s' ∧
          VMap.reachable deref0 s'.
Proof.
  split; [apply reachable_after; reflexivity|]. split; [reflexivity|].
  apply (calls_with_handles_return deref0 (OLoadOrStore 1 (ref 30)) (after calls_expunged)).
  - apply reachable_after; reflexivity.
  - reflexivity.
Defined.

Lemma Load_after_Store_witness :
  VMap.reachable deref0 (after calls_expunged) ∧
  handle (ref 30) = true ∧
  ∃ s1, VMap.Store 1 (ref 30) (after calls_expunged) = Ok tt s1 ∧
        returned (VMap.Load 1 s1) =
          Some (if decide (ref 30 = pnil) then (pnil, false) else (ref 30, true)).
Proof.
  split; [apply reachable_after; reflexivity|]. split; [reflexivity|].
  apply (Load_after_Store deref0 1 (ref 30) (after calls_expunged)).
  - apply reachable_after; reflexivity.
  - reflexivity.
Defined.

Lemma LoadAndDelete_removes_witness :
  VMap.reachable deref0 (after calls_dirty) ∧
  ∃ r s', VMap.LoadAndDelete 1 (after calls_dirty) = Ok r s' ∧
          returned (VMap.Load 1 (after calls_dirty)) = Some r ∧
          returned (VMap.Load 1 s') = Some (pnil, false).
Proof.
  split; [apply reachable_after; reflexivity|].
  apply (LoadAndDelete_removes deref0 1 (after calls_dirty)).
  apply reachable_after; reflexivity.
Defined.

Lemma overlay_covers_snapshot_witness :
  VMap.reachable deref0 (after calls_expunged) ∧
  (VMap.amended (VMap.snapshot (after calls_expunged)) = true →
   is_Some (VMap.dirty (after calls_expunged))).
Proof.
  split; [apply reachable_after; reflexivity|].
  apply (overlay_covers_snapshot deref0 1 0 (after calls_expunged)).
  apply reachable_after; reflexivity.
Defined.

Lemma expunged_only_leaves_under_lock_witness :
  ({[0 := expunged]} : gmap loc ptr) !!! 0 = expunged ∧
  entry.trySwap 0 (ref 1) ({[0 := expunged]} : gmap loc ptr) =
    Ok (pnil, false) {[0 := expunged]} ∧
  entry.unexpungeLocked 0 ({[0 := expunged]} : gmap loc ptr) =
    Ok true (<[0:=pnil]> {[0 := expunged]}).
Proof.
  split; [reflexivity|].
  destruct (expunged_only_leaves_under_lock deref0 0 (ref 1) (ref 2) (ref 3)
              ({[0 := expunged]} : gmap loc ptr)) as (_ & _ & _ & _ & Hswap & _ & Hun).
  - reflexivity.
  - split; [exact Hswap|exact Hun].
Defined.

Lemma live_cell_stays_live_witness :
  ({[0 := ref 5]} : gmap loc ptr) !!! 0 ≠ expunged ∧ ref 1 ≠ expunged ∧ ref 3 ≠ expunged ∧
  entry.tryExpungeLocked 0 ({[0 := ref 5]} : gmap loc ptr) =
    (if decide (({[0 := ref 5]} : gmap loc ptr) !!! 0 = pnil)
     then Ok true (<[0:=expunged]> {[0 := ref 5]}) else Ok false {[0 := ref 5]}).
Proof.
  split; [discriminate|]. split; [discriminate|]. split; [discriminate|].
  destruct (live_cell_stays_live deref0 0 (ref 1) (ref 2) (ref 3)
              ({[0 := ref 5]} : gmap loc ptr)) as (_ & _ & _ & _ & _ & _ & Hex).
  - discriminate.
  - discriminate.
  - discriminate.
  - exact Hex.
Defined.

Lemma calls_change_own_key_only_witness :
  VMap.reachable deref0 (after calls_live) ∧
  valid (OStore 3 (ref 30)) = true ∧
  VMap.exec deref0 (OStore 3 (ref 30)) (after calls_live) =
    Ok RUnit (after (calls_live ++ [OStore 3 (ref 30)])) ∧
  writes (OStore 3 (ref 30)) 1 = false ∧
  returned (VMap.Load 1 (after (calls_live ++ [OStore 3 (ref 30)]))) =
    returned (VMap.Load 1 (after calls_live)).
Proof.
  split; [apply reachable_after; reflexivity|]. split; [reflexivity|].
  split; [vm_compute; reflexivity|]. split; [reflexivity|].
  apply (calls_change_own_key_only deref0 (OStore 3 (ref 30)) (after calls_live) RUnit
           (after (calls_live ++ [OStore 3 (ref 30)])) 1).
  - apply reachable_after; reflexivity.
  - reflexivity.
  - vm_compute; reflexivity.
  - reflexivity.
Defined.

Lemma Swap_returns_previous_witness :
  VMap.reachable deref0 (after calls_live) ∧
  handle (ref 30) = true ∧
  ∃ r s', VMap.Swap 1 (ref 30) (after calls_live) = Ok r s' ∧
          returned (VMap.Load 1 (after calls_live)) = Some r ∧
          returned (VMap.Load 1 s') = Some (VMap.loaded (ref 30)).
Proof.
  split; [apply reachable_after; reflexivity|]. split; [reflexivity|].
  apply (Swap_returns_previous deref0 1 (ref 30) (after calls_live)).
  - apply reachable_after; reflexivity.
  - reflexivity.
Defined.

Lemma LoadOrStore_loads_or_stores_witness :
  VMap.reachable deref0 (after calls_expunged) ∧
  handle (ref 30) = true ∧
  ∃ r s', VMap.LoadOrStore deref0 1 (ref 30) (after calls_expunged) = Ok r s' ∧
    ((∃ a, returned (VMap.Load 1 (after calls_expunged)) = Some (ref a, true) ∧
           r = (any_val (deref0 a), true) ∧
           ∀ k', returned (VMap.Load k' s') = returned (VMap.Load k' (after calls_expunged))) ∨
     (returned (VMap.Load 1 (after calls_expunged)) = Some (pnil, false) ∧
      r = (any_ptr (ref 30), false) ∧
      returned (VMap.Load 1 s') = Some (VMap.loaded (ref 30)))).
Proof.
  split; [apply reachable_after; reflexivity|]. split; [reflexivity|].
  apply (LoadOrStore_loads_or_stores deref0 1 (ref 30) (after calls_expunged)).
  - apply reachable_after; reflexivity.
  - reflexivity.
Defined.

Lemma misses_promote_witness :
  VMap.reachable deref0 (after calls_expunged) ∧
  VMap.amended (VMap.snapshot (after calls_expunged)) = true ∧
  VMap.m (VMap.snapshot (after calls_expunged)) !! 3 = None ∧
  VMap.misses (after calls_expunged) < from_option size 0 (VMap.dirty (after calls_expunged)) ∧
  final (VMap.run deref0
           (replicate (from_option size 0 (VMap.dirty (after calls_expunged)) -
                       VMap.misses (after calls_expunged)) (OLoad 3))
           (after calls_expunged)) =
    Some (VMap.promoted (after calls_expunged)).
Proof.
  split; [apply reachable_after; reflexivity|]. split; [reflexivity|]. split; [reflexivity|].
  destruct (misses_promote deref0 3 (after calls_expunged)) as (Hlt & _ & Hrun).
  - apply reachable_after; reflexivity.
  - reflexivity.
  - reflexivity.
  - split; [exact Hlt|exact Hrun].
Defined.

Lemma VMap_refines_plain_map_witness :
  forallb valid calls_expunged = true ∧
  ∃ rs s mp, VMap.run deref0 calls_expunged VMap.zero = Ok rs s ∧
             plain_run deref0 calls_expunged ∅ rs mp ∧
             ∀ k, returned (VMap.Load k s) = Some (plain_get mp k).
Proof.
  split; [reflexivity|].
  apply (VMap_refines_plain_map deref0 calls_expunged). reflexivity.
Defined.

Lemma KVMap_refines_plain_map_witness :
  forallb valid calls_expunged = true ∧
  ∃ rs s mp, KVMap.run deref0 calls_expunged KVMap.zero = Ok rs s ∧
             plain_run deref0 calls_expunged ∅ rs mp ∧
             ∀ k, returned (KVMap.Load k s) = Some (plain_get mp k).
Proof.
  split; [reflexivity|].
  apply (KVMap_refines_plain_map deref0 calls_expunged). reflexivity.
Defined.

Lemma racing_methods_return_witness :
  racing.busy world_busy < 3 ∧
  is_Some (final (racing.trySwap 3 (ref 9) world_busy)).
Proof.
  split; [vm_compute; lia|].
  destruct (racing_methods_return deref0 3 (ref 1) (ref 3) (ref 9) world_busy)
    as (_ & _ & _ & Hswap & _).
  - vm_compute; lia.
  - exact Hswap.
Defined.

Lemma unexpunged_entry_takes_stores_witness :
  racing.polite world_busy ∧ ref 9 ≠ expunged ∧
  (racing.cell world_busy ≠ expunged →
   ∀ p ok w', racing.trySwap 3 (ref 9) world_busy = Ok (p, ok) w' →
              ok = true ∧ racing.cell w' ≠ expunged).
Proof.
  assert (racing.polite world_busy) as Hpol.
  { unfold racing.polite, world_busy; simpl. repeat constructor; discriminate. }
  split; [exact Hpol|]. split; [discriminate|].
  destruct (unexpunged_entry_takes_stores deref0 3 (ref 9) world_busy) as [_ Hlive].
  - exact Hpol.
  - discriminate.
  - intros Hc. destruct (Hlive Hc) as (Hswap & _). exact Hswap.
Defined.

Lemma fast_path_changes_one_cell_witness :
  VMap.m (VMap.snapshot (after calls_live)) !! 1 = Some 0 ∧
  VMap.cells (after calls_live) !!! 0 ≠ expunged ∧
  VMap.Swap 1 (ref 30) (after calls_live) =
    Ok (VMap.swapped (VMap.cells (after calls_live) !!! 0))
       (VMap.set_cell 0 (ref 30) (after calls_live)).
Proof.
  split; [reflexivity|]. split; [vm_compute; discriminate|].
  destruct (fast_path_changes_one_cell deref0 1 (ref 30) (ref 10) (ref 11) 0 (after calls_live))
    as (_ & Hswap & _).
  - reflexivity.
  - vm_compute; discriminate.
  - exact Hswap.
Defined.

Lemma Range_with_calling_callback_witness :
  VMap.reachable deref0 (after calls_expunged) ∧
  ∃ calls s',
    VMap.Range_calling
      (λ k v, _ ← VMap.run deref0 [ODelete 2; OStore (k + 10) v]; mret true)
      (after calls_expunged) = Ok calls s' ∧
    VMap.reachable deref0 s' ∧ NoDup calls.*1.
Proof.
  split; [apply reachable_after; reflexivity|].
  destruct (Range_with_calling_callback deref0
              (λ k v, _ ← VMap.run deref0 [ODelete 2; OStore (k + 10) v]; mret true)
              (after calls_expunged)) as [(calls & s' & Hrun & Hr & Hnd & _) _].
  - apply reachable_after; reflexivity.
  - apply (calling_valid_calls deref0 (λ k v, [ODelete 2; OStore (k + 10) v]) (λ _ _, true)).
    intros k a. reflexivity.
  - exists calls, s'. split; [exact Hrun|]. split; [exact Hr|exact Hnd].
Defined.
